(** * The concurrency-safe storage layer of the prompt/context extension

    A shallow embedding of [core/storage-service.ts] (the record store and
    its facade) and [core/concurrency-service.ts] (the write queue, the
    retry executor and their metrics), followed by the properties of the
    storage specification that were checked against them.

    Conventions of the embedding.
    - JavaScript numbers that the code only uses as integers (timestamps,
      counters, delays, attempt numbers) are [Z]; [averageLatency], the one
      quantity the code divides, is an exact rational [Qc].
    - An [async] function is an [Async A]: a function that runs its
      synchronous prefix on the [World] and then is either settled or
      suspended on a continuation.  Every I/O callback, timer and [await]
      is a suspension point.
    - [chrome.storage.local], [chrome.runtime.lastError], [Date.now],
      [Math.random], [setTimeout] and [console] are fields of the [World].
    - A record is the fields that its type declares; a stored array or
      object holds records, as the types of the code say.
    - An object that the code uses as a map is its own properties together
      with its prototype: a property read finds the members of
      [Object.prototype] too, and an assignment to [__proto__] sets the
      prototype instead of a property. *)

From stdpp Require Import gmap strings list fin_maps sorting pretty.
From Stdlib Require Import ZArith QArith Qcanon.

Open Scope string_scope.
Open Scope Z_scope.

(** ** Thrown values *)

(** The three kinds of object the code rejects with: [new Error(msg)], the
    engine's [TypeError] on a property access through [null], and the plain
    object [chrome.runtime.lastError]. *)
Inductive ErrorKind := ErrorObject | TypeErrorObject | LastErrorObject.

Record Error := mkError { kind : ErrorKind; message : string }.

Definition new_Error (msg : string) : Error := mkError ErrorObject msg.
Definition new_TypeError (msg : string) : Error := mkError TypeErrorObject msg.

(** JavaScript truthiness of a string: the empty string is falsy. *)
Definition truthy_string (s : string) : bool :=
  match s with EmptyString => false | _ => true end.

(** [String(err)] *)
Definition String_of_Error (e : Error) : string :=
  match kind e with
  | ErrorObject =>
      if truthy_string (message e) then "Error: " +:+ message e else "Error"
  | TypeErrorObject =>
      if truthy_string (message e) then "TypeError: " +:+ message e else "TypeError"
  | LastErrorObject => "[object Object]"
  end.

Inductive Result (A : Type) : Type :=
| Ok (a : A)
| Throw (e : Error).
Arguments Ok {A} a.
Arguments Throw {A} e.

Definition succeeded {A} (r : Result A) : bool :=
  match r with Ok _ => true | Throw _ => false end.

(** ** Records and stored values *)

(** [PromptRecord] and [ContextRecord] (and the [Prompt] and [Context] of
    [core/types.ts]) as one record: a field that one of the two types lacks,
    or marks optional, is an [option].  An [id] that is missing is the empty
    string, which the code treats the same way ([item.id || makeId()]). *)
Record Entity := mkEntity {
  id : string;
  name : string;
  template : option string;
  text : option string;
  description : option string;
  createdAt : option Z;
  updatedAt : option Z
}.

Inductive Primitive :=
| PBoolean (b : bool)
| PNumber (n : Z)
| PString (s : string).

(** What [chrome.storage.local] holds under one key, for the values that
    the types of the code and the legacy format allow: [null], a
    primitive, an array of records or an object of records.  A key that
    is not set reads as [undefined], which is [None] at the lookup. *)
Inductive StoredValue :=
| VNull
| VPrimitive (p : Primitive)
| VArray (items : list Entity)
| VObject (map : gmap string Entity).

(** ** Objects used as maps *)

(** An object of static type [Record<string, _>]: its own enumerable
    properties, and its prototype once an assignment to [__proto__] has
    put a record in the place of [Object.prototype] ([None]). *)
Record MapObject := mkObject {
  own : gmap string Entity;
  proto : option Entity
}.

(** An object as an object literal, a spread or [chrome.storage.local]
    makes it: its prototype is [Object.prototype]. *)
Definition plain (m : gmap string Entity) : MapObject := mkObject m None.

(** The names of the properties of [Object.prototype]. *)
Definition Object_prototype : list string :=
  ["constructor"; "__defineGetter__"; "__defineSetter__"; "hasOwnProperty";
   "__lookupGetter__"; "__lookupSetter__"; "isPrototypeOf";
   "propertyIsEnumerable"; "toString"; "valueOf"; "__proto__";
   "toLocaleString"].

(** [id in Object.prototype] *)
Definition inherited (i : string) : bool :=
  bool_decide (i ∈ Object_prototype).

(** What a property read [map[id]] gives: a record, or something else that
    is truthy (a function or the prototype object that [Object.prototype]
    provides, a non-empty string, a number other than 0) or falsy (an empty
    string, 0, [undefined]). *)
Inductive Member :=
| Found (r : Entity)
| Other (truthy : bool).

Definition truthy_member (x : Member) : bool :=
  match x with
  | Found _ => true
  | Other b => b
  end.

(** What [prev?.createdAt] and the spread [{ ...prev }] read: the fields of
    a record.  A function, [Object.prototype], a number and [undefined]
    have no [createdAt] and no enumerable properties of their own; the
    characters that a string spreads land under the keys 0, 1, ...,
    which are no fields of a record. *)
Definition record_of (x : Member) : option Entity :=
  match x with
  | Found r => Some r
  | Other _ => None
  end.

(** Truthiness of the property [i] of a record, if the record has it. *)
Definition own_field (p : Entity) (i : string) : option bool :=
  let of_string (s : string) :=
    match s with EmptyString => false | _ => true end in
  let of_number (n : Z) := negb (n =? 0) in
  if decide (i = "id") then Some (of_string (id p))
  else if decide (i = "name") then Some (of_string (name p))
  else if decide (i = "template") then of_string <$> template p
  else if decide (i = "text") then of_string <$> text p
  else if decide (i = "description") then of_string <$> description p
  else if decide (i = "createdAt") then of_number <$> createdAt p
  else if decide (i = "updatedAt") then of_number <$> updatedAt p
  else None.

(** [map[i]]: an own property; or, along the prototype chain, a field of
    the record that is the prototype (which [__proto__] itself reads
    as a whole) and then a member of [Object.prototype]. *)
Definition member (map : MapObject) (i : string) : Member :=
  match own map !! i with
  | Some r => Found r
  | None =>
      match proto map with
      | Some p =>
          if decide (i = "__proto__") then Found p
          else match own_field p i with
               | Some b => Other b
               | None => Other (inherited i)
               end
      | None => Other (inherited i)
      end
  end.

(** [map[i] = rec]: for [__proto__], unless the object has a property of
    that name of its own, the setter of [Object.prototype] makes [rec] the
    prototype and adds no property. *)
Definition assign (map : MapObject) (i : string) (rec : Entity) : MapObject :=
  if decide (i = "__proto__" /\ own map !! i = None)
  then mkObject (own map) (Some rec)
  else mkObject (<[i := rec]> (own map)) (proto map).

(** [delete map[i]] *)
Definition remove (map : MapObject) (i : string) : MapObject :=
  mkObject (delete i (own map)) (proto map).

(** A value of static type [Record<string, _>]: the code casts whatever it
    read, so at run time the reference can be [null]. *)
Inductive MapRef :=
| RNull
| RObject (map : MapObject).

Inductive StoreKind := PromptStore | ContextStore.

Definition STORAGE_KEY : string := "prompts".
Definition CONTEXTS_STORAGE_KEY : string := "contexts".

Definition storageKey (k : StoreKind) : string :=
  match k with
  | PromptStore => STORAGE_KEY
  | ContextStore => CONTEXTS_STORAGE_KEY
  end.

(** ** Metrics *)

Record ConcurrencyMetrics := mkMetrics {
  totalOperations : Z;
  successfulOperations : Z;
  failedOperations : Z;
  averageLatency : Qc;
  queueDepth : Z;
  lastOperationTime : Z
}.

Definition zeroMetrics : ConcurrencyMetrics :=
  mkMetrics 0 0 0 (Q2Qc 0) 0 0.

Record ConcurrencyConfig := mkConfig {
  maxRetries : Z;
  baseDelayMs : Z;
  maxDelayMs : Z;
  enableMetrics : bool;
  logOperations : bool
}.

Definition DEFAULT_CONCURRENCY_CONFIG : ConcurrencyConfig :=
  mkConfig 3 10 1000 true false.

(** ** The world an operation runs in *)

Record World := mkWorld {
  storage : gmap string StoredValue;
    (* chrome.storage.local *)
  lastError : list (option string);
    (* chrome.runtime.lastError as the successive storage callbacks see it
       ([Some msg] is a failed call); an exhausted list means no failure *)
  clock : Z;
    (* Date.now() *)
  random : list string;
    (* successive values of Math.random().toString(36).slice(2, 8) *)
  timers : list Z;
    (* the delays handed to setTimeout, oldest first *)
  console : list string;
    (* lines written by console.warn and console.log *)
  serviceMetrics : ConcurrencyMetrics
    (* ConcurrencyService.metrics *)
}.

Definition set_storage (f : gmap string StoredValue -> gmap string StoredValue)
    (w : World) : World :=
  mkWorld (f (storage w)) (lastError w) (clock w) (random w) (timers w)
          (console w) (serviceMetrics w).

Definition set_lastError (l : list (option string)) (w : World) : World :=
  mkWorld (storage w) l (clock w) (random w) (timers w) (console w)
          (serviceMetrics w).

Definition set_clock (t : Z) (w : World) : World :=
  mkWorld (storage w) (lastError w) t (random w) (timers w) (console w)
          (serviceMetrics w).

Definition set_random (l : list string) (w : World) : World :=
  mkWorld (storage w) (lastError w) (clock w) l (timers w) (console w)
          (serviceMetrics w).

Definition set_timers (l : list Z) (w : World) : World :=
  mkWorld (storage w) (lastError w) (clock w) (random w) l (console w)
          (serviceMetrics w).

Definition set_console (l : list string) (w : World) : World :=
  mkWorld (storage w) (lastError w) (clock w) (random w) (timers w) l
          (serviceMetrics w).

Definition set_serviceMetrics (m : ConcurrencyMetrics) (w : World) : World :=
  mkWorld (storage w) (lastError w) (clock w) (random w) (timers w)
          (console w) m.

(** ** Asynchronous computations *)

(** A started computation: settled, or suspended on the code that runs when
    the event loop resumes it. *)
#[local] Unset Elimination Schemes.
Inductive Susp (A : Type) : Type :=
| Done (r : Result A)
| Pending (k : World -> World * Susp A).
#[local] Set Elimination Schemes.
Arguments Done {A} r.
Arguments Pending {A} k.

(** An [async] function (or a function returning a promise): calling it
    runs its synchronous prefix at once. *)
Definition Async (A : Type) : Type := World -> World * Susp A.

Fixpoint Susp_ind (A : Type) (P : Susp A -> Prop)
    (HDone : forall r, P (Done r))
    (HPending : forall k, (forall w, P (snd (k w))) -> P (Pending k))
    (s : Susp A) : P s :=
  match s with
  | Done r => HDone r
  | Pending k => HPending k (fun w => Susp_ind A P HDone HPending (snd (k w)))
  end.

Module AsyncOps.

Definition ret {A} (a : A) : Async A := fun w => (w, Done (Ok a)).

Definition throw {A} (e : Error) : Async A := fun w => (w, Done (Throw e)).

(** Continue a started computation with [f] once it settles. *)
Fixpoint andThen {A B} (s : Susp A) (f : Result A -> Async B) : Async B :=
  fun w =>
    match s with
    | Done r => f r w
    | Pending k =>
        (w, Pending (fun w1 => andThen (snd (k w1)) f (fst (k w1))))
    end.

Definition bind {A B} (m : Async A) (f : A -> Async B) : Async B :=
  fun w =>
    andThen (snd (m w))
            (fun r => match r with Ok a => f a | Throw e => throw e end)
            (fst (m w)).

(** [try { m } catch (e) { h e }] *)
Definition try_catch {A} (m : Async A) (h : Error -> Async A) : Async A :=
  fun w =>
    andThen (snd (m w))
            (fun r => match r with Ok a => ret a | Throw e => h e end)
            (fst (m w)).

(** A synchronous piece of code. *)
Definition act {A} (f : World -> World * A) : Async A :=
  fun w => (fst (f w), Done (Ok (snd (f w)))).

Definition gets {A} (f : World -> A) : Async A := fun w => (w, Done (Ok (f w))).

Definition modify (f : World -> World) : Async unit :=
  fun w => (f w, Done (Ok tt)).

(** Give control back to the event loop. *)
Definition yield : Async unit :=
  fun w => (w, Pending (fun w1 => (w1, Done (Ok tt)))).

(** [await m]: the continuation never runs in the same turn. *)
Definition await {A} (m : Async A) : Async A :=
  bind m (fun a => bind yield (fun _ => ret a)).

End AsyncOps.
Import AsyncOps.

Declare Scope async_scope.
Delimit Scope async_scope with async.
Notation "x <- m ;; k" := (bind m (fun x => k))
  (at level 100, m at next level, right associativity) : async_scope.
Notation "m ;;; k" := (bind m (fun _ => k))
  (at level 100, right associativity) : async_scope.
Open Scope async_scope.

(** Running a computation with nothing else interleaved: every suspension
    is resumed at once. *)
Fixpoint complete {A} (s : Susp A) (w : World) : World * Result A :=
  match s with
  | Done r => (w, r)
  | Pending k => complete (snd (k w)) (fst (k w))
  end.

Definition run {A} (m : Async A) (w : World) : World * Result A :=
  complete (snd (m w)) (fst (m w)).

(** ** The host environment *)

(** [Date.now()] *)
Definition Date_now : Async Z := gets clock.

(** [Math.random().toString(36).slice(2, 8)] *)
Definition Math_random_suffix : Async string :=
  act (fun w =>
         match random w with
         | [] => (w, "")
         | s :: rest => (set_random rest w, s)
         end).

Definition console_warn (line : string) : Async unit :=
  modify (fun w => set_console (console w ++ [line]) w).

Definition console_log (line : string) : Async unit :=
  modify (fun w => set_console (console w ++ [line]) w).

(** [new Promise(resolve => setTimeout(resolve, ms))]: the timer is
    registered at once; when it fires at least [ms] milliseconds have gone
    by. *)
Definition setTimeout_promise (ms : Z) : Async unit :=
  fun w =>
    (set_timers (timers w ++ [ms]) w,
     Pending (fun w1 => (set_clock (clock w1 + Z.max 0 ms) w1, Done (Ok tt)))).

(** What a [chrome.storage.local] callback finds: [chrome.runtime.lastError]
    and its [result] argument. *)
Record Callback (A : Type) := mkCallback {
  runtime_lastError : option Error;
  result : A
}.
Arguments mkCallback {A} _ _.
Arguments runtime_lastError {A} _.
Arguments result {A} _.

Definition take_lastError (w : World) : World * option Error :=
  match lastError w with
  | [] => (w, None)
  | e :: rest => (set_lastError rest w, mkError LastErrorObject <$> e)
  end.

(** [chrome.storage.local.get([key], callback)]: the callback runs in a
    later turn, with the value stored under [key] at that time. *)
Definition chrome_storage_local_get (key : string)
    : Async (Callback (option StoredValue)) :=
  fun w =>
    (w, Pending (fun w1 =>
           let w2 := fst (take_lastError w1) in
           match snd (take_lastError w1) with
           | Some e => (w2, Done (Ok (mkCallback (Some e) None)))
           | None => (w2, Done (Ok (mkCallback None (storage w2 !! key))))
           end)).

(** [chrome.storage.local.set({ [key]: v }, callback)]: a call that fails
    stores nothing. *)
Definition chrome_storage_local_set (key : string) (v : StoredValue)
    : Async (Callback unit) :=
  fun w =>
    (w, Pending (fun w1 =>
           let w2 := fst (take_lastError w1) in
           match snd (take_lastError w1) with
           | Some e => (w2, Done (Ok (mkCallback (Some e) tt)))
           | None =>
               (set_storage (insert key v) w2, Done (Ok (mkCallback None tt)))
           end)).

(** [n.toString(36)] for an integer [n]. *)
Definition digit36 (d : Z) : string :=
  String.substring (Z.to_nat d) 1 "0123456789abcdefghijklmnopqrstuvwxyz".

Fixpoint toString36_digits (fuel : nat) (n : Z) (acc : string) : string :=
  match fuel with
  | O => acc
  | S fuel' =>
      if n <? 36 then digit36 n +:+ acc
      else toString36_digits fuel' (n / 36) (digit36 (n mod 36) +:+ acc)
  end.

Definition toString36 (n : Z) : string :=
  if n <? 0 then "-" +:+ toString36_digits (S (Z.to_nat (Z.log2 (- n)))) (- n) ""
  else toString36_digits (S (Z.to_nat (Z.log2 n))) n "".

(** JavaScript truthiness of an optional number: [undefined] and [0] are
    falsy. *)
Definition truthy_number (o : option Z) : bool :=
  match o with
  | Some n => negb (n =? 0)
  | None => false
  end.

(** [a || b] where [a] is an optional number. *)
Definition or_number (a : option Z) (b : option Z) : option Z :=
  if truthy_number a then a else b.

(** [a || d] where [d] is a number. *)
Definition or_else (a : option Z) (d : Z) : Z :=
  match a with
  | Some n => if n =? 0 then d else n
  | None => d
  end.

(** ** core/storage-service.ts: ChromeStorageService *)

(** The prompt functions and the context functions of the class are the
    same code up to the storage key, the payload field and the words of
    their messages; each pair is one definition over a [StoreKind]. *)
Module ChromeStorageService.

(** [const makeId = () => Date.now().toString(36) + '-' +
    Math.random().toString(36).slice(2, 8)] *)
Definition makeId : Async string :=
  now <- Date_now ;;
  suffix <- Math_random_suffix ;;
  ret (toString36 now +:+ "-" +:+ suffix).

(** [const delay = (ms) => new Promise(res => setTimeout(res, ms))] *)
Definition delay (ms : Z) : Async unit := setTimeout_promise ms.

(** [x.id || makeId()] *)
Definition id_or_makeId (i : string) : Async string :=
  if truthy_string i then ret i else makeId.

Definition plural (k : StoreKind) : string :=
  match k with PromptStore => "prompts" | ContextStore => "contexts" end.

Definition singular (k : StoreKind) : string :=
  match k with PromptStore => "Prompt" | ContextStore => "Context" end.

(** The engine's message for a property read through [null]. *)
Definition null_read (property : string) : Error :=
  new_TypeError ("Cannot read properties of null (reading '" +:+ property +:+ "')").

(** [writePromptsMap(map, replace = false)], [writeContextsMap]; [map] is
    the own properties of the object handed over, which is all that the
    spread and [chrome.storage.local.set] take of it. *)
Definition writeMap (k : StoreKind) (map : gmap string Entity) (replace : bool)
    : Async unit :=
  if replace then
    (* Direct write for deletions *)
    cb <- chrome_storage_local_set (storageKey k) (VObject map) ;;
    match runtime_lastError cb with
    | Some e => throw e
    | None => ret tt
    end
  else
    (* Merge for saves/updates *)
    cb <- chrome_storage_local_get (storageKey k) ;;
    match runtime_lastError cb with
    | Some e => throw e
    | None =>
        let current : gmap string Entity :=
          match result cb with
          | Some (VObject m) => m
          | _ => ∅
          end in
        (* { ...current, ...map } *)
        let merged := map ∪ current in
        cb' <- chrome_storage_local_set (storageKey k) (VObject merged) ;;
        match runtime_lastError cb' with
        | Some e => throw e
        | None => ret tt
        end
    end.

(** The record a legacy array item becomes. *)
Definition migrated (k : StoreKind) (item : Entity) (i : string) (created : Z)
    : Entity :=
  match k with
  | PromptStore =>
      mkEntity i (name item) (template item) None (description item)
               (Some created) (Some (or_else (updatedAt item) created))
  | ContextStore =>
      mkEntity i (name item) None (text item) None
               (Some created) (Some (or_else (updatedAt item) created))
  end.

(** [for (const item of arr) { ... map[id] = ... }] *)
Fixpoint migrate (k : StoreKind) (arr : list Entity) (map : MapObject)
    : Async MapObject :=
  match arr with
  | [] => ret map
  | item :: rest =>
      i <- id_or_makeId (id item) ;;
      now <- Date_now ;;
      let created := or_else (createdAt item) now in
      migrate k rest (assign map i (migrated k item i created))
  end.

(** [readPromptsMap()], [readContextsMap()] *)
Definition readMap (k : StoreKind) : Async MapRef :=
  cb <- chrome_storage_local_get (storageKey k) ;;
  match runtime_lastError cb with
  | Some e => throw e
  | None =>
      match result cb with
      | None =>
          (* No key *)
          ret (RObject (plain ∅))
      | Some VNull =>
          (* typeof null === 'object' && !Array.isArray(null) *)
          ret RNull
      | Some (VObject m) =>
          (* Already a map/object *)
          ret (RObject (plain m))
      | Some (VArray arr) =>
          (* Legacy array migration *)
          map <- migrate k arr (plain ∅) ;;
          (* Persist migrated map *)
          try_catch (await (writeMap k (own map) false) ;;; ret (RObject map))
                    (fun err => throw err)
      | Some (VPrimitive _) =>
          (* Unexpected type *)
          console_warn ("ChromeStorageService: unexpected " +:+ plural k
                        +:+ " value, returning empty map.") ;;;
          ret (RObject (plain ∅))
      end
  end.

(** The list item [getPrompts] and [getContexts] build from a record. *)
Definition listed (k : StoreKind) (r : Entity) : Entity :=
  match k with
  | PromptStore =>
      mkEntity (id r) (name r) (template r) None
               (Some (default "" (description r))) None None
  | ContextStore =>
      mkEntity (id r) (name r) None (text r) None None None
  end.

(** [Object.values(map)] *)
Definition Object_values (map : gmap string Entity) : list Entity :=
  (map_to_list map).*2.

(** [map[a.id]?.createdAt ?? 0] *)
Definition createdAt_of (map : MapObject) (a : Entity) : Z :=
  default 0 (record_of (member map (id a)) ≫= createdAt).

Section Listing.

(** [String.prototype.localeCompare]: negative, zero or positive. *)
Variable localeCompare : string -> string -> Z.

(** The comparator handed to [arr.sort]. *)
Definition compareFn (map : MapObject) (a b : Entity) : Z :=
  let ra := createdAt_of map a in
  let rb := createdAt_of map b in
  if negb (ra =? rb) then ra - rb
  else localeCompare (id a) (id b).

(** [a] may stay in front of [b]. *)
Definition inOrder (map : MapObject) (a b : Entity) : Prop :=
  compareFn map a b <= 0.

#[global] Instance inOrder_dec map a b : Decision (inOrder map a b) :=
  decide (compareFn map a b <= 0).

(** [arr.sort(compareFn)] *)
Definition sort (map : MapObject) (arr : list Entity) : list Entity :=
  merge_sort (inOrder map) arr.

(** [getPrompts()], [getContexts()] *)
Definition getList (k : StoreKind) : Async (list Entity) :=
  ref <- await (readMap k) ;;
  match ref with
  | RNull => throw (new_TypeError "Cannot convert undefined or null to object")
  | RObject map => ret (sort map (listed k <$> Object_values (own map)))
  end.

End Listing.

(** [prev?.createdAt || input.createdAt || Date.now()] *)
Definition createdAt_for (prev : option Entity) (input : Entity) (now : Z) : Z :=
  or_else (or_number (prev ≫= createdAt) (createdAt input)) now.

(** [{ ...prev, ...input, id, createdAt, updatedAt: Date.now() }] *)
Definition spread (prev : option Entity) (input : Entity) (i : string)
    (created now : Z) : Entity :=
  let inherit (f : Entity -> option string) :=
    match f input with
    | Some v => Some v
    | None => prev ≫= f
    end in
  mkEntity i (name input) (inherit template) (inherit text)
           (inherit description) (Some created) (Some now).

(** How one pass through the body of a retry loop ends: [return], or
    [continue] with [lastErr] set. *)
Inductive Pass :=
| Return
| Continue (lastErr : Error).

(** [(lastErr && lastErr.message ? lastErr.message : String(lastErr))] *)
Definition describe (lastErr : option Error) : string :=
  match lastErr with
  | None => "null"
  | Some e => if truthy_string (message e) then message e else String_of_Error e
  end.

(** The statements shared by [savePrompt], [saveContext] and the operations
    of [savePromptAtomic], [saveContextAtomic], up to the read that
    verifies the write. *)
Definition save_steps (k : StoreKind) (input : Entity) (i : string)
    : Async Member :=
  ref <- await (readMap k) ;;
  match ref with
  | RNull => throw (null_read i)                       (* map[id] *)
  | RObject map =>
      let prev := record_of (member map i) in
      now <- Date_now ;;
      let created := createdAt_for prev input now in
      let map' := assign map i (spread prev input i created now) in
      await (writeMap k (own map') false) ;;;
      after <- await (readMap k) ;;
      match after with
      | RNull => throw (null_read i)                   (* after[id] *)
      | RObject m => ret (member m i)
      end
  end.

(** The body of the [for] loop of [savePrompt] and [saveContext]. *)
Definition save_pass (k : StoreKind) (input : Entity) (i : string) : Async Pass :=
  try_catch
    (found <- save_steps k input i ;;
     if negb (truthy_member found) then
       await (delay 20) ;;;
       ret (Continue (new_Error "write did not persist entry, retrying"))
     else ret Return)
    (fun err => await (delay 20) ;;; ret (Continue err)).

Fixpoint save_loop (k : StoreKind) (input : Entity) (i : string)
    (attempts : nat) (lastErr : option Error) : Async unit :=
  match attempts with
  | O =>
      throw (new_Error ("save" +:+ singular k +:+ " failed after retries: "
                        +:+ describe lastErr))
  | S attempts' =>
      pass <- save_pass k input i ;;
      match pass with
      | Return => ret tt
      | Continue e => save_loop k input i attempts' (Some e)
      end
  end.

(** [savePrompt(prompt)], [saveContext(context)] *)
Definition saveRecord (k : StoreKind) (input : Entity) : Async unit :=
  i <- id_or_makeId (id input) ;;
  save_loop k input i 3 None.

(** [map.hasOwnProperty(id)]: the method is read from the object itself,
    where a record kept under the key [hasOwnProperty] hides the method of
    [Object.prototype] and cannot be called. *)
Definition hasOwnProperty (map : MapObject) (i : string) : Async bool :=
  match own map !! "hasOwnProperty" with
  | Some _ => throw (new_TypeError "map.hasOwnProperty is not a function")
  | None => ret (bool_decide (is_Some (own map !! i)))
  end.

(** The body of the [for] loop of [deletePrompt] and [deleteContext]. *)
Definition delete_pass (k : StoreKind) (i : string) : Async Pass :=
  try_catch
    (ref <- await (readMap k) ;;
     match ref with
     | RNull => throw (null_read "hasOwnProperty")
     | RObject map =>
         (* if (map.hasOwnProperty(id)) delete map[id]; *)
         has <- hasOwnProperty map i ;;
         let map' := if has : bool then remove map i else map in
         await (writeMap k (own map') false) ;;;
         (* Verify deletion *)
         after <- await (readMap k) ;;
         match after with
         | RNull => throw (null_read i)
         | RObject m =>
             if truthy_member (member m i) then
               await (delay 20) ;;;
               ret (Continue (new_Error "delete did not persist, retrying"))
             else ret Return
         end
     end)
    (fun err => await (delay 20) ;;; ret (Continue err)).

Fixpoint delete_loop (k : StoreKind) (i : string) (attempts : nat)
    (lastErr : option Error) : Async unit :=
  match attempts with
  | O =>
      throw (new_Error ("delete" +:+ singular k +:+ " failed after retries: "
                        +:+ describe lastErr))
  | S attempts' =>
      pass <- delete_pass k i ;;
      match pass with
      | Return => ret tt
      | Continue e => delete_loop k i attempts' (Some e)
      end
  end.

(** [deletePrompt(id)], [deleteContext(id)] *)
Definition deleteRecord (k : StoreKind) (i : string) : Async unit :=
  delete_loop k i 3 None.

(** The operation [savePromptAtomic] and [saveContextAtomic] hand to
    [executeAtomicWithRetry]. *)
Definition saveAtomic_operation (k : StoreKind) (input : Entity) : Async unit :=
  i <- id_or_makeId (id input) ;;
  found <- save_steps k input i ;;
  if negb (truthy_member found) then
    throw (new_Error "Atomic write verification failed")
  else ret tt.

(** The operation [deletePromptAtomic] and [deleteContextAtomic] hand to
    [executeAtomicWithRetry]. *)
Definition deleteAtomic_operation (k : StoreKind) (i : string) : Async unit :=
  ref <- await (readMap k) ;;
  match ref with
  | RNull => throw (null_read "hasOwnProperty")
  | RObject map =>
      has <- hasOwnProperty map i ;;
      if has : bool then
        let map' := remove map i in
        (* Use replace=true to write complete map without merging *)
        await (writeMap k (own map') true) ;;;
        (* Verify deletion *)
        after <- await (readMap k) ;;
        match after with
        | RNull => throw (null_read i)
        | RObject m =>
            if truthy_member (member m i) then
              throw (new_Error "Atomic delete verification failed")
            else ret tt
        end
      else ret tt
  end.

Definition readPromptsMap := readMap PromptStore.
Definition readContextsMap := readMap ContextStore.
Definition writePromptsMap := writeMap PromptStore.
Definition writeContextsMap := writeMap ContextStore.
Definition getPrompts localeCompare := getList localeCompare PromptStore.
Definition getContexts localeCompare := getList localeCompare ContextStore.
Definition savePrompt := saveRecord PromptStore.
Definition saveContext := saveRecord ContextStore.
Definition deletePrompt := deleteRecord PromptStore.
Definition deleteContext := deleteRecord ContextStore.

End ChromeStorageService.

(** ** core/storage-service.ts: MockStorageService *)

(** The class that "mirrors the map-first behavior in memory".  Its prompt
    methods and its context methods are again the same code up to the map
    they work on.  None of its [async] methods awaits anything: a call runs
    to its end at once, and what it does to the fields of [this] is the
    object it resolves with. *)
Module MockStorageService.

Import ChromeStorageService.

Record MockStorageService := mkMock {
  map : MapObject;
  contextMap : MapObject
}.

(** The initialisers of the two fields, evaluated at time [now]. *)
Definition initial_map (now : Z) : gmap string Entity :=
  <["1" := mkEntity "1" "first-principles"
             (Some "Apply first principles to {{topic}}") None
             (Some "Deconstruct a problem.")
             (Some (now - 20000)) (Some (now - 20000))]>
  (<["2" := mkEntity "2" "systems-thinking"
              (Some "Apply systems thinking to {{system}}") None
              (Some "Analyze the whole system.")
              (Some (now - 10000)) (Some (now - 10000))]> ∅).

Definition initial_contextMap (now : Z) : gmap string Entity :=
  <["c1" := mkEntity "c1" "React Best Practices" None
              (Some "Use functional components with hooks instead of class components.")
              None (Some (now - 30000)) (Some (now - 30000))]>
  (<["c2" := mkEntity "c2" "API Design" None
               (Some "Design RESTful APIs with clear resource naming and proper HTTP status codes.")
               None (Some (now - 25000)) (Some (now - 25000))]> ∅).

(** [new MockStorageService(initial)] *)
Definition new (initial : option (gmap string Entity)) (w : World)
    : MockStorageService :=
  let now := clock w in
  mkMock (plain (match initial with
                 | Some given => given            (* { ...initial } *)
                 | None => initial_map now
                 end))
         (plain (initial_contextMap now)).

(** [this.map] for the prompt methods, [this.contextMap] for the context
    methods. *)
Definition objectOf (k : StoreKind) (this : MockStorageService) : MapObject :=
  match k with
  | PromptStore => map this
  | ContextStore => contextMap this
  end.

Definition set_objectOf (k : StoreKind) (m : MapObject)
    (this : MockStorageService) : MockStorageService :=
  match k with
  | PromptStore => mkMock m (contextMap this)
  | ContextStore => mkMock (map this) m
  end.

(** The records that the object holds. *)
Definition mapOf (k : StoreKind) (this : MockStorageService)
    : gmap string Entity :=
  own (objectOf k this).

Section Listing.

Variable localeCompare : string -> string -> Z.

(** [mapToArray()], [contextMapToArray()] *)
Definition mapToArray (k : StoreKind) (this : MockStorageService)
    : list Entity :=
  sort localeCompare (objectOf k this)
       (listed k <$> Object_values (own (objectOf k this))).

(** [getPrompts()], [getContexts()] *)
Definition getList (k : StoreKind) (this : MockStorageService)
    : Async (list Entity) :=
  ret (mapToArray k this).

End Listing.

(** [savePrompt(prompt)], [saveContext(context)]; as in the service, the
    calls of [Date.now()] of one turn read the same clock. *)
Definition saveRecord (k : StoreKind) (input : Entity)
    (this : MockStorageService) : Async MockStorageService :=
  i <- id_or_makeId (id input) ;;
  let prev := record_of (member (objectOf k this) i) in
  now <- Date_now ;;
  let created := createdAt_for prev input now in
  ret (set_objectOf k
         (assign (objectOf k this) i (spread prev input i created now)) this).

(** [deletePrompt(id)], [deleteContext(id)] *)
Definition deleteRecord (k : StoreKind) (i : string)
    (this : MockStorageService) : Async MockStorageService :=
  ret (set_objectOf k (remove (objectOf k this) i) this).

(** Atomic operations (same as regular operations for mock) *)
Definition saveAtomic := saveRecord.
Definition deleteAtomic := deleteRecord.

Definition getPrompts localeCompare := getList localeCompare PromptStore.
Definition getContexts localeCompare := getList localeCompare ContextStore.
Definition savePrompt := saveRecord PromptStore.
Definition saveContext := saveRecord ContextStore.
Definition deletePrompt := deleteRecord PromptStore.
Definition deleteContext := deleteRecord ContextStore.
Definition savePromptAtomic := saveAtomic PromptStore.
Definition saveContextAtomic := saveAtomic ContextStore.
Definition deletePromptAtomic := deleteAtomic PromptStore.
Definition deleteContextAtomic := deleteAtomic ContextStore.

End MockStorageService.

(** ** core/concurrency-service.ts *)

(** [calculateBackoffDelay(attempt, baseDelay, maxDelay)], for the attempt
    numbers the retry loop passes ([attempt >= 1]) and integers.  The
    doubles of the code agree with the integers here: a product with a
    power of two is exact, and one that is too large is [Infinity], of
    which [Math.min] makes [maxDelay] as [Z.min] does of the large
    integer.  The exception is [baseDelay = 0] from attempt 1025 on, where
    the code computes [0 * Infinity], which is [NaN]. *)
Definition calculateBackoffDelay (attempt baseDelay maxDelay : Z) : Z :=
  let delay := baseDelay * 2 ^ (attempt - 1) in
  Z.min delay maxDelay.

(** [generateOperationId()] *)
Definition generateOperationId (w : World) : World * string :=
  match random w with
  | [] => (w, "op_" +:+ pretty (clock w) +:+ "_")
  | suffix :: rest =>
      (set_random rest w, "op_" +:+ pretty (clock w) +:+ "_" +:+ suffix)
  end.

Definition Qc_of_Z (n : Z) : Qc := Q2Qc (inject_Z n).

(** [recordOperation(success, latency)], the code both classes share; [now]
    is [Date.now()]. *)
Definition recordOperation (success : bool) (latency now : Z)
    (m : ConcurrencyMetrics) : ConcurrencyMetrics :=
  let total := totalOperations m + 1 in
  mkMetrics
    total
    (if success then successfulOperations m + 1 else successfulOperations m)
    (if success then failedOperations m else failedOperations m + 1)
    (if total =? 1 then Qc_of_Z latency
     else
       let totalLatency :=
         (averageLatency m * Qc_of_Z (total - 1) + Qc_of_Z latency)%Qc in
       (totalLatency / Qc_of_Z total)%Qc)
    (queueDepth m)
    now.

Definition set_queueDepth (d : Z) (m : ConcurrencyMetrics) : ConcurrencyMetrics :=
  mkMetrics (totalOperations m) (successfulOperations m) (failedOperations m)
            (averageLatency m) d (lastOperationTime m).

(** *** WriteQueueService and the event loop around it *)

Section WriteQueue.

(** The result type of the queued operations. *)
Context {T : Type}.

(** [QueuedOperation].  In the source the field [operation] is the wrapper
    closure built by [enqueue]; here it is the caller's operation, and what
    the wrapper does once that operation has settled is [wrapper_settled]. *)
Record QueuedOperation := mkQueuedOperation {
  operationId : string;
  operation : Async T;
  timestamp : Z;
  retryCount : Z
}.

Record WriteQueueService := mkQueue {
  queue : list QueuedOperation;
  processing : bool;
  metrics : ConcurrencyMetrics
}.

(** What an observer of the queue can see happen. *)
Inductive Event :=
| Enqueued (operationId : string)
| Started (operationId : string)
| Ran (operationId : string)
| Settled (operationId : string) (success : bool).

(** The queue, the world, and the part of the JavaScript event loop that
    concerns the queue. *)
Record EventLoop := mkLoop {
  writeQueue : WriteQueueService;
  world : World;
  running : list (QueuedOperation * Susp T);
    (* the operations that have been called and whose wrapper has not
       finished, each with what is left of it *)
  resumable : bool;
    (* the promise the worker loop awaits has settled and the loop has not
       gone on yet *)
  outcomes : list (string * Result T);
    (* how the promises returned by enqueue settled, oldest first *)
  trace : list Event
}.

Definition set_writeQueue (q : WriteQueueService) (el : EventLoop) : EventLoop :=
  mkLoop q (world el) (running el) (resumable el) (outcomes el) (trace el).

Definition set_world (w : World) (el : EventLoop) : EventLoop :=
  mkLoop (writeQueue el) w (running el) (resumable el) (outcomes el) (trace el).

Definition set_running (r : list (QueuedOperation * Susp T)) (el : EventLoop)
    : EventLoop :=
  mkLoop (writeQueue el) (world el) r (resumable el) (outcomes el) (trace el).

Definition set_resumable (b : bool) (el : EventLoop) : EventLoop :=
  mkLoop (writeQueue el) (world el) (running el) b (outcomes el) (trace el).

(** [updateQueueDepth()] *)
Definition updateQueueDepth (q : WriteQueueService) : WriteQueueService :=
  mkQueue (queue q) (processing q)
          (set_queueDepth (Z.of_nat (length (queue q))) (metrics q)).

(** [getQueueDepth()] *)
Definition getQueueDepth (q : WriteQueueService) : Z :=
  Z.of_nat (length (queue q)).

(** [clear()] *)
Definition clear (q : WriteQueueService) : WriteQueueService :=
  updateQueueDepth (mkQueue [] (processing q) (metrics q)).

(** [WriteQueueService.getMetrics()] *)
Definition queue_getMetrics (q : WriteQueueService) : ConcurrencyMetrics :=
  metrics q.

(** [WriteQueueService.resetMetrics()] *)
Definition queue_resetMetrics (q : WriteQueueService) : WriteQueueService :=
  mkQueue (queue q) (processing q)
          (mkMetrics 0 0 0 (Qc_of_Z 0) (Z.of_nat (length (queue q))) 0).

(** The [while] loop of [processQueue], from its test up to the [await]:
    either the queue is empty and the loop ends ([finally] clears
    [processing]), or the head is shifted and called. *)
Definition processQueue_loop (el : EventLoop) : EventLoop :=
  let q := writeQueue el in
  match queue q with
  | [] =>
      mkLoop (mkQueue [] false (metrics q)) (world el) (running el)
             (resumable el) (outcomes el) (trace el)
  | op :: rest =>
      let q' := updateQueueDepth (mkQueue rest (processing q) (metrics q)) in
      let called := operation op (world el) in
      mkLoop q' (fst called) (running el ++ [(op, snd called)])
             (resumable el) (outcomes el)
             (trace el ++ [Started (operationId op)])
  end.

(** [processQueue()], as far as it runs synchronously. *)
Definition processQueue (el : EventLoop) : EventLoop :=
  let q := writeQueue el in
  if processing q || (length (queue q) =? 0)%nat then el
  else
    processQueue_loop
      (mkLoop (mkQueue (queue q) true (metrics q)) (world el) (running el)
              (resumable el) (outcomes el) (trace el)).

(** [enqueue(operation)], as far as it runs synchronously. *)
Definition enqueue (op : Async T) (el : EventLoop) : EventLoop :=
  let generated := generateOperationId (world el) in
  let operationId := snd generated in
  let startTime := clock (fst generated) in
  let queuedOp := mkQueuedOperation operationId op startTime 0 in
  let q := writeQueue el in
  let pushed := mkQueue (queue q ++ [queuedOp]) (processing q) (metrics q) in
  processQueue
    (mkLoop (updateQueueDepth pushed) (fst generated) (running el)
            (resumable el) (outcomes el) (trace el ++ [Enqueued operationId])).

(** What the wrapper does after the operation it awaited has settled with
    [r]: record the outcome, settle the promise that [enqueue] returned,
    and settle its own promise, which the worker loop awaits. *)
Definition wrapper_settled (op : QueuedOperation) (r : Result T)
    (el : EventLoop) : EventLoop :=
  let q := writeQueue el in
  let now := clock (world el) in
  let m := recordOperation (succeeded r) (now - timestamp op) now (metrics q) in
  mkLoop (mkQueue (queue q) (processing q) m) (world el) (running el) true
         (outcomes el ++ [(operationId op, r)])
         (trace el ++ [Settled (operationId op) (succeeded r)]).

(** What can happen next. *)
Inductive Step :=
| CallEnqueue (op : Async T)   (* some caller calls enqueue(op) *)
| Resume (i : nat)             (* the i-th running operation is resumed *)
| WorkerResume                 (* the worker loop goes on after its await *)
| Elapse (d : Z).              (* time passes *)

Definition step (s : Step) (el : EventLoop) : EventLoop :=
  match s with
  | CallEnqueue op => enqueue op el
  | Resume i =>
      match running el !! i with
      | None => el
      | Some (op, Done r) =>
          wrapper_settled op r (set_running (delete i (running el)) el)
      | Some (op, Pending k) =>
          let next := k (world el) in
          mkLoop (writeQueue el) (fst next)
                 (<[i := (op, snd next)]> (running el))
                 (resumable el) (outcomes el)
                 (trace el ++ [Ran (operationId op)])
      end
  | WorkerResume =>
      if resumable el then processQueue_loop (set_resumable false el) else el
  | Elapse d =>
      set_world (set_clock (clock (world el) + Z.max 0 d) (world el)) el
  end.

Definition steps (schedule : list Step) (el : EventLoop) : EventLoop :=
  foldl (fun el s => step s el) el schedule.

(** A queue on which nothing has been called yet. *)
Definition fresh (w : World) : EventLoop :=
  mkLoop (mkQueue [] false zeroMetrics) w [] false [] [].

(** *** Running the loop until it is quiet *)

(** Resume the first running operation until its wrapper has finished. *)
Fixpoint resume_to_settlement (s : Susp T) (el : EventLoop) : EventLoop :=
  match s with
  | Done _ => step (Resume 0) el
  | Pending k => resume_to_settlement (snd (k (world el))) (step (Resume 0) el)
  end.

Definition settle_running (el : EventLoop) : EventLoop :=
  match running el with
  | (_, s) :: _ => resume_to_settlement s el
  | [] => el
  end.

Fixpoint rounds (n : nat) (el : EventLoop) : EventLoop :=
  match n with
  | O => el
  | S n' => rounds n' (step WorkerResume (settle_running el))
  end.

(** Let the worker finish everything that is running or queued, with no
    further caller.  Each round settles one operation. *)
Definition quiesce (el : EventLoop) : EventLoop :=
  rounds (S (length (running el) + length (queue (writeQueue el)))) el.

(** [await this.writeQueue.enqueue(op)] from a caller with nothing else
    going on: the loop runs until it is quiet; the caller's operation was
    the last one enqueued, so its outcome is the last one recorded. *)
Definition await_enqueue (op : Async T) (el : EventLoop)
    : EventLoop * option (Result T) :=
  let el' := quiesce (enqueue op el) in
  (el', snd <$> last (outcomes el')).

End WriteQueue.

Arguments QueuedOperation : clear implicits.
Arguments WriteQueueService : clear implicits.
Arguments EventLoop : clear implicits.
Arguments Step : clear implicits.

(** *** ConcurrencyService *)

Module ConcurrencyService.

Section Service.

Context {T : Type}.

(** [this.config] *)
Variable config : ConcurrencyConfig.

(** [ConcurrencyService.recordOperation(success, latency)] *)
Definition service_recordOperation (success : bool) (latency : Z) (w : World)
    : World :=
  if negb (enableMetrics config) then w
  else set_serviceMetrics
         (recordOperation success latency (clock w) (serviceMetrics w)) w.

(** [try { Ok (await m) } catch (error) { Throw error }] *)
Definition attempt {A} (m : Async A) : Async (Result A) :=
  try_catch (a <- await m ;; ret (Ok a)) (fun error => ret (Throw error)).

(** [lastError?.message || 'Unknown error'] *)
Definition cause (lastError : option Error) : string :=
  match lastError with
  | Some e => if truthy_string (message e) then message e else "Unknown error"
  | None => "Unknown error"
  end.

(** The [for] loop of [executeWithRetry] and what follows it; [remaining]
    is the number of passes still to make, [attempt] the loop variable. *)
Fixpoint retry_loop (op : Async T) (maxRetries startTime : Z)
    (remaining : nat) (attempt_no : Z) (lastError : option Error) : Async T :=
  match remaining with
  | O =>
      now <- Date_now ;;
      modify (service_recordOperation false (now - startTime)) ;;;
      throw (new_Error ("Operation failed after " +:+ pretty maxRetries
                        +:+ " attempts: " +:+ cause lastError))
  | S remaining' =>
      r <- attempt op ;;
      match r with
      | Ok result =>
          now <- Date_now ;;
          modify (service_recordOperation true (now - startTime)) ;;;
          ret result
      | Throw error =>
          (if logOperations config then
             console_log ("ConcurrencyService: Operation failed (attempt "
                          +:+ pretty attempt_no +:+ "/" +:+ pretty maxRetries
                          +:+ "): " +:+ String_of_Error error)
           else ret tt) ;;;
          (if attempt_no <? maxRetries then
             let delay :=
               calculateBackoffDelay attempt_no (baseDelayMs config)
                                     (maxDelayMs config) in
             await (setTimeout_promise delay)
           else ret tt) ;;;
          retry_loop op maxRetries startTime remaining' (attempt_no + 1)
                     (Some error)
      end
  end.

(** [executeWithRetry(operation, maxRetries)] *)
Definition executeWithRetry (op : Async T) (maxRetries : Z) : Async T :=
  startTime <- Date_now ;;
  retry_loop op maxRetries startTime (Z.to_nat maxRetries) 1 None.

(** [executeAtomic(operation)], seen from a caller with nothing else going
    on. *)
Definition executeAtomic (op : Async T) (el : EventLoop T)
    : EventLoop T * option (Result T) :=
  let startTime := clock (world el) in
  let awaited := await_enqueue op el in
  let el' := fst awaited in
  match snd awaited with
  | Some r =>
      (set_world
         (service_recordOperation (succeeded r)
                                  (clock (world el') - startTime) (world el'))
         el',
       Some r)
  | None => (el', None)
  end.

(** [executeAtomicWithRetry(operation, maxRetries)] *)
Definition executeAtomicWithRetry (op : Async T) (maxRetries : Z)
    (el : EventLoop T) : EventLoop T * option (Result T) :=
  executeAtomic (executeWithRetry op maxRetries) el.

(** [calculateCombinedAverageLatency(metrics1, metrics2)] *)
Definition calculateCombinedAverageLatency (metrics1 metrics2 : ConcurrencyMetrics)
    : Qc :=
  let totalOps := totalOperations metrics1 + totalOperations metrics2 in
  if totalOps =? 0 then Qc_of_Z 0
  else
    let totalLatency :=
      (averageLatency metrics1 * Qc_of_Z (totalOperations metrics1)
       + averageLatency metrics2 * Qc_of_Z (totalOperations metrics2))%Qc in
    (totalLatency / Qc_of_Z totalOps)%Qc.

(** [getMetrics()], with a [WriteQueueService] as the queue. *)
Definition getMetrics (el : EventLoop T) : ConcurrencyMetrics :=
  let own := serviceMetrics (world el) in
  let queueMetrics := queue_getMetrics (writeQueue el) in
  mkMetrics
    (totalOperations own + totalOperations queueMetrics)
    (successfulOperations own + successfulOperations queueMetrics)
    (failedOperations own + failedOperations queueMetrics)
    (calculateCombinedAverageLatency own queueMetrics)
    (queueDepth queueMetrics)
    (Z.max (lastOperationTime own) (lastOperationTime queueMetrics)).

(** [resetMetrics()] *)
Definition resetMetrics (el : EventLoop T) : EventLoop T :=
  set_world (set_serviceMetrics (mkMetrics 0 0 0 (Qc_of_Z 0) 0 0) (world el))
            (set_writeQueue (queue_resetMetrics (writeQueue el)) el).

End Service.

End ConcurrencyService.

(** ** The atomic half of the storage facade *)

Module Facade.

Import ChromeStorageService ConcurrencyService.

(** A [ChromeStorageService]: its optional [concurrencyService], which is
    known by its configuration. *)
Record ChromeStorageService := mkService {
  concurrencyService : option ConcurrencyConfig
}.

(** A call of an [async] method by a caller with nothing else going on. *)
Definition call {A} (m : Async A) (el : EventLoop unit)
    : EventLoop unit * option (Result A) :=
  let done := run m (world el) in
  (set_world (fst done) el, Some (snd done)).

(** [savePromptAtomic(prompt)], [saveContextAtomic(context)] *)
Definition saveAtomic (this : ChromeStorageService) (k : StoreKind)
    (input : Entity) (el : EventLoop unit)
    : EventLoop unit * option (Result unit) :=
  match concurrencyService this with
  | Some config =>
      executeAtomicWithRetry config (saveAtomic_operation k input)
                             (maxRetries config) el
  | None =>
      (* Fallback to the regular save if no concurrency service *)
      call (saveRecord k input) el
  end.

(** [deletePromptAtomic(id)], [deleteContextAtomic(id)] *)
Definition deleteAtomic (this : ChromeStorageService) (k : StoreKind)
    (i : string) (el : EventLoop unit)
    : EventLoop unit * option (Result unit) :=
  match concurrencyService this with
  | Some config =>
      executeAtomicWithRetry config (deleteAtomic_operation k i)
                             (maxRetries config) el
  | None =>
      (* Fallback to the regular delete if no concurrency service *)
      call (deleteRecord k i) el
  end.

Definition savePromptAtomic this := saveAtomic this PromptStore.
Definition saveContextAtomic this := saveAtomic this ContextStore.
Definition deletePromptAtomic this := deleteAtomic this PromptStore.
Definition deleteContextAtomic this := deleteAtomic this ContextStore.

(** [getConcurrencyMetrics()] *)
Definition getConcurrencyMetrics (this : ChromeStorageService)
    (el : EventLoop unit) : ConcurrencyMetrics :=
  match concurrencyService this with
  | Some config => getMetrics el
  | None => mkMetrics 0 0 0 (Qc_of_Z 0) 0 0
  end.

End Facade.

(** Proofs unfold these by name. *)
Arguments bind : simpl never.
Arguments try_catch : simpl never.
Arguments await : simpl never.
Arguments run : simpl never.
Arguments chrome_storage_local_get : simpl never.
Arguments chrome_storage_local_set : simpl never.
Arguments setTimeout_promise : simpl never.
Arguments ChromeStorageService.writeMap : simpl never.
Arguments ChromeStorageService.readMap : simpl never.
Arguments ChromeStorageService.save_steps : simpl never.
Arguments ChromeStorageService.save_pass : simpl never.
Arguments ChromeStorageService.delete_pass : simpl never.
Arguments ChromeStorageService.delay : simpl never.
Arguments ConcurrencyService.attempt : simpl never.
Arguments generateOperationId : simpl never.
Arguments toString36 : simpl never.

(** ** Vocabulary of the statements *)

(** The number of times a started computation is resumed before it
    settles, when nothing else runs in between. *)
Fixpoint suspensions {A} (s : Susp A) (w : World) : nat :=
  match s with
  | Done _ => O
  | Pending k => S (suspensions (snd (k w)) (fst (k w)))
  end.

(** The map persisted under the key of [k], when the stored value has the
    canonical form: an object, or nothing yet. *)
Definition persisted (k : StoreKind) (w : World) : option (gmap string Entity) :=
  match storage w !! storageKey k with
  | None => Some ∅
  | Some (VObject m) => Some m
  | Some _ => None
  end.

(** The world after a timer of [ms] milliseconds was set and has fired. *)
Definition sleep (ms : Z) (w : World) : World :=
  set_clock (clock w + Z.max 0 ms) (set_timers (timers w ++ [ms]) w).

(** The world after the canonical map [m] was written under the key of [k]. *)
Definition store (k : StoreKind) (m : gmap string Entity) (w : World) : World :=
  set_storage (insert (storageKey k) (VObject m)) w.

(** The own properties of a plain object with the properties [m] after
    the assignment [map[i] = r]. *)
Definition assigned (m : gmap string Entity) (i : string) (r : Entity)
    : gmap string Entity :=
  own (assign (plain m) i r).

(** The string has a hyphen (the character 45) in it. *)
Fixpoint hyphenated (s : string) : bool :=
  match s with
  | EmptyString => false
  | String c rest =>
      if Ascii.eqb c (Ascii.ascii_of_nat 45) then true else hyphenated rest
  end.

(** The record a save of [input] under the id [i] puts into the map [m] at
    time [now]. *)
Definition saved (m : gmap string Entity) (input : Entity) (i : string)
    (now : Z) : Entity :=
  ChromeStorageService.spread (m !! i) input i
    (ChromeStorageService.createdAt_for (m !! i) input now) now.

(** The record [r'] has the [createdAt] that a save of [input] at time
    [now] owes to the stored record [r]: that of [r] unless it is missing
    or 0, then that of [input] unless it is missing or 0, then [now]. *)
Definition carries_createdAt (r input : Entity) (now : Z) (r' : Entity)
    : Prop :=
  (forall c, createdAt r = Some c -> c <> 0 -> createdAt r' = Some c)
  /\ (createdAt r = None \/ createdAt r = Some 0 ->
      (forall c, createdAt input = Some c -> c <> 0 -> createdAt r' = Some c)
      /\ (createdAt input = None \/ createdAt input = Some 0 ->
          createdAt r' = Some now)).

(** No storage call fails from here on. *)
Definition reliable (w : World) : Prop := lastError w = [].

(** *** The course of a retry loop *)

Section RetryCourse.

Context {T : Type}.
Variable config : ConcurrencyConfig.
Variable op : Async T.
Variable maxRetries : Z.

(** What the [catch] block of [executeWithRetry] leaves behind after the
    attempt numbered [attempt_no] failed with [error]: the log line, if
    logging is on, and the backoff, if another attempt follows. *)
Definition after_failure (attempt_no : Z) (error : Error) (w : World) : World :=
  let logged :=
    if logOperations config then
      set_console
        (console w ++
           ["ConcurrencyService: Operation failed (attempt "
            +:+ pretty attempt_no +:+ "/" +:+ pretty maxRetries
            +:+ "): " +:+ String_of_Error error]) w
    else w in
  if attempt_no <? maxRetries then
    sleep (calculateBackoffDelay attempt_no (baseDelayMs config)
                                 (maxDelayMs config)) logged
  else logged.

(** The world in which attempt number [j + 1] starts, when the [j]
    attempts before it have failed. *)
Fixpoint before_attempt (j : nat) (w : World) : World :=
  match j with
  | O => w
  | S j' =>
      let tried := run op (before_attempt j' w) in
      match snd tried with
      | Throw error => after_failure (Z.of_nat j) error (fst tried)
      | Ok _ => fst tried
      end
  end.

(** Attempt number [j + 1], run alone. *)
Definition nth_attempt (j : nat) (w : World) : World * Result T :=
  run op (before_attempt j w).

End RetryCourse.

(** *** What the trace of an event loop says *)

Section TraceVocabulary.

Context {T : Type}.

Definition enqueued_ids (tr : list (@Event)) : list string :=
  omap (fun e => match e with Enqueued i => Some i | _ => None end) tr.

Definition started_ids (tr : list (@Event)) : list string :=
  omap (fun e => match e with Started i => Some i | _ => None end) tr.

Definition settled_ids (tr : list (@Event)) : list string :=
  omap (fun e => match e with Settled i _ => Some i | _ => None end) tr.

(** Reading a trace from the left while keeping track of the operation
    that is executing: [Some None] when none is, [Some (Some i)] between
    [Started i] and [Settled i], and [None] as soon as an event shows two
    operations executing at once, or one that runs without having been
    started. *)
Definition serial_step (st : option (option string)) (e : Event)
    : option (option string) :=
  match st, e with
  | None, _ => None
  | Some cur, Enqueued _ => Some cur
  | Some None, Started i => Some (Some i)
  | Some (Some _), Started _ => None
  | Some (Some i), Ran j => if decide (i = j) then Some (Some i) else None
  | Some None, Ran _ => None
  | Some (Some i), Settled j _ => if decide (i = j) then Some None else None
  | Some None, Settled _ _ => None
  end.

Definition serial_state (tr : list Event) : option (option string) :=
  foldl serial_step (Some None) tr.

(** The operations of the trace executed strictly one after the other. *)
Definition exclusive (tr : list Event) : Prop :=
  is_Some (serial_state tr).

(** The worker is not running and nothing is queued. *)
Definition idle (el : EventLoop T) : Prop :=
  processing (writeQueue el) = false /\ queue (writeQueue el) = []
  /\ running el = [] /\ resumable el = false.

(** The three situations the worker can be in. *)
Inductive Phase (el : EventLoop T) : Prop :=
| Phase_idle :
    idle el -> Phase el
| Phase_awaiting op s :
    processing (writeQueue el) = true -> running el = [(op, s)] ->
    resumable el = false -> Phase el
| Phase_ready :
    processing (writeQueue el) = true -> running el = [] ->
    resumable el = true -> Phase el.

Record Invariant (el : EventLoop T) : Prop := mkInvariant {
  inv_phase : Phase el;
  inv_fifo :
    enqueued_ids (trace el)
    = (started_ids (trace el) ++ (operationId <$> queue (writeQueue el)))%list;
  inv_started :
    started_ids (trace el)
    = (settled_ids (trace el)
       ++ ((fun x => operationId (fst x)) <$> running el))%list;
  inv_serial :
    serial_state (trace el)
    = Some ((fun x => operationId (fst x)) <$> head (running el));
  inv_outcomes :
    (fst <$> outcomes el) = settled_ids (trace el)
}.

(** The steps that no new caller takes part in. *)
Definition internal (s : Step T) : Prop :=
  match s with
  | CallEnqueue _ => False
  | _ => True
  end.

(** What is left for the worker to do, in rounds of [rounds]. *)
Definition todo (el : EventLoop T) : nat :=
  (length (running el) + length (queue (writeQueue el))
   + (if resumable el then 1 else 0))%nat.

End TraceVocabulary.

Section AloneVocabulary.

Context {T : Type}.

(** The loop after [await enqueue(op)] on an idle queue. *)
Definition enqueued_alone (op : Async T) (el : EventLoop T) : EventLoop T :=
  let generated := generateOperationId (world el) in
  let i := snd generated in
  let done := run op (fst generated) in
  mkLoop
    (mkQueue [] false
       (recordOperation (succeeded (snd done))
          (clock (fst done) - clock (fst generated)) (clock (fst done))
          (set_queueDepth 0 (set_queueDepth 1 (metrics (writeQueue el))))))
    (fst done) [] false
    (outcomes el ++ [(i, snd done)])
    (trace el
     ++ [Enqueued i; Started i]
     ++ repeat (Ran i)
          (suspensions (snd (op (fst generated))) (fst (op (fst generated))))
     ++ [Settled i (succeeded (snd done))]).

End AloneVocabulary.

(** *** The facade and its callers *)

(** The service, if there is one, allows at least one attempt. *)
Definition attempts_allowed (this : Facade.ChromeStorageService) : Prop :=
  forall config,
    Facade.concurrencyService this = Some config -> 0 < maxRetries config.

(** The record kept under the id [i], in a canonical store. *)
Definition stored_record (k : StoreKind) (i : string) (w : World)
    : option Entity :=
  persisted k w ≫= (fun m => m !! i).

(** *** Worlds and records the examples run on *)

(** A world whose storage holds [items] under the keys [keys], at time
    100, with nothing else in it. *)
Definition world_storing (entries : list (string * StoredValue)) : World :=
  mkWorld (list_to_map entries) [] 100 [] [] [] zeroMetrics.

Definition example_prompt : Entity :=
  mkEntity "p1" "x" (Some "t") None None (Some 5) (Some 5).

Definition example_context : Entity :=
  mkEntity "c1" "API Design" None (Some "Design RESTful APIs") None
           (Some 7) (Some 7).

(** [{ prompts: { p1: {...} }, contexts: { c1: {...} } }] *)
Definition example_world : World :=
  world_storing [(STORAGE_KEY, VObject {[ "p1" := example_prompt ]});
                 (CONTEXTS_STORAGE_KEY, VObject {[ "c1" := example_context ]})].

(** A stored prompt without [createdAt], one whose [createdAt] is 0, and
    the payload of a save that targets them. *)
Definition undated_prompt : Entity :=
  mkEntity "p1" "x" (Some "t") None None None None.

Definition epoch_prompt : Entity :=
  mkEntity "p1" "x" (Some "t") None None (Some 0) (Some 0).

Definition edited_prompt : Entity :=
  mkEntity "p1" "y" (Some "t2") None (Some "d") None None.

Definition undated_world : World :=
  world_storing [(STORAGE_KEY, VObject {[ "p1" := undated_prompt ]})].

Definition epoch_world : World :=
  world_storing [(STORAGE_KEY, VObject {[ "p1" := epoch_prompt ]})].

(** *** The listing *)

(** The order of the listing, on the records themselves: by [createdAt],
    a missing one counting as 0, then by [id]. *)
Definition record_order (localeCompare : string -> string -> Z)
    (r1 r2 : Entity) : Prop :=
  default 0 (createdAt r1) < default 0 (createdAt r2)
  \/ (default 0 (createdAt r1) = default 0 (createdAt r2)
      /\ localeCompare (id r1) (id r2) <= 0).

(** Every record is kept under its own id. *)
Definition keyed_by_id (m : gmap string Entity) : Prop :=
  forall key r, m !! key = Some r -> id r = key.

Definition prompt_created (i : string) (t : Z) : Entity :=
  mkEntity i i (Some "t") None None (Some t) (Some t).

Definition three_prompts : World :=
  world_storing
    [(STORAGE_KEY,
      VObject (list_to_map [("a", prompt_created "a" 3);
                            ("b", prompt_created "b" 1);
                            ("c", prompt_created "c" 2)]))].

(** Two prompts kept under keys that are not their ids. *)
Definition misfiled_prompts : World :=
  world_storing
    [(STORAGE_KEY,
      VObject (list_to_map [("k1", prompt_created "x" 5);
                            ("k2", prompt_created "y" 1)]))].

(** The order of the code units, as a [localeCompare]. *)
Definition codeUnitCompare (a b : string) : Z :=
  match String.compare a b with
  | Lt => -1
  | Eq => 0
  | Gt => 1
  end.

(** *** Reading *)

(** [{ prompts: null, contexts: null }] *)
Definition null_world : World :=
  world_storing [(STORAGE_KEY, VNull); (CONTEXTS_STORAGE_KEY, VNull)].

(** The map a merging write merges into: the stored object, or the empty
    map for any other stored value. *)
Definition current (k : StoreKind) (w : World) : gmap string Entity :=
  match storage w !! storageKey k with
  | Some (VObject m) => m
  | _ => ∅
  end.

(** The line [readPromptsMap] and [readContextsMap] warn with. *)
Definition unexpected_value (k : StoreKind) : string :=
  "ChromeStorageService: unexpected " +:+ ChromeStorageService.plural k
  +:+ " value, returning empty map.".

(** What [makeId] and the migration loop leave untouched. *)
Definition same_storage (w w' : World) : Prop :=
  storage w' = storage w /\ lastError w' = lastError w
  /\ console w' = console w /\ clock w' = clock w.

(** *** The outcome of a retry loop *)

Section RetryOutcome.

Context {T : Type}.
Variable config : ConcurrencyConfig.
Variable op : Async T.
Variable maxRetries : Z.

(** The number, counted from 0, of the first attempt that succeeds among
    the [remaining] ones from attempt [j] on. *)
Fixpoint first_success_from (remaining j : nat) (w : World) : option nat :=
  match remaining with
  | O => None
  | S remaining' =>
      if succeeded (snd (nth_attempt config op maxRetries j w)) then Some j
      else first_success_from remaining' (S j) w
  end.

(** The error of attempt number [n], the last one made when all fail. *)
Definition last_failure (n : nat) (w : World) : option Error :=
  match n with
  | O => None
  | S n' =>
      match snd (nth_attempt config op maxRetries n' w) with
      | Throw e => Some e
      | Ok _ => None
      end
  end.

(** How [executeWithRetry] ends, from the attempts run alone. *)
Definition retry_outcome (w : World) : World * Result T :=
  let n := Z.to_nat maxRetries in
  match first_success_from n O w with
  | Some j =>
      let done := nth_attempt config op maxRetries j w in
      (ConcurrencyService.service_recordOperation config true
         (clock (fst done) - clock w) (fst done),
       snd done)
  | None =>
      let w' := before_attempt config op maxRetries n w in
      (ConcurrencyService.service_recordOperation config false
         (clock w' - clock w) w',
       Throw (new_Error ("Operation failed after " +:+ pretty maxRetries
                         +:+ " attempts: "
                         +:+ ConcurrencyService.cause (last_failure n w))))
  end.

End RetryOutcome.

(** An operation that always fails with the message ["boom"], and one
    that fails with an empty message. *)
Definition failing (message : string) : Async unit :=
  throw (new_Error message).

(** *** Operations and worlds of the queue examples *)

(** A world with an empty storage and two random suffixes to draw. *)
Definition two_ids_world : World :=
  mkWorld ∅ [] 100 ["aaaaaa"; "bbbbbb"] [] [] zeroMetrics.

(** An operation that writes [tag] to the console and then settles with
    [r]. *)
Definition logging (tag : string) (r : Result unit) : Async unit :=
  console_log tag ;;;
  match r with
  | Ok _ => ret tt
  | Throw e => throw e
  end.

(** An operation that takes one turn of the event loop. *)
Definition slow : Async unit := yield.

(** A configuration with the metrics of the service turned off. *)
Definition quiet_config : ConcurrencyConfig := mkConfig 3 10 1000 false false.

(** ** Vocabulary of the further properties *)

(** Every run of [m] relates the world it starts in to the world it leaves
    by [R]. *)
Definition keeps {A} (R : relation World) (m : Async A) : Prop :=
  forall w, R w (fst (run m w)).


(** The event loop after some caller has called [enqueue] once, with the
    whole retry loop [executeWithRetry(op, maxRetries)] for its operation,
    and the steps [rest] have been taken. *)
Definition entered {T} (config : ConcurrencyConfig) (op : Async T)
    (maxRetries : Z) (rest : list (Step T)) (el : EventLoop T) : EventLoop T :=
  steps (CallEnqueue (ConcurrencyService.executeWithRetry config op maxRetries)
         :: rest) el.


(** No timer was set. *)
Definition same_timers (w w' : World) : Prop := timers w' = timers w.

(** Whatever is stored under another key than [key] is as it was. *)
Definition same_elsewhere (key : string) (w w' : World) : Prop :=
  forall key', key' <> key -> storage w' !! key' = storage w !! key'.

(** The number of storage calls that are still going to fail. *)
Definition failures (w : World) : nat :=
  length (omap (fun e : option string => e) (lastError w)).

(** A world in which the first and the fourth storage call fail. *)
Definition flaky_world : World :=
  set_lastError [Some "QUOTA_BYTES quota exceeded"; None; None; Some "IO error"]
                example_world.

(** The canonical map that a storage holds under the key of [k]. *)
Definition persisted_in (k : StoreKind) (s : gmap string StoredValue)
    : option (gmap string Entity) :=
  match s !! storageKey k with
  | None => Some ∅
  | Some (VObject m) => Some m
  | Some _ => None
  end.

(** Every record has a [createdAt] that is set and not 0. *)
Definition dated (m : gmap string Entity) : Prop :=
  forall key r, m !! key = Some r -> exists c, createdAt r = Some c /\ c <> 0.

(** The record the migration makes of a legacy item at time [now]. *)
Definition migrated_at (k : StoreKind) (now : Z) (item : Entity) : Entity :=
  ChromeStorageService.migrated k item (id item) (or_else (createdAt item) now).

(** A legacy array with two items, the second without timestamps. *)
Definition legacy_world : World :=
  world_storing
    [(STORAGE_KEY,
      VArray [mkEntity "a" "first" (Some "t1") None (Some "d") (Some 3) (Some 4);
              mkEntity "b" "second" (Some "t2") None None None None])].

(** A mock that starts with the map of the example world. *)
Definition example_mock : MockStorageService.MockStorageService :=
  MockStorageService.new (Some {[ "p1" := example_prompt ]}) example_world.

(** A prompt that the example world does not hold. *)
Definition new_prompt : Entity :=
  mkEntity "p2" "z" (Some "t3") None (Some "d3") None None.

(** A configuration whose [maxRetries] is 0. *)
Definition no_retry_config : ConcurrencyConfig := mkConfig 0 10 1000 true false.

(** The metrics of the service are as they were. *)
Definition same_serviceMetrics (w w' : World) : Prop :=
  serviceMetrics w' = serviceMetrics w.

(** What one call of [recordOperation] of the service adds to its
    counters. *)
Definition counted_once (config : ConcurrencyConfig) (success : bool)
    (before after : ConcurrencyMetrics) : Prop :=
  totalOperations after
  = totalOperations before + (if enableMetrics config then 1 else 0)
  /\ successfulOperations after
     = successfulOperations before
       + (if enableMetrics config && success then 1 else 0)
  /\ failedOperations after
     = failedOperations before
       + (if enableMetrics config && negb success then 1 else 0).

(** The number of promises of [enqueue] that resolved, and of those that
    rejected. *)
Definition resolved {T} (outs : list (string * Result T)) : Z :=
  Z.of_nat (length (filter (fun o => succeeded (snd o) = true) outs)).

Definition rejected {T} (outs : list (string * Result T)) : Z :=
  Z.of_nat (length (filter (fun o => succeeded (snd o) = false) outs)).

(** The metrics of the queue say what the outcomes that came after
    [before] say. *)
Definition counted_since {T} (before : list (string * Result T))
    (el : EventLoop T) : Prop :=
  exists since,
    outcomes el = (before ++ since)%list
    /\ totalOperations (metrics (writeQueue el)) = Z.of_nat (length since)
    /\ successfulOperations (metrics (writeQueue el)) = resolved since
    /\ failedOperations (metrics (writeQueue el)) = rejected since
    /\ queueDepth (metrics (writeQueue el)) = getQueueDepth (writeQueue el).

(** Some caller calls [clear()]. *)
Definition call_clear {T} (el : EventLoop T) : EventLoop T :=
  set_writeQueue (clear (writeQueue el)) el.

(** Since the trace was [before], the operations have been started in the
    order in which they were enqueued, and those not started are waiting. *)
Definition fifo_since {T} (before : list (@Event)) (el : EventLoop T) : Prop :=
  exists since,
    trace el = (before ++ since)%list
    /\ enqueued_ids since
       = (started_ids since ++ (operationId <$> queue (writeQueue el)))%list.

(** The loop that [clear()] leaves when it is called after [before]. *)
Definition cleared_after {T} (w : World) (before : list (Step T)) : EventLoop T :=
  call_clear (steps before (fresh w)).

(** What may happen to the world between two turns of an operation that
    has the queue for itself: time passes, callers draw operation ids,
    metrics are recorded; the storage is left alone. *)
Definition meanwhile (w w' : World) : Prop :=
  storage w' = storage w /\ lastError w' = lastError w.

(** [Post] holds of the world and the result when the started computation
    [s] settles, whatever happens meanwhile between its turns. *)
Fixpoint holds_after {A} (s : Susp A) (Post : World -> Result A -> Prop)
    (w : World) : Prop :=
  match s with
  | Done r => forall w', meanwhile w w' -> Post w' r
  | Pending k =>
      forall w', meanwhile w w' -> holds_after (snd (k w')) Post (fst (k w'))
  end.

(** The same of a computation that is called in the world [w]. *)
Definition ensures {A} (m : Async A) (Post : World -> Result A -> Prop)
    (w : World) : Prop :=
  holds_after (snd (m w)) Post (fst (m w)).

(** What a caller asks of the atomic half of the storage service. *)
Inductive Request :=
| SaveRequest (input : Entity)   (* savePromptAtomic, saveContextAtomic *)
| DeleteRequest (i : string).    (* deletePromptAtomic, deleteContextAtomic *)

(** The operation that the atomic method hands to [executeAtomicWithRetry]. *)
Definition requested (k : StoreKind) (c : Request) : Async unit :=
  match c with
  | SaveRequest input => ChromeStorageService.saveAtomic_operation k input
  | DeleteRequest i => ChromeStorageService.deleteAtomic_operation k i
  end.

(** The operation that [executeAtomicWithRetry] hands to the queue. *)
Definition atomic_operation (config : ConcurrencyConfig) (k : StoreKind)
    (c : Request) : Async unit :=
  ConcurrencyService.executeWithRetry config (requested k c) (maxRetries config).

(** The map that the request makes of the map [m] when it is carried out
    at time [t]. *)
Definition carried_out (m : gmap string Entity) (c : Request) (t : Z)
    : gmap string Entity :=
  match c with
  | SaveRequest input => <[id input := saved m input (id input) t]> m
  | DeleteRequest i => delete i m
  end.

(** The id the request is about. *)
Definition target (c : Request) : string :=
  match c with
  | SaveRequest input => id input
  | DeleteRequest i => i
  end.

(** A record to save comes with its id. *)
Definition with_id (c : Request) : Prop :=
  match c with
  | SaveRequest input => truthy_string (id input) = true
  | DeleteRequest _ => True
  end.

(** A request the service carries out as it is asked: a record to save
    comes with its id, and the id the request is about names no member of
    [Object.prototype]. *)
Definition well_formed (c : Request) : Prop :=
  with_id c /\ inherited (target c) = false.

(** The operation resolved and left the map that the request makes of
    [m], on storage that is still reliable. *)
Definition carried_out_on (k : StoreKind) (c : Request) (m : gmap string Entity)
    (w : World) (r : Result unit) : Prop :=
  r = Ok tt /\ reliable w
  /\ exists t, persisted k w = Some (carried_out m c t).

(** What can happen to a queue that serves atomic saves. *)
Inductive Happening :=
| Called (c : Request)
    (* some caller calls the atomic method for the request *)
| Resumed (i : nat)
| WorkerResumed
| Elapsed (d : Z).

Definition happen (config : ConcurrencyConfig) (k : StoreKind) (h : Happening)
    : Step unit :=
  match h with
  | Called c => CallEnqueue (atomic_operation config k c)
  | Resumed i => Resume i
  | WorkerResumed => WorkerResume
  | Elapsed d => Elapse d
  end.

(** The requests, in the order of the calls. *)
Definition requests (hs : list Happening) : list Request :=
  omap (fun h => match h with Called c => Some c | _ => None end) hs.

(** The maps that carrying out the requests one after the other, each at
    some time, makes of the map [m]. *)
Inductive Serial (m : gmap string Entity)
    : list Request -> gmap string Entity -> Prop :=
| Serial_nil : Serial m [] m
| Serial_snoc cs m1 c t :
    Serial m cs m1 -> Serial m (cs ++ [c]) (carried_out m1 c t).

(** The request shows in the map: the record it saved is there, with the
    name it was given, or the record it deleted is not. *)
Definition shows (c : Request) (m : gmap string Entity) : Prop :=
  match c with
  | SaveRequest input =>
      exists r, m !! id input = Some r /\ id r = id input /\ name r = name input
  | DeleteRequest i => m !! i = None
  end.

(** The queue serves the requests [called]: those that are done have made
    their map one after the other, one may be running, the others wait. *)
Record Serving (config : ConcurrencyConfig) (k : StoreKind)
    (m : gmap string Entity) (called : list Request) (el : EventLoop unit)
    : Prop := mkServing {
  serving_invariant : Invariant el;
  serving_parts :
    exists done current waiting,
      called = (done ++ current ++ waiting)%list
      /\ operation <$> queue (writeQueue el)
         = atomic_operation config k <$> waiting
      /\ Forall (fun o => snd o = Ok tt) (outcomes el)
      /\ length (outcomes el) = length done
      /\ match running el with
         | [] =>
             current = [] /\ reliable (world el)
             /\ exists m', persisted k (world el) = Some m' /\ Serial m done m'
         | (_, s) :: _ =>
             exists c m1,
               current = [c] /\ Serial m done m1
               /\ holds_after s (carried_out_on k c m1) (world el)
         end
}.

(** A world in which the next three storage calls fail. *)
Definition down_world : World :=
  set_lastError [Some "disk full"; Some "disk full"; Some ""] example_world.

(** A prompt that comes without an id, and a world with a random suffix
    to draw. *)
Definition anonymous_prompt : Entity :=
  mkEntity "" "z" (Some "t3") None None None None.

Definition seeded_world : World := set_random ["k3x9qa"] example_world.

(** * Properties *)

(** ** Laws of [run] *)

Section RunLaws.

Context {A B : Type}.

Lemma complete_andThen (s : Susp A) (f : Result A -> Async B) (w : World) :
  complete (snd (andThen s f w)) (fst (andThen s f w))
  = run (f (snd (complete s w))) (fst (complete s w)).
Proof.
  revert w. induction s as [r | k IH] using Susp_ind; intros w.
  - reflexivity.
  - simpl. apply IH.
Qed.

Lemma run_bind (m : Async A) (f : A -> Async B) (w : World) :
  run (bind m f) w
  = match snd (run m w) with
    | Ok a => run (f a) (fst (run m w))
    | Throw e => (fst (run m w), Throw e)
    end.
Proof.
  unfold run at 1, bind. rewrite complete_andThen.
  fold (run m w). destruct (snd (run m w)); reflexivity.
Qed.

Lemma run_ret (a : A) (w : World) : run (ret a) w = (w, Ok a).
Proof. reflexivity. Qed.

Lemma run_throw (e : Error) (w : World) : run (throw e : Async A) w = (w, Throw e).
Proof. reflexivity. Qed.

Lemma run_gets (f : World -> A) (w : World) : run (gets f) w = (w, Ok (f w)).
Proof. reflexivity. Qed.

Lemma run_act (f : World -> World * A) (w : World) :
  run (act f) w = (fst (f w), Ok (snd (f w))).
Proof. reflexivity. Qed.

End RunLaws.

Lemma run_modify (f : World -> World) (w : World) :
  run (modify f) w = (f w, Ok tt).
Proof. reflexivity. Qed.

Lemma run_try_catch {A} (m : Async A) (h : Error -> Async A) (w : World) :
  run (try_catch m h) w
  = match snd (run m w) with
    | Ok a => (fst (run m w), Ok a)
    | Throw e => run (h e) (fst (run m w))
    end.
Proof.
  unfold run at 1, try_catch. rewrite complete_andThen.
  fold (run m w). destruct (snd (run m w)); reflexivity.
Qed.

Lemma run_await {A} (m : Async A) (w : World) : run (await m) w = run m w.
Proof.
  unfold await. rewrite run_bind.
  destruct (run m w) as [w1 [a | e]]; reflexivity.
Qed.

Lemma run_bind_ok {A B} (m : Async A) (f : A -> Async B) w w1 a :
  run m w = (w1, Ok a) -> run (bind m f) w = run (f a) w1.
Proof. intros H. rewrite run_bind, H. reflexivity. Qed.

Lemma run_bind_throw {A B} (m : Async A) (f : A -> Async B) w w1 e :
  run m w = (w1, Throw e) -> run (bind m f) w = (w1, Throw e).
Proof. intros H. rewrite run_bind, H. reflexivity. Qed.

Lemma run_try_ok {A} (m : Async A) (h : Error -> Async A) w w1 a :
  run m w = (w1, Ok a) -> run (try_catch m h) w = (w1, Ok a).
Proof. intros H. rewrite run_try_catch, H. reflexivity. Qed.

Lemma run_try_throw {A} (m : Async A) (h : Error -> Async A) w w1 e :
  run m w = (w1, Throw e) -> run (try_catch m h) w = run (h e) w1.
Proof. intros H. rewrite run_try_catch, H. reflexivity. Qed.

(** Run the first statement of a sequence with the equation [tac] proves. *)
Ltac run_first tac :=
  erewrite run_bind_ok by (rewrite ?run_await; tac); simpl.

(** ** Objects used as maps *)

Lemma member_plain (m : gmap string Entity) (i : string) :
  member (plain m) i
  = match m !! i with
    | Some r => Found r
    | None => Other (inherited i)
    end.
Proof. reflexivity. Qed.

Lemma record_of_member_plain (m : gmap string Entity) (i : string) :
  record_of (member (plain m) i) = m !! i.
Proof. rewrite member_plain. destruct (m !! i); reflexivity. Qed.

Lemma member_present (map : MapObject) (i : string) (r : Entity) :
  own map !! i = Some r -> member map i = Found r.
Proof. intros H. unfold member. rewrite H. reflexivity. Qed.

Lemma member_plain_absent (m : gmap string Entity) (i : string) :
  m !! i = None -> member (plain m) i = Other (inherited i).
Proof. intros H. rewrite member_plain, H. reflexivity. Qed.

Lemma own_assign_ne (map : MapObject) (i : string) (r : Entity) :
  i <> "__proto__" -> own (assign map i r) = <[i := r]> (own map).
Proof.
  intros Hne. unfold assign. rewrite decide_False by (intros [? _]; auto).
  reflexivity.
Qed.

Lemma own_assign_present (map : MapObject) (i : string) (r r' : Entity) :
  own map !! i = Some r' -> own (assign map i r) = <[i := r]> (own map).
Proof.
  intros H. unfold assign.
  rewrite decide_False by (intros [_ ?]; congruence). reflexivity.
Qed.

Lemma own_assign_proto (map : MapObject) (r : Entity) :
  own map !! "__proto__" = None -> own (assign map "__proto__" r) = own map.
Proof. intros H. unfold assign. rewrite decide_True by auto. reflexivity. Qed.

Lemma own_assign_cases (map : MapObject) (i : string) (r : Entity) :
  (i = "__proto__" /\ own map !! i = None /\ own (assign map i r) = own map)
  \/ own (assign map i r) = <[i := r]> (own map).
Proof.
  unfold assign. destruct (decide (i = "__proto__" /\ own map !! i = None))
    as [[-> H] | H]; [ left | right ]; auto.
Qed.

Lemma assigned_ne (m : gmap string Entity) (i : string) (r : Entity) :
  i <> "__proto__" -> assigned m i r = <[i := r]> m.
Proof. apply (own_assign_ne (plain m)). Qed.

Lemma assigned_present (m : gmap string Entity) (i : string) (r r' : Entity) :
  m !! i = Some r' -> assigned m i r = <[i := r]> m.
Proof. apply (own_assign_present (plain m)). Qed.

Lemma assigned_proto (m : gmap string Entity) (r : Entity) :
  m !! "__proto__" = None -> assigned m "__proto__" r = m.
Proof. apply (own_assign_proto (plain m)). Qed.

Lemma assigned_cases (m : gmap string Entity) (i : string) (r : Entity) :
  (i = "__proto__" /\ m !! i = None /\ assigned m i r = m)
  \/ assigned m i r = <[i := r]> m.
Proof. apply (own_assign_cases (plain m)). Qed.

(** The read that verifies an assignment finds something truthy in every
    case: the record, or the prototype. *)
Lemma truthy_member_assigned (m : gmap string Entity) (i : string) (r : Entity) :
  truthy_member (member (plain (assigned m i r)) i) = true.
Proof.
  destruct (assigned_cases m i r) as [(-> & H & ->) | ->].
  - rewrite member_plain_absent by exact H. reflexivity.
  - rewrite member_plain, lookup_insert_eq. reflexivity.
Qed.

Lemma assigned_union_self (m : gmap string Entity) (i : string) (r : Entity) :
  assigned m i r ∪ m = assigned m i r.
Proof.
  destruct (assigned_cases m i r) as [(_ & _ & ->) | ->].
  - apply map_union_idemp.
  - apply map_eq. intros j. rewrite lookup_union.
    destruct (decide (i = j)) as [-> | Hne].
    + rewrite lookup_insert_eq. destruct (m !! j); reflexivity.
    + rewrite lookup_insert_ne by exact Hne. destruct (m !! j); reflexivity.
Qed.

Lemma inherited_not_proto (i : string) : inherited i = false -> i <> "__proto__".
Proof. intros H ->. discriminate. Qed.

(** What a read [map[i]] finds of a record is the own property, unless
    [i] is [__proto__] and the object has no property of that name. *)
Lemma record_of_member (obj : MapObject) (i : string) :
  i <> "__proto__" \/ is_Some (own obj !! i) ->
  record_of (member obj i) = own obj !! i.
Proof.
  intros H. unfold member. destruct (own obj !! i) as [r|] eqn:E;
    [ reflexivity | ].
  destruct H as [Hne | [? ?]]; [ | discriminate ].
  destruct (proto obj) as [p|]; [ | reflexivity ].
  rewrite decide_False by exact Hne.
  destruct (own_field p i); reflexivity.
Qed.

Lemma lookup_own_assign_ne (obj : MapObject) (i j : string) (r : Entity) :
  j <> i -> own (assign obj i r) !! j = own obj !! j.
Proof.
  intros Hne. destruct (own_assign_cases obj i r) as [(_ & _ & ->) | ->].
  - reflexivity.
  - apply lookup_insert_ne. congruence.
Qed.

Lemma proto_assign_ne (obj : MapObject) (i : string) (r : Entity) :
  i <> "__proto__" -> proto (assign obj i r) = proto obj.
Proof.
  intros Hne. unfold assign. rewrite decide_False by (intros [? _]; auto).
  reflexivity.
Qed.

Lemma lookup_assigned_ne (m : gmap string Entity) (i j : string) (r : Entity) :
  j <> i -> assigned m i r !! j = m !! j.
Proof.
  intros Hne. destruct (assigned_cases m i r) as [(_ & _ & ->) | ->].
  - reflexivity.
  - apply lookup_insert_ne. congruence.
Qed.

(** An id that [makeId] makes has a hyphen in it, which no member of
    [Object.prototype] has in its name. *)
Lemma hyphenated_app (a b : string) :
  hyphenated (a +:+ "-" +:+ b) = true.
Proof.
  induction a as [|c a IH]; [ reflexivity | ].
  change (hyphenated (String c (a +:+ "-" +:+ b)) = true).
  cbn [hyphenated].
  destruct (Ascii.eqb c (Ascii.ascii_of_nat 45)); [ reflexivity | exact IH ].
Qed.

Lemma hyphenated_ordinary (s : string) :
  hyphenated s = true -> inherited s = false.
Proof.
  intros H. unfold inherited. apply bool_decide_eq_false_2. intros Hin.
  unfold Object_prototype in Hin.
  repeat (apply elem_of_cons in Hin as [-> | Hin]; [ discriminate | ]).
  apply elem_of_nil in Hin. exact Hin.
Qed.

(** ** The record store, run alone on reliable storage *)

Section StoreLaws.

Import ChromeStorageService.

Lemma reliable_set_storage f w : reliable w -> reliable (set_storage f w).
Proof. intros H. exact H. Qed.

Lemma reliable_store k m w : reliable w -> reliable (store k m w).
Proof. intros H. exact H. Qed.

Lemma reliable_sleep ms w : reliable w -> reliable (sleep ms w).
Proof. intros H. exact H. Qed.

Lemma run_storage_get key w :
  reliable w ->
  run (chrome_storage_local_get key) w
  = (w, Ok (mkCallback None (storage w !! key))).
Proof.
  intros H. unfold reliable in H.
  unfold run, chrome_storage_local_get, take_lastError. simpl.
  rewrite H. reflexivity.
Qed.

Lemma run_storage_set key v w :
  reliable w ->
  run (chrome_storage_local_set key v) w
  = (set_storage (insert key v) w, Ok (mkCallback None tt)).
Proof.
  intros H. unfold reliable in H.
  unfold run, chrome_storage_local_set, take_lastError. simpl.
  rewrite H. reflexivity.
Qed.

Lemma persisted_store k m w : persisted k (store k m w) = Some m.
Proof.
  unfold persisted, store. simpl. rewrite lookup_insert_eq. reflexivity.
Qed.

Lemma persisted_sleep k ms w : persisted k (sleep ms w) = persisted k w.
Proof. reflexivity. Qed.

Lemma run_delay ms w : run (delay ms) w = (sleep ms w, Ok tt).
Proof. reflexivity. Qed.

Lemma run_writeMap_replace k m w :
  reliable w ->
  run (writeMap k m true) w = (store k m w, Ok tt).
Proof.
  intros H. unfold writeMap.
  run_first ltac:(apply run_storage_set; exact H). reflexivity.
Qed.

Lemma run_writeMap_merge k m c w :
  reliable w -> persisted k w = Some c ->
  run (writeMap k m false) w = (store k (m ∪ c) w, Ok tt).
Proof.
  intros H Hc. unfold writeMap.
  run_first ltac:(apply run_storage_get; exact H).
  unfold persisted in Hc.
  destruct (storage w !! storageKey k) as [[ | | | c'] | ] eqn:E;
    try discriminate; injection Hc as <-;
    run_first ltac:(apply run_storage_set; exact H); reflexivity.
Qed.

Lemma run_readMap k m w :
  reliable w -> persisted k w = Some m ->
  run (readMap k) w = (w, Ok (RObject (plain m))).
Proof.
  intros H Hm. unfold readMap.
  run_first ltac:(apply run_storage_get; exact H).
  unfold persisted in Hm.
  destruct (storage w !! storageKey k) as [[ | | | c'] | ] eqn:E;
    try discriminate; injection Hm as <-; reflexivity.
Qed.

Lemma insert_union_self (i : string) (r : Entity) (m : gmap string Entity) :
  <[i := r]> m ∪ m = <[i := r]> m.
Proof.
  apply map_eq. intros j. rewrite lookup_union.
  destruct (decide (i = j)) as [-> | Hne].
  - rewrite lookup_insert_eq. destruct (m !! j); reflexivity.
  - rewrite lookup_insert_ne by exact Hne. destruct (m !! j); reflexivity.
Qed.

Lemma delete_union_self (i : string) (m : gmap string Entity) :
  delete i m ∪ m = m.
Proof.
  apply map_eq. intros j. rewrite lookup_union.
  destruct (decide (i = j)) as [-> | Hne].
  - rewrite lookup_delete_eq. destruct (m !! j); reflexivity.
  - rewrite lookup_delete_ne by exact Hne. destruct (m !! j); reflexivity.
Qed.

Lemma store_store k m m' w : store k m' (store k m w) = store k m' w.
Proof.
  unfold store, set_storage. simpl. rewrite insert_insert_eq. reflexivity.
Qed.

Lemma store_sleep k m ms w : store k m (sleep ms w) = sleep ms (store k m w).
Proof. reflexivity. Qed.

(** Reading a canonical store, whatever was written to it last. *)
Ltac read_stored H :=
  apply run_readMap; [ apply reliable_store; exact H | apply persisted_store ].

(** One pass of the save algorithm on a canonical store: the record lands
    and the verifying read finds it. *)
Lemma run_save_steps k input i m w :
  reliable w -> persisted k w = Some m ->
  run (save_steps k input i) w
  = (store k (assigned m i (saved m input i (clock w))) w,
     Ok (member (plain (assigned m i (saved m input i (clock w)))) i)).
Proof.
  intros H Hm. unfold save_steps.
  run_first ltac:(apply run_readMap; eassumption).
  run_first ltac:(apply run_gets).
  rewrite record_of_member_plain.
  change (spread (m !! i) input i (createdAt_for (m !! i) input (clock w))
                 (clock w)) with (saved m input i (clock w)).
  change (own (assign (plain m) i (saved m input i (clock w))))
    with (assigned m i (saved m input i (clock w))).
  run_first ltac:(apply run_writeMap_merge; eassumption).
  rewrite assigned_union_self.
  run_first ltac:(read_stored H).
  reflexivity.
Qed.

Lemma run_id_or_makeId i w :
  truthy_string i = true -> run (id_or_makeId i) w = (w, Ok i).
Proof. intros H. unfold id_or_makeId. rewrite H. reflexivity. Qed.

Lemma run_save_pass k input i m w :
  reliable w -> persisted k w = Some m ->
  run (save_pass k input i) w
  = (store k (assigned m i (saved m input i (clock w))) w, Ok Return).
Proof.
  intros H Hm. unfold save_pass. apply run_try_ok.
  run_first ltac:(apply run_save_steps; eassumption).
  rewrite truthy_member_assigned. reflexivity.
Qed.

(** [savePrompt] and [saveContext] on a canonical store succeed in their
    first pass. *)
Lemma run_saveRecord k input m w :
  reliable w -> persisted k w = Some m -> truthy_string (id input) = true ->
  run (saveRecord k input) w
  = (store k (assigned m (id input) (saved m input (id input) (clock w))) w,
     Ok tt).
Proof.
  intros H Hm Hid. unfold saveRecord.
  run_first ltac:(apply run_id_or_makeId; exact Hid).
  run_first ltac:(apply run_save_pass; eassumption). reflexivity.
Qed.

Lemma run_saveAtomic_operation k input m w :
  reliable w -> persisted k w = Some m -> truthy_string (id input) = true ->
  run (saveAtomic_operation k input) w
  = (store k (assigned m (id input) (saved m input (id input) (clock w))) w,
     Ok tt).
Proof.
  intros H Hm Hid. unfold saveAtomic_operation.
  run_first ltac:(apply run_id_or_makeId; exact Hid).
  run_first ltac:(apply run_save_steps; eassumption).
  rewrite truthy_member_assigned. reflexivity.
Qed.

Lemma run_hasOwnProperty (m : gmap string Entity) (i : string) w :
  m !! "hasOwnProperty" = None ->
  run (hasOwnProperty (plain m) i) w = (w, Ok (bool_decide (is_Some (m !! i)))).
Proof. intros H. unfold hasOwnProperty. simpl. rewrite H. reflexivity. Qed.

Lemma run_hasOwnProperty_hidden (m : gmap string Entity) (i : string) r w :
  m !! "hasOwnProperty" = Some r ->
  run (hasOwnProperty (plain m) i) w
  = (w, Throw (new_TypeError "map.hasOwnProperty is not a function")).
Proof. intros H. unfold hasOwnProperty. simpl. rewrite H. reflexivity. Qed.

(** One pass of [deletePrompt] or [deleteContext] for an id that is in the
    map: the merging write puts the record back, and the pass ends in
    [continue]. *)
Lemma run_delete_pass_present k i m r w :
  reliable w -> persisted k w = Some m -> m !! "hasOwnProperty" = None ->
  m !! i = Some r ->
  run (delete_pass k i) w
  = (sleep 20 (store k m w),
     Ok (Continue (new_Error "delete did not persist, retrying"))).
Proof.
  intros H Hm Hhas Hr. unfold delete_pass. apply run_try_ok.
  run_first ltac:(apply run_readMap; eassumption).
  run_first ltac:(apply run_hasOwnProperty; exact Hhas).
  rewrite bool_decide_eq_true_2 by (rewrite Hr; eauto). cbn [remove own plain].
  run_first ltac:(apply run_writeMap_merge; eassumption).
  rewrite delete_union_self.
  run_first ltac:(read_stored H).
  rewrite (member_present (plain m) i r Hr). cbn [truthy_member].
  run_first ltac:(apply run_delay). reflexivity.
Qed.

(** The same pass for an id that is not in the map: the read that verifies
    finds nothing, unless the id names a member of [Object.prototype]. *)
Lemma run_delete_pass_absent k i m w :
  reliable w -> persisted k w = Some m -> m !! "hasOwnProperty" = None ->
  m !! i = None ->
  run (delete_pass k i) w
  = if inherited i
    then (sleep 20 (store k m w),
          Ok (Continue (new_Error "delete did not persist, retrying")))
    else (store k m w, Ok Return).
Proof.
  intros H Hm Hhas Hr. unfold delete_pass.
  destruct (inherited i) eqn:Hi; apply run_try_ok;
    run_first ltac:(apply run_readMap; eassumption);
    run_first ltac:(apply run_hasOwnProperty; exact Hhas);
    rewrite bool_decide_eq_false_2 by (rewrite Hr; intros [? ?]; discriminate);
    cbn [own plain];
    run_first ltac:(apply run_writeMap_merge; eassumption);
    rewrite map_union_idemp;
    run_first ltac:(read_stored H);
    rewrite (member_plain_absent m i Hr), Hi; cbn [truthy_member].
  - run_first ltac:(apply run_delay). reflexivity.
  - reflexivity.
Qed.

(** With a record kept under the key [hasOwnProperty] the pass ends at its
    test, with a [TypeError]. *)
Lemma run_delete_pass_hidden k i m r w :
  reliable w -> persisted k w = Some m -> m !! "hasOwnProperty" = Some r ->
  run (delete_pass k i) w
  = (sleep 20 w,
     Ok (Continue (new_TypeError "map.hasOwnProperty is not a function"))).
Proof.
  intros H Hm Hhas. unfold delete_pass.
  erewrite run_try_throw.
  - run_first ltac:(apply run_delay). reflexivity.
  - run_first ltac:(apply run_readMap; eassumption).
    erewrite run_bind_throw; [ reflexivity | ].
    eapply run_hasOwnProperty_hidden. exact Hhas.
Qed.

(** [deletePrompt] and [deleteContext] for an id that is in the map: three
    passes, none of which removes the record, then the rejection. *)
Lemma run_deleteRecord_present k i m r w :
  reliable w -> persisted k w = Some m -> m !! "hasOwnProperty" = None ->
  m !! i = Some r ->
  run (deleteRecord k i) w
  = (sleep 20 (sleep 20 (sleep 20 (store k m w))),
     Throw (new_Error ("delete" +:+ singular k
                       +:+ " failed after retries: delete did not persist, retrying"))).
Proof.
  intros H Hm Hhas Hr. unfold deleteRecord, delete_loop.
  run_first ltac:(eapply run_delete_pass_present; eassumption).
  run_first ltac:(eapply run_delete_pass_present;
                  [ exact H | apply persisted_store | exact Hhas | exact Hr ]).
  run_first ltac:(eapply run_delete_pass_present;
                  [ exact H | apply persisted_store | exact Hhas | exact Hr ]).
  rewrite !store_sleep, !store_store. reflexivity.
Qed.

Lemma run_deleteRecord_absent k i m w :
  reliable w -> persisted k w = Some m -> m !! "hasOwnProperty" = None ->
  m !! i = None -> inherited i = false ->
  run (deleteRecord k i) w = (store k m w, Ok tt).
Proof.
  intros H Hm Hhas Hr Hi. unfold deleteRecord, delete_loop.
  run_first ltac:(rewrite (run_delete_pass_absent k i m) by assumption;
                  rewrite Hi; reflexivity).
  reflexivity.
Qed.

(** [deletePrompt] and [deleteContext] for an id that is not in the map
    and names a member of [Object.prototype]: the read that verifies finds
    that member, three times. *)
Lemma run_deleteRecord_inherited k i m w :
  reliable w -> persisted k w = Some m -> m !! "hasOwnProperty" = None ->
  m !! i = None -> inherited i = true ->
  run (deleteRecord k i) w
  = (sleep 20 (sleep 20 (sleep 20 (store k m w))),
     Throw (new_Error ("delete" +:+ singular k
                       +:+ " failed after retries: delete did not persist, retrying"))).
Proof.
  intros H Hm Hhas Hr Hi. unfold deleteRecord, delete_loop.
  run_first ltac:(rewrite (run_delete_pass_absent k i m) by assumption;
                  rewrite Hi; reflexivity).
  run_first ltac:(rewrite (run_delete_pass_absent k i m)
                    by (try apply persisted_store; assumption);
                  rewrite Hi; reflexivity).
  run_first ltac:(rewrite (run_delete_pass_absent k i m)
                    by (try apply persisted_store; assumption);
                  rewrite Hi; reflexivity).
  rewrite !store_sleep, !store_store. reflexivity.
Qed.

(** The operation of the atomic delete for an id that is in the map: the
    record is removed; the read that verifies then finds nothing, unless
    the id names a member of [Object.prototype]. *)
Lemma run_deleteAtomic_operation_present k i m r w :
  reliable w -> persisted k w = Some m -> m !! "hasOwnProperty" = None ->
  m !! i = Some r ->
  run (deleteAtomic_operation k i) w
  = (store k (delete i m) w,
     if inherited i
     then Throw (new_Error "Atomic delete verification failed")
     else Ok tt).
Proof.
  intros H Hm Hhas Hr. unfold deleteAtomic_operation.
  run_first ltac:(apply run_readMap; eassumption).
  run_first ltac:(apply run_hasOwnProperty; exact Hhas).
  rewrite bool_decide_eq_true_2 by (rewrite Hr; eauto). cbn [remove own plain].
  run_first ltac:(apply run_writeMap_replace; exact H).
  run_first ltac:(read_stored H).
  rewrite member_plain_absent by apply lookup_delete_eq.
  destruct (inherited i); reflexivity.
Qed.

Lemma run_deleteAtomic_operation_absent k i m w :
  reliable w -> persisted k w = Some m -> m !! "hasOwnProperty" = None ->
  m !! i = None ->
  run (deleteAtomic_operation k i) w = (w, Ok tt).
Proof.
  intros H Hm Hhas Hr. unfold deleteAtomic_operation.
  run_first ltac:(apply run_readMap; eassumption).
  run_first ltac:(apply run_hasOwnProperty; exact Hhas).
  rewrite bool_decide_eq_false_2 by (rewrite Hr; intros [? ?]; discriminate).
  reflexivity.
Qed.

Lemma run_deleteAtomic_operation_hidden k i m r w :
  reliable w -> persisted k w = Some m -> m !! "hasOwnProperty" = Some r ->
  run (deleteAtomic_operation k i) w
  = (w, Throw (new_TypeError "map.hasOwnProperty is not a function")).
Proof.
  intros H Hm Hhas. unfold deleteAtomic_operation.
  run_first ltac:(apply run_readMap; eassumption).
  erewrite run_bind_throw; [ reflexivity | ].
  eapply run_hasOwnProperty_hidden. exact Hhas.
Qed.

End StoreLaws.

(** ** The retry loop, run alone *)

Section RetryLaws.

Import ConcurrencyService.

Context {T : Type}.
Variable config : ConcurrencyConfig.
Variable op : Async T.
Variable maxRetries : Z.

Lemma run_attempt {A} (m : Async A) w :
  run (attempt m) w = (fst (run m w), Ok (snd (run m w))).
Proof.
  unfold attempt. rewrite run_try_catch, run_bind, run_await.
  destruct (run m w) as [w1 [a | e]]; reflexivity.
Qed.

Lemma run_after_failure attempt_no error w (k : Async T) :
  run ((if logOperations config then
          console_log ("ConcurrencyService: Operation failed (attempt "
                       +:+ pretty attempt_no +:+ "/" +:+ pretty maxRetries
                       +:+ "): " +:+ String_of_Error error)
        else ret tt) ;;;
       (if attempt_no <? maxRetries then
          await (setTimeout_promise
                   (calculateBackoffDelay attempt_no (baseDelayMs config)
                                          (maxDelayMs config)))
        else ret tt) ;;;
       k) w
  = run k (after_failure config maxRetries attempt_no error w).
Proof.
  unfold after_failure.
  destruct (logOperations config); destruct (attempt_no <? maxRetries);
    rewrite run_bind; simpl; rewrite run_bind, ?run_await; reflexivity.
Qed.

(** One turn of the loop, in terms of the operation run alone. *)
Lemma run_retry_loop_S startTime remaining attempt_no lastError w :
  run (retry_loop config op maxRetries startTime (S remaining) attempt_no
                  lastError) w
  = match snd (run op w) with
    | Ok result =>
        (service_recordOperation config true
           (clock (fst (run op w)) - startTime) (fst (run op w)),
         Ok result)
    | Throw error =>
        run (retry_loop config op maxRetries startTime remaining
                        (attempt_no + 1) (Some error))
            (after_failure config maxRetries attempt_no error (fst (run op w)))
    end.
Proof.
  simpl. rewrite run_bind, run_attempt. simpl.
  destruct (snd (run op w)) as [result | error].
  - reflexivity.
  - apply run_after_failure.
Qed.

Lemma run_retry_loop_O startTime attempt_no lastError w :
  run (retry_loop config op maxRetries startTime O attempt_no lastError) w
  = (service_recordOperation config false (clock w - startTime) w,
     Throw (new_Error ("Operation failed after " +:+ pretty maxRetries
                       +:+ " attempts: " +:+ cause lastError))).
Proof. reflexivity. Qed.

End RetryLaws.

(** ** The write queue *)

Section QueueLaws.
Context {T : Type}.
Implicit Types (el : EventLoop T) (op : Async T).

Lemma serial_state_snoc (tr : list (@Event)) e :
  serial_state (tr ++ [e]) = serial_step (serial_state tr) e.
Proof. unfold serial_state. rewrite foldl_app. reflexivity. Qed.

Lemma enqueued_ids_snoc (tr : list (@Event)) e :
  enqueued_ids (tr ++ [e])
  = (enqueued_ids tr ++ match e with Enqueued i => [i] | _ => [] end)%list.
Proof. unfold enqueued_ids. rewrite omap_app. destruct e; reflexivity. Qed.

Lemma started_ids_snoc (tr : list (@Event)) e :
  started_ids (tr ++ [e])
  = (started_ids tr ++ match e with Started i => [i] | _ => [] end)%list.
Proof. unfold started_ids. rewrite omap_app. destruct e; reflexivity. Qed.

Lemma settled_ids_snoc (tr : list (@Event)) e :
  settled_ids (tr ++ [e])
  = (settled_ids tr ++ match e with Settled i _ => [i] | _ => [] end)%list.
Proof. unfold settled_ids. rewrite omap_app. destruct e; reflexivity. Qed.

Ltac trace_solve Hf Hs Hx Ho :=
  simpl in *;
  rewrite ?enqueued_ids_snoc, ?started_ids_snoc, ?settled_ids_snoc,
          ?serial_state_snoc, ?fmap_app;
  simpl; rewrite ?app_nil_r in *;
  rewrite ?Hf, ?Hs, ?Hx, ?Ho; simpl;
  rewrite ?app_nil_r, <- ?app_assoc; simpl;
  rewrite ?decide_True by reflexivity;
  try reflexivity; try assumption.

Lemma fresh_invariant w : Invariant (fresh (T:=T) w).
Proof.
  split; try reflexivity.
  apply Phase_idle. repeat split.
Qed.

Lemma processQueue_loop_invariant (q : list (QueuedOperation T)) w tr
    (outs : list (string * Result T)) :
  forall m,
  enqueued_ids tr = (started_ids tr ++ (operationId <$> q))%list ->
  started_ids tr = settled_ids tr ->
  serial_state tr = Some None ->
  fst <$> outs = settled_ids tr ->
  Invariant (processQueue_loop (mkLoop (mkQueue q true m) w [] false outs tr)).
Proof.
  intros m Hf Hs Hx Ho. unfold processQueue_loop. simpl.
  destruct q as [ | op rest]; simpl.
  - split; [ apply Phase_idle; repeat split | .. ]; trace_solve Hf Hs Hx Ho.
  - split; [ eapply Phase_awaiting; reflexivity | .. ];
      trace_solve Hf Hs Hx Ho.
Qed.

Lemma step_invariant s el : Invariant el -> Invariant (step s el).
Proof.
  intros [Hp Hf Hs Hx Ho]. destruct el as [[q p m] w r b outs tr]. simpl in *.
  destruct Hp as [(Hp & Hq & Hr & Hb) | op0 s0 Hp Hr Hb | Hp Hr Hb];
    simpl in *; subst;
    destruct s as [op | i | | d]; simpl.
  - (* a call on an idle queue *)
    unfold enqueue, processQueue. simpl.
    apply processQueue_loop_invariant; trace_solve Hf Hs Hx Ho.
  - rewrite ?lookup_nil.
    split; [ apply Phase_idle; repeat split | .. ]; trace_solve Hf Hs Hx Ho.
  - split; [ apply Phase_idle; repeat split | .. ]; trace_solve Hf Hs Hx Ho.
  - split; [ apply Phase_idle; repeat split | .. ]; trace_solve Hf Hs Hx Ho.
  - (* a call while an operation is running *)
    unfold enqueue, processQueue. simpl.
    split; [ eapply Phase_awaiting; reflexivity | .. ];
      trace_solve Hf Hs Hx Ho.
  - (* the running operation is resumed *)
    destruct i as [ | i]; simpl.
    + destruct s0 as [res | k]; simpl.
      * split; [ apply Phase_ready; reflexivity | .. ];
          trace_solve Hf Hs Hx Ho.
      * split; [ eapply Phase_awaiting; reflexivity | .. ];
          trace_solve Hf Hs Hx Ho.
    + split; [ eapply Phase_awaiting; reflexivity | .. ];
        trace_solve Hf Hs Hx Ho.
  - split; [ eapply Phase_awaiting; reflexivity | .. ];
      trace_solve Hf Hs Hx Ho.
  - split; [ eapply Phase_awaiting; reflexivity | .. ];
      trace_solve Hf Hs Hx Ho.
  - (* a call while the worker is about to go on *)
    unfold enqueue, processQueue. simpl.
    split; [ apply Phase_ready; reflexivity | .. ]; trace_solve Hf Hs Hx Ho.
  - rewrite ?lookup_nil.
    split; [ apply Phase_ready; reflexivity | .. ]; trace_solve Hf Hs Hx Ho.
  - (* the worker goes on *)
    apply processQueue_loop_invariant; trace_solve Hf Hs Hx Ho.
  - split; [ apply Phase_ready; reflexivity | .. ]; trace_solve Hf Hs Hx Ho.
Qed.

Lemma steps_invariant schedule el : Invariant el -> Invariant (steps schedule el).
Proof.
  revert el. induction schedule as [ | s schedule IH]; intros el H.
  - exact H.
  - simpl. apply IH, step_invariant, H.
Qed.

Lemma steps_app (a b : list (Step T)) el :
  steps (a ++ b) el = steps b (steps a el).
Proof. unfold steps. apply foldl_app. Qed.

(** Settling the one running operation: the world and the result are those
    of the operation run alone. *)
Lemma resume_to_settlement_alone (s : Susp T) :
  forall q w qop (outs : list (string * Result T)) tr,
    resume_to_settlement s (mkLoop q w [(qop, s)] false outs tr)
    = wrapper_settled qop (snd (complete s w))
        (mkLoop q (fst (complete s w)) [] false outs
                (tr ++ repeat (Ran (operationId qop)) (suspensions s w))).
Proof.
  induction s as [r | k IH] using Susp_ind; intros q w qop outs tr.
  - simpl. rewrite app_nil_r. reflexivity.
  - simpl. unfold set_running, set_world. simpl.
    specialize (IH w q (fst (k w)) qop outs
                   (tr ++ [Ran (operationId qop)])%list).
    etransitivity; [ exact IH | ].
    rewrite <- app_assoc. reflexivity.
Qed.

Lemma resume_to_settlement_steps (s : Susp T) :
  forall el, exists schedule,
    Forall internal schedule /\ resume_to_settlement s el = steps schedule el.
Proof.
  induction s as [r | k IH] using Susp_ind; intros el.
  - exists [Resume 0]. split; [ repeat constructor | reflexivity ].
  - destruct (IH (world el) (step (Resume 0) el)) as (schedule & Hi & Hs).
    exists (Resume 0 :: schedule). split.
    + constructor; [ exact I | exact Hi ].
    + simpl. exact Hs.
Qed.

Lemma settle_running_steps el :
  exists schedule,
    Forall internal schedule /\ settle_running el = steps schedule el.
Proof.
  unfold settle_running. destruct (running el) as [ | [op s] rest].
  - exists []. split; [ constructor | reflexivity ].
  - apply resume_to_settlement_steps.
Qed.

Lemma rounds_steps n :
  forall el, exists schedule,
    Forall internal schedule /\ rounds n el = steps schedule el.
Proof.
  induction n as [ | n IH]; intros el.
  - exists []. split; [ constructor | reflexivity ].
  - destruct (settle_running_steps el) as (s1 & Hi1 & Hs1).
    destruct (IH (step WorkerResume (settle_running el))) as (s2 & Hi2 & Hs2).
    exists (s1 ++ WorkerResume :: s2)%list. split.
    + apply Forall_app. split; [ exact Hi1 | ].
      constructor; [ exact I | exact Hi2 ].
    + cbn [rounds]. rewrite Hs2, Hs1, steps_app. reflexivity.
Qed.

Lemma step_internal_enqueued s el :
  internal s -> enqueued_ids (trace (step s el)) = enqueued_ids (trace el).
Proof.
  intros Hi. destruct el as [[q p m] w r b outs tr].
  destruct s as [op | i | | d]; simpl in *.
  - destruct Hi.
  - destruct (r !! i) as [[op [res | k]] | ]; simpl;
      rewrite ?enqueued_ids_snoc; simpl; rewrite ?app_nil_r; reflexivity.
  - destruct b; [ | reflexivity ].
    unfold processQueue_loop. simpl. destruct q as [ | op rest]; simpl;
      rewrite ?enqueued_ids_snoc; simpl; rewrite ?app_nil_r; reflexivity.
  - reflexivity.
Qed.

Lemma steps_internal_enqueued schedule :
  forall el, Forall internal schedule ->
    enqueued_ids (trace (steps schedule el)) = enqueued_ids (trace el).
Proof.
  induction schedule as [ | s schedule IH]; intros el Hi.
  - reflexivity.
  - inversion Hi as [ | ? ? Hs Hrest]; subst. simpl.
    rewrite IH by exact Hrest. apply step_internal_enqueued, Hs.
Qed.

Lemma idle_todo el : idle el -> todo el = O.
Proof.
  intros (Hp & Hq & Hr & Hb). unfold todo. rewrite Hq, Hr, Hb. reflexivity.
Qed.

Lemma round_idle el :
  idle el -> step WorkerResume (settle_running el) = el.
Proof.
  intros (Hp & Hq & Hr & Hb). unfold settle_running. rewrite Hr. simpl.
  rewrite Hb. reflexivity.
Qed.

(** A round either finds the loop idle or does one unit of the work left. *)
Lemma round_todo el :
  Invariant el ->
  idle el \/ (todo (step WorkerResume (settle_running el)) < todo el)%nat.
Proof.
  intros [Hp _ _ _ _]. destruct el as [[q p m] w r b outs tr]. simpl in *.
  destruct Hp as [Hidle | op0 s0 Hp Hr Hb | Hp Hr Hb]; simpl in *; subst.
  - left. exact Hidle.
  - right. unfold settle_running. simpl.
    rewrite resume_to_settlement_alone. simpl.
    unfold processQueue_loop. simpl. destruct q as [ | h rest]; simpl.
    + unfold todo. simpl. lia.
    + unfold todo. simpl. lia.
  - right. unfold settle_running. simpl.
    unfold processQueue_loop. simpl. destruct q as [ | h rest]; simpl.
    + unfold todo. simpl. lia.
    + unfold todo. simpl. lia.
Qed.

Lemma rounds_idle n :
  forall el, Invariant el -> (todo el <= n)%nat -> idle (rounds n el).
Proof.
  induction n as [ | n IH]; intros el Hinv Hn.
  - simpl. destruct (round_todo el Hinv) as [Hi | Hlt]; [ exact Hi | lia ].
  - cbn [rounds]. destruct (round_todo el Hinv) as [Hi | Hlt].
    + rewrite round_idle by exact Hi. apply IH; [ exact Hinv | ].
      rewrite idle_todo by exact Hi. lia.
    + apply IH; [ | lia ].
      destruct (settle_running_steps el) as (s1 & _ & Hs1).
      rewrite Hs1. apply step_invariant, steps_invariant, Hinv.
Qed.

Lemma quiesce_idle el : Invariant el -> idle (quiesce el).
Proof.
  intros Hinv. apply rounds_idle; [ exact Hinv | ].
  unfold todo. destruct (resumable el) eqn:Hb; [ | lia ].
  destruct Hinv as [Hp _ _ _ _].
  destruct Hp as [(_ & _ & _ & Hb') | op0 s0 _ Hr Hb' | _ Hr _];
    try congruence.
  rewrite Hr. simpl. lia.
Qed.

Lemma quiesce_steps el :
  exists schedule,
    Forall internal schedule /\ quiesce el = steps schedule el.
Proof. apply rounds_steps. Qed.

Lemma enqueue_idle (op : Async T) el :
  idle el ->
  enqueue op el
  = let generated := generateOperationId (world el) in
    let i := snd generated in
    let called := op (fst generated) in
    mkLoop
      (mkQueue [] true
         (set_queueDepth 0 (set_queueDepth 1 (metrics (writeQueue el)))))
      (fst called)
      [(mkQueuedOperation i op (clock (fst generated)) 0, snd called)]
      false (outcomes el) (trace el ++ [Enqueued i; Started i]).
Proof.
  intros (Hp & Hq & Hr & Hb). destruct el as [[q p m] w r b outs tr].
  simpl in *. subst. unfold enqueue, processQueue, processQueue_loop.
  simpl. rewrite <- app_assoc. reflexivity.
Qed.

Lemma settle_running_alone q w qop (s : Susp T)
    (outs : list (string * Result T)) tr :
  settle_running (mkLoop q w [(qop, s)] false outs tr)
  = wrapper_settled qop (snd (complete s w))
      (mkLoop q (fst (complete s w)) [] false outs
              (tr ++ repeat (Ran (operationId qop)) (suspensions s w))).
Proof. apply resume_to_settlement_alone. Qed.

Lemma await_enqueue_idle (op : Async T) el :
  idle el ->
  await_enqueue op el
  = (enqueued_alone op el,
     Some (snd (run op (fst (generateOperationId (world el)))))).
Proof.
  intros Hidle. unfold await_enqueue, quiesce.
  rewrite enqueue_idle by exact Hidle. cbn zeta.
  cbn [running writeQueue queue length Nat.add rounds].
  rewrite settle_running_alone.
  unfold wrapper_settled. simpl.
  unfold settle_running; simpl.
  unfold enqueued_alone, run. simpl.
  rewrite last_snoc. simpl.
  rewrite <- !app_assoc. reflexivity.
Qed.
End QueueLaws.

(** ** Atomic execution from an idle queue *)

Section AtomicLaws.

Import ConcurrencyService.

Context {T : Type}.
Variable config : ConcurrencyConfig.

Lemma storage_generated w : storage (fst (generateOperationId w)) = storage w.
Proof. unfold generateOperationId. destruct (random w); reflexivity. Qed.

Lemma clock_generated w : clock (fst (generateOperationId w)) = clock w.
Proof. unfold generateOperationId. destruct (random w); reflexivity. Qed.

Lemma serviceMetrics_generated w :
  serviceMetrics (fst (generateOperationId w)) = serviceMetrics w.
Proof. unfold generateOperationId. destruct (random w); reflexivity. Qed.

Lemma reliable_generated w : reliable w -> reliable (fst (generateOperationId w)).
Proof.
  unfold reliable, generateOperationId. destruct (random w); intros H; exact H.
Qed.

Lemma persisted_generated k w :
  persisted k (fst (generateOperationId w)) = persisted k w.
Proof. unfold persisted. rewrite storage_generated. reflexivity. Qed.

Lemma persisted_recorded k success latency w :
  persisted k (service_recordOperation config success latency w) = persisted k w.
Proof.
  unfold service_recordOperation. destruct (enableMetrics config); reflexivity.
Qed.

Lemma reliable_recorded success latency w :
  reliable w -> reliable (service_recordOperation config success latency w).
Proof.
  unfold service_recordOperation. destruct (enableMetrics config);
    intros H; exact H.
Qed.

Lemma total_recorded success latency w :
  totalOperations (serviceMetrics (service_recordOperation config success latency w))
  = totalOperations (serviceMetrics w) + (if enableMetrics config then 1 else 0).
Proof.
  unfold service_recordOperation. destruct (enableMetrics config); simpl; lia.
Qed.

(** An operation that succeeds at once is attempted once. *)
Lemma run_executeWithRetry_first (op : Async T) n w w' a :
  0 < n -> run op w = (w', Ok a) ->
  run (executeWithRetry config op n) w
  = (service_recordOperation config true (clock w' - clock w) w', Ok a).
Proof.
  intros Hn Hop. unfold executeWithRetry.
  run_first ltac:(apply run_gets).
  destruct (Z.to_nat n) as [ | remaining] eqn:E; [ lia | ].
  rewrite run_retry_loop_S, Hop. reflexivity.
Qed.

Lemma executeAtomic_idle (op : Async T) el :
  idle el ->
  executeAtomic config op el
  = (set_world
       (service_recordOperation config
          (succeeded (snd (run op (fst (generateOperationId (world el))))))
          (clock (fst (run op (fst (generateOperationId (world el)))))
           - clock (world el))
          (fst (run op (fst (generateOperationId (world el))))))
       (enqueued_alone op el),
     Some (snd (run op (fst (generateOperationId (world el)))))).
Proof.
  intros Hidle. unfold executeAtomic.
  rewrite await_enqueue_idle by exact Hidle. reflexivity.
Qed.

Lemma enqueued_alone_idle (op : Async T) el : idle (enqueued_alone op el).
Proof. repeat split. Qed.

End AtomicLaws.

(** ** The atomic half of the facade, called on an idle queue *)

Section FacadeLaws.

Import ChromeStorageService ConcurrencyService Facade.

Implicit Types (el : EventLoop unit) (this : Facade.ChromeStorageService).

(** An operation that succeeds at its first attempt, submitted through
    [executeAtomicWithRetry] to an idle queue. *)
Lemma executeAtomicWithRetry_idle_first {T} config (op : Async T) n
    (el : EventLoop T) w' a :
  idle el -> 0 < n ->
  run op (fst (generateOperationId (world el))) = (w', Ok a) ->
  exists (el' : EventLoop T) latency latency',
    executeAtomicWithRetry config op n el = (el', Some (Ok a))
    /\ idle el'
    /\ world el'
       = service_recordOperation config true latency'
           (service_recordOperation config true latency w')
    /\ totalOperations (metrics (writeQueue el'))
       = totalOperations (metrics (writeQueue el)) + 1.
Proof.
  intros Hidle Hn Hop. unfold executeAtomicWithRetry.
  rewrite executeAtomic_idle by exact Hidle. unfold enqueued_alone.
  rewrite (run_executeWithRetry_first config op n _ w' a Hn Hop). simpl.
  eexists _, _, _. split; [ reflexivity | ].
  split; [ repeat split | ]. split; reflexivity.
Qed.

Lemma saveAtomic_canonical this k input m el :
  idle el -> reliable (world el) -> persisted k (world el) = Some m ->
  attempts_allowed this -> truthy_string (id input) = true ->
  exists el',
    saveAtomic this k input el = (el', Some (Ok tt))
    /\ idle el' /\ reliable (world el')
    /\ persisted k (world el')
       = Some (assigned m (id input)
                 (saved m input (id input) (clock (world el)))).
Proof.
  intros Hidle Hrel Hm Hcfg Hid. unfold saveAtomic.
  destruct (concurrencyService this) as [config | ] eqn:Hsvc.
  - destruct (executeAtomicWithRetry_idle_first config
                (saveAtomic_operation k input) (maxRetries config) el
                _ tt Hidle (Hcfg config Hsvc)
                (run_saveAtomic_operation k input m _
                   (reliable_generated _ Hrel)
                   (eq_trans (persisted_generated k _) Hm) Hid))
      as (el' & l & l' & Hrun & Hidle' & Hw & _).
    exists el'. split; [ exact Hrun | ]. split; [ exact Hidle' | ].
    rewrite Hw, clock_generated. split.
    + apply reliable_recorded, reliable_recorded, reliable_store,
        reliable_generated, Hrel.
    + rewrite !persisted_recorded. apply persisted_store.
  - unfold call. rewrite (run_saveRecord k input m) by assumption. simpl.
    eexists. split; [ reflexivity | ].
    split; [ exact Hidle | ]. split.
    + apply reliable_store, Hrel.
    + apply persisted_store.
Qed.

Lemma deleteAtomic_present this k i m r el :
  idle el -> reliable (world el) -> persisted k (world el) = Some m ->
  m !! "hasOwnProperty" = None -> inherited i = false ->
  m !! i = Some r ->
  forall config, concurrencyService this = Some config ->
    0 < maxRetries config ->
    exists el',
      deleteAtomic this k i el = (el', Some (Ok tt))
      /\ idle el' /\ reliable (world el')
      /\ persisted k (world el') = Some (delete i m).
Proof.
  intros Hidle Hrel Hm Hhas Hi Hr config Hsvc Hn.
  unfold deleteAtomic. rewrite Hsvc.
  pose proof (run_deleteAtomic_operation_present k i m r _
                (reliable_generated _ Hrel)
                (eq_trans (persisted_generated k _) Hm) Hhas Hr) as Hop.
  rewrite Hi in Hop.
  destruct (executeAtomicWithRetry_idle_first config
              (deleteAtomic_operation k i) (maxRetries config) el
              _ tt Hidle Hn Hop)
    as (el' & l & l' & Hrun & Hidle' & Hw & _).
  exists el'. split; [ exact Hrun | ]. split; [ exact Hidle' | ].
  rewrite Hw. split.
  - apply reliable_recorded, reliable_recorded, reliable_store,
      reliable_generated, Hrel.
  - rewrite !persisted_recorded. apply persisted_store.
Qed.

Lemma deleteAtomic_absent this k i m el :
  idle el -> reliable (world el) -> persisted k (world el) = Some m ->
  m !! "hasOwnProperty" = None -> inherited i = false ->
  m !! i = None -> attempts_allowed this ->
  exists el',
    deleteAtomic this k i el = (el', Some (Ok tt))
    /\ idle el' /\ reliable (world el')
    /\ persisted k (world el') = Some m.
Proof.
  intros Hidle Hrel Hm Hhas Hi Hr Hcfg. unfold deleteAtomic.
  destruct (concurrencyService this) as [config | ] eqn:Hsvc.
  - destruct (executeAtomicWithRetry_idle_first config
                (deleteAtomic_operation k i) (maxRetries config) el
                _ tt Hidle (Hcfg config Hsvc)
                (run_deleteAtomic_operation_absent k i m _
                   (reliable_generated _ Hrel)
                   (eq_trans (persisted_generated k _) Hm) Hhas Hr))
      as (el' & l & l' & Hrun & Hidle' & Hw & _).
    exists el'. split; [ exact Hrun | ]. split; [ exact Hidle' | ].
    rewrite Hw. split.
    + apply reliable_recorded, reliable_recorded, reliable_generated, Hrel.
    + rewrite !persisted_recorded, persisted_generated. exact Hm.
  - unfold call. rewrite (run_deleteRecord_absent k i m) by assumption. simpl.
    eexists. split; [ reflexivity | ].
    split; [ exact Hidle | ]. split.
    + apply reliable_store, Hrel.
    + apply persisted_store.
Qed.

End FacadeLaws.

(** ** Deleting *)

Section Deleting.

Import ChromeStorageService Facade.

Lemma reliable_example_world : reliable example_world.
Proof. reflexivity. Qed.

Lemma persisted_prompts_example_world :
  persisted PromptStore example_world = Some {[ "p1" := example_prompt ]}.
Proof. reflexivity. Qed.

Lemma persisted_contexts_example_world :
  persisted ContextStore example_world = Some {[ "c1" := example_context ]}.
Proof. reflexivity. Qed.

Lemma stored_record_store k i m w :
  stored_record k i (store k m w) = m !! i.
Proof. unfold stored_record. rewrite persisted_store. reflexivity. Qed.

Lemma stored_record_sleep k i ms w :
  stored_record k i (sleep ms w) = stored_record k i w.
Proof. reflexivity. Qed.

(** The atomic delete of an id that is in the map removes it, by a
    replacing write: for an id that names no member of [Object.prototype],
    in a map that keeps no record under the key [hasOwnProperty]. *)
Lemma deleteAtomic_removes this k i m r el config :
  idle el -> reliable (world el) -> persisted k (world el) = Some m ->
  m !! "hasOwnProperty" = None -> inherited i = false ->
  m !! i = Some r ->
  concurrencyService this = Some config -> 0 < maxRetries config ->
  exists el',
    deleteAtomic this k i el = (el', Some (Ok tt))
    /\ stored_record k i (world el') = None
    /\ persisted k (world el') = Some (delete i m).
Proof.
  intros Hidle Hrel Hm Hhas Hi Hr Hsvc Hn.
  destruct (deleteAtomic_present this k i m r el Hidle Hrel Hm Hhas Hi Hr
              config Hsvc Hn)
    as (el' & Hrun & _ & _ & Hp).
  exists el'. split; [ exact Hrun | ]. split; [ | exact Hp ].
  unfold stored_record. rewrite Hp. simpl. apply lookup_delete_eq.
Qed.

(** Deleting an id that is not in the map succeeds and leaves the map as
    it is, through each of the four operations: for an id that names no
    member of [Object.prototype], in a map that keeps no record under the
    key [hasOwnProperty]. *)
Lemma delete_absent_succeeds this k i m el :
  idle el -> reliable (world el) -> persisted k (world el) = Some m ->
  m !! "hasOwnProperty" = None -> inherited i = false ->
  m !! i = None -> attempts_allowed this ->
  (exists w',
     run (deleteRecord k i) (world el) = (w', Ok tt)
     /\ persisted k w' = Some m)
  /\ (exists el',
        deleteAtomic this k i el = (el', Some (Ok tt))
        /\ persisted k (world el') = Some m).
Proof.
  intros Hidle Hrel Hm Hhas Hi Hr Hcfg. split.
  - eexists. split; [ apply (run_deleteRecord_absent k i m); assumption | ].
    apply persisted_store.
  - destruct (deleteAtomic_absent this k i m el Hidle Hrel Hm Hhas Hi Hr Hcfg)
      as (el' & Hrun & _ & _ & Hp).
    exists el'. split; assumption.
Qed.

(** Deleting an id that is not in the map but names a member of
    [Object.prototype] is rejected by [deletePrompt] and [deleteContext]:
    the read that verifies finds the inherited member. *)
Lemma delete_inherited_rejects :
  stored_record PromptStore "toString" example_world = None
  /\ snd (run (deletePrompt "toString") example_world)
     = Throw (new_Error
         "deletePrompt failed after retries: delete did not persist, retrying").
Proof.
  split; [ reflexivity | ].
  rewrite (run_deleteRecord_inherited PromptStore "toString"
             {[ "p1" := example_prompt ]}); reflexivity.
Qed.

(** Through a concurrency service, deleting the same id twice in a row
    succeeds both times, and the second call changes nothing. *)
Lemma deleteAtomic_twice this k i m r el config :
  idle el -> reliable (world el) -> persisted k (world el) = Some m ->
  m !! "hasOwnProperty" = None -> inherited i = false ->
  m !! i = Some r ->
  concurrencyService this = Some config -> 0 < maxRetries config ->
  exists el1 el2,
    deleteAtomic this k i el = (el1, Some (Ok tt))
    /\ deleteAtomic this k i el1 = (el2, Some (Ok tt))
    /\ persisted k (world el1) = Some (delete i m)
    /\ persisted k (world el2) = Some (delete i m).
Proof.
  intros Hidle Hrel Hm Hhas Hi Hr Hsvc Hn.
  destruct (deleteAtomic_present this k i m r el Hidle Hrel Hm Hhas Hi Hr
              config Hsvc Hn)
    as (el1 & Hrun1 & Hidle1 & Hrel1 & Hp1).
  destruct (deleteAtomic_absent this k i (delete i m) el1 Hidle1 Hrel1 Hp1)
    as (el2 & Hrun2 & _ & _ & Hp2).
  { apply lookup_delete_None. right. exact Hhas. }
  { exact Hi. }
  { apply lookup_delete_eq. }
  { intros config' Hsvc'. rewrite Hsvc in Hsvc'.
    injection Hsvc' as <-. exact Hn. }
  exists el1, el2. repeat split; assumption.
Qed.

(** C1 (a defect of the code).  [deletePrompt] and [deleteContext] write the
    map with the merging mode of [writePromptsMap] / [writeContextsMap],
    not the replacing one: on a store that holds the id, every pass puts the
    record back, the verification fails three times, and the call rejects
    with the record still in the persisted map.  The same happens through
    [deletePromptAtomic] when the facade has no concurrency service. *)
Theorem deletePrompt_puts_the_record_back :
  run (deletePrompt "p1") example_world
  = (sleep 20 (sleep 20 (sleep 20
       (store PromptStore {[ "p1" := example_prompt ]} example_world))),
     Throw (new_Error
       "deletePrompt failed after retries: delete did not persist, retrying"))
  /\ stored_record PromptStore "p1" (fst (run (deletePrompt "p1") example_world))
     = Some example_prompt
  /\ snd (run (deleteContext "c1") example_world)
     = Throw (new_Error
         "deleteContext failed after retries: delete did not persist, retrying")
  /\ stored_record ContextStore "c1" (fst (run (deleteContext "c1") example_world))
     = Some example_context
  /\ snd (deletePromptAtomic (mkService None) "p1" (fresh example_world))
     = Some (Throw (new_Error
         "deletePrompt failed after retries: delete did not persist, retrying")).
Proof.
  assert (Hp : run (deletePrompt "p1") example_world
               = (sleep 20 (sleep 20 (sleep 20
                    (store PromptStore {[ "p1" := example_prompt ]}
                           example_world))),
                  Throw (new_Error
                    "deletePrompt failed after retries: delete did not persist, retrying"))).
  { apply (run_deleteRecord_present PromptStore "p1" _ example_prompt).
    - exact reliable_example_world.
    - exact persisted_prompts_example_world.
    - reflexivity.
    - apply lookup_singleton_eq. }
  assert (Hc : run (deleteContext "c1") example_world
               = (sleep 20 (sleep 20 (sleep 20
                    (store ContextStore {[ "c1" := example_context ]}
                           example_world))),
                  Throw (new_Error
                    "deleteContext failed after retries: delete did not persist, retrying"))).
  { apply (run_deleteRecord_present ContextStore "c1" _ example_context).
    - exact reliable_example_world.
    - exact persisted_contexts_example_world.
    - reflexivity.
    - apply lookup_singleton_eq. }
  split; [ exact Hp | ]. split.
  { rewrite Hp. simpl. rewrite !stored_record_sleep, stored_record_store.
    apply lookup_singleton_eq. }
  split; [ rewrite Hc; reflexivity | ]. split.
  { rewrite Hc. simpl. rewrite !stored_record_sleep, stored_record_store.
    apply lookup_singleton_eq. }
  unfold deletePromptAtomic, deleteAtomic, call. simpl.
  fold (deletePrompt "p1"). rewrite Hp. reflexivity.
Qed.

(** C8 (the defect of C1 seen from the caller).  Deleting an id that is in
    the map twice in a row with [deletePrompt]: the first call already
    rejects, and so does the second, the record being still there. *)
Theorem deletePrompt_twice_rejects_twice :
  snd (run (deletePrompt "p1") example_world)
  = Throw (new_Error
      "deletePrompt failed after retries: delete did not persist, retrying")
  /\ snd (run (deletePrompt "p1") (fst (run (deletePrompt "p1") example_world)))
     = Throw (new_Error
         "deletePrompt failed after retries: delete did not persist, retrying")
  /\ stored_record PromptStore "p1"
       (fst (run (deletePrompt "p1")
               (fst (run (deletePrompt "p1") example_world))))
     = Some example_prompt.
Proof.
  assert (H1 : run (deletePrompt "p1") example_world
               = (sleep 20 (sleep 20 (sleep 20
                    (store PromptStore {[ "p1" := example_prompt ]}
                           example_world))),
                  Throw (new_Error
                    "deletePrompt failed after retries: delete did not persist, retrying"))).
  { apply (run_deleteRecord_present PromptStore "p1" _ example_prompt).
    - exact reliable_example_world.
    - exact persisted_prompts_example_world.
    - reflexivity.
    - apply lookup_singleton_eq. }
  rewrite H1. simpl fst. simpl snd.
  rewrite (run_deleteRecord_present PromptStore "p1"
             {[ "p1" := example_prompt ]} example_prompt).
  - split; [ reflexivity | ]. split; [ reflexivity | ].
    simpl. rewrite !stored_record_sleep, stored_record_store.
    apply lookup_singleton_eq.
  - exact reliable_example_world.
  - rewrite !persisted_sleep. apply persisted_store.
  - reflexivity.
  - apply lookup_singleton_eq.
Qed.

End Deleting.

(** ** Saving *)

Section Saving.

Import ChromeStorageService Facade.

Lemma createdAt_for_kept r c input now :
  createdAt r = Some c -> c <> 0 -> createdAt_for (Some r) input now = c.
Proof.
  intros Hc Hnz. unfold createdAt_for, or_number. simpl. rewrite Hc. simpl.
  destruct (c =? 0) eqn:E; [ lia | ]. simpl. rewrite E. reflexivity.
Qed.

Lemma createdAt_for_nonzero prev input now :
  now <> 0 -> createdAt_for prev input now <> 0.
Proof.
  intros Hnow. unfold createdAt_for, or_number, or_else, truthy_number.
  destruct (prev ≫= createdAt) as [a | ]; [ destruct (a =? 0) eqn:Ea | ];
    simpl; rewrite ?Ea;
    try (destruct (createdAt input) as [b | ];
         [ destruct (b =? 0) eqn:Eb | ]);
    lia.
Qed.

Lemma createdAt_saved m input i now :
  createdAt (saved m input i now) = Some (createdAt_for (m !! i) input now).
Proof. reflexivity. Qed.

Lemma updatedAt_saved m input i now :
  updatedAt (saved m input i now) = Some now.
Proof. reflexivity. Qed.

Lemma idle_elapse d (el : EventLoop unit) : idle el -> idle (step (Elapse d) el).
Proof. intros H. exact H. Qed.

(** What a save leaves under [__proto__] when the map has no property of
    that name: nothing.  The call resolves all the same, the read that
    verifies the write finding the prototype of the map. *)
Lemma run_saveRecord_proto k input m w :
  reliable w -> persisted k w = Some m ->
  id input = "__proto__" -> m !! "__proto__" = None ->
  run (saveRecord k input) w = (store k m w, Ok tt).
Proof.
  intros H Hm Hid Hnone.
  rewrite (run_saveRecord k input m) by (try rewrite Hid; auto).
  rewrite Hid, assigned_proto by exact Hnone. reflexivity.
Qed.

Lemma carries_createdAt_saved (m : gmap string Entity) input i now r :
  m !! i = Some r -> carries_createdAt r input now (saved m input i now).
Proof.
  intros Hr. unfold carries_createdAt. rewrite createdAt_saved, Hr.
  unfold createdAt_for, or_number, or_else, truthy_number. simpl.
  split.
  - intros c Hc Hnz. rewrite Hc.
    destruct (c =? 0) eqn:E; [ lia | ]. simpl. rewrite E. reflexivity.
  - intros Hfalsy.
    assert (Hb : match createdAt r with
                 | Some n => negb (n =? 0)
                 | None => false
                 end = false).
    { destruct Hfalsy as [-> | ->]; reflexivity. }
    rewrite Hb. split.
    + intros c Hc Hnz. rewrite Hc.
      destruct (c =? 0) eqn:E; [ lia | reflexivity ].
    + intros [-> | ->]; reflexivity.
Qed.

(** The claim of C3 without its restriction fails: a save that targets a
    stored record whose [createdAt] is missing, or is 0, gives the record
    the current time as its [createdAt]. *)
Lemma save_dates_an_undated_record :
  stored_record PromptStore "p1" undated_world = Some undated_prompt
  /\ createdAt undated_prompt = None
  /\ snd (run (savePrompt edited_prompt) undated_world) = Ok tt
  /\ createdAt <$> stored_record PromptStore "p1"
                     (fst (run (savePrompt edited_prompt) undated_world))
     = Some (Some 100)
  /\ stored_record PromptStore "p1" epoch_world = Some epoch_prompt
  /\ createdAt epoch_prompt = Some 0
  /\ snd (run (savePrompt edited_prompt) epoch_world) = Ok tt
  /\ createdAt <$> stored_record PromptStore "p1"
                     (fst (run (savePrompt edited_prompt) epoch_world))
     = Some (Some 100).
Proof.
  assert (Hu : run (savePrompt edited_prompt) undated_world
               = (store PromptStore
                    (<["p1" := saved {[ "p1" := undated_prompt ]} edited_prompt
                                 "p1" 100]> {[ "p1" := undated_prompt ]})
                    undated_world, Ok tt)).
  { unfold savePrompt.
    rewrite (run_saveRecord PromptStore edited_prompt
               {[ "p1" := undated_prompt ]}) by reflexivity.
    rewrite assigned_ne by discriminate. reflexivity. }
  assert (He : run (savePrompt edited_prompt) epoch_world
               = (store PromptStore
                    (<["p1" := saved {[ "p1" := epoch_prompt ]} edited_prompt
                                 "p1" 100]> {[ "p1" := epoch_prompt ]})
                    epoch_world, Ok tt)).
  { unfold savePrompt.
    rewrite (run_saveRecord PromptStore edited_prompt
               {[ "p1" := epoch_prompt ]}) by reflexivity.
    rewrite assigned_ne by discriminate. reflexivity. }
  rewrite Hu, He. simpl fst. simpl snd. rewrite !stored_record_store.
  rewrite !lookup_insert_eq.
  repeat split; reflexivity.
Qed.

(** C3, as it holds.  A save that targets an id that is in the map keeps
    the [createdAt] of the stored record when that is other than 0, gives
    the record its own [createdAt] when the stored one is missing or 0,
    or else the current time, and sets [updatedAt] to the current time,
    through [savePrompt] / [saveContext] and through [savePromptAtomic] /
    [saveContextAtomic]; and of two saves to the same id in a row, at a
    time other than 0 and for an id other than [__proto__], the second
    keeps the [createdAt] that the first one established. *)
Theorem save_keeps_createdAt this k input m el :
  idle el -> reliable (world el) -> persisted k (world el) = Some m ->
  attempts_allowed this -> truthy_string (id input) = true ->
  (forall r,
     m !! id input = Some r ->
     (exists w' r',
        run (saveRecord k input) (world el) = (w', Ok tt)
        /\ stored_record k (id input) w' = Some r'
        /\ carries_createdAt r input (clock (world el)) r'
        /\ updatedAt r' = Some (clock (world el)))
     /\ (exists el' r',
           saveAtomic this k input el = (el', Some (Ok tt))
           /\ stored_record k (id input) (world el') = Some r'
           /\ carries_createdAt r input (clock (world el)) r'
           /\ updatedAt r' = Some (clock (world el))))
  /\ (forall input' d,
        id input' = id input -> id input <> "__proto__" ->
        clock (world el) <> 0 ->
        exists el1 el2 r1 r2 c,
          saveAtomic this k input el = (el1, Some (Ok tt))
          /\ saveAtomic this k input' (step (Elapse d) el1) = (el2, Some (Ok tt))
          /\ stored_record k (id input) (world el1) = Some r1
          /\ stored_record k (id input) (world el2) = Some r2
          /\ createdAt r1 = Some c
          /\ createdAt r2 = Some c
          /\ updatedAt r2 = Some (clock (world el1) + Z.max 0 d)).
Proof.
  intros Hidle Hrel Hm Hcfg Hid.
  destruct (saveAtomic_canonical this k input m el Hidle Hrel Hm Hcfg Hid)
    as (el1 & Hrun1 & Hidle1 & Hrel1 & Hp1).
  split.
  - intros r Hr.
    rewrite (assigned_present m (id input) _ r Hr) in Hp1. split.
    + eexists _, _. split; [ apply (run_saveRecord k input m); assumption | ].
      rewrite (assigned_present m (id input) _ r Hr).
      rewrite stored_record_store, lookup_insert_eq.
      split; [ reflexivity | ].
      split; [ apply carries_createdAt_saved, Hr | apply updatedAt_saved ].
    + exists el1. eexists. split; [ exact Hrun1 | ].
      unfold stored_record. rewrite Hp1. simpl. rewrite lookup_insert_eq.
      split; [ reflexivity | ].
      split; [ apply carries_createdAt_saved, Hr | apply updatedAt_saved ].
  - intros input' d Hsame Hproto Hclock.
    rewrite assigned_ne in Hp1 by exact Hproto.
    destruct (saveAtomic_canonical this k input' _ (step (Elapse d) el1)
                (idle_elapse d el1 Hidle1) Hrel1 Hp1 Hcfg)
      as (el2 & Hrun2 & _ & _ & Hp2).
    { rewrite Hsame. exact Hid. }
    rewrite Hsame, assigned_ne in Hp2 by exact Hproto.
    exists el1, el2. eexists _, _, _.
    split; [ exact Hrun1 | ]. split; [ exact Hrun2 | ].
    unfold stored_record. rewrite Hp1, Hp2. simpl.
    rewrite !lookup_insert_eq.
    split; [ reflexivity | ]. split; [ reflexivity | ].
    split; [ apply createdAt_saved | ].
    rewrite createdAt_saved, updatedAt_saved, lookup_insert_eq.
    split; [ | reflexivity ].
    f_equal. apply createdAt_for_kept; [ apply createdAt_saved | ].
    apply createdAt_for_nonzero, Hclock.
Qed.

(** The theorem at work: an edit of the example prompt, created at 5 and
    edited at 100, then a second edit five milliseconds later, with the
    default concurrency service. *)
Lemma save_keeps_createdAt_witness :
  (exists el' r',
     saveAtomic (mkService (Some DEFAULT_CONCURRENCY_CONFIG)) PromptStore
                edited_prompt (fresh example_world)
     = (el', Some (Ok tt))
     /\ stored_record PromptStore "p1" (world el') = Some r'
     /\ carries_createdAt example_prompt edited_prompt 100 r'
     /\ updatedAt r' = Some 100)
  /\ (exists el1 el2 r1 r2 c,
        saveAtomic (mkService (Some DEFAULT_CONCURRENCY_CONFIG)) PromptStore
                   edited_prompt (fresh example_world)
        = (el1, Some (Ok tt))
        /\ saveAtomic (mkService (Some DEFAULT_CONCURRENCY_CONFIG)) PromptStore
                      edited_prompt (step (Elapse 5) el1)
           = (el2, Some (Ok tt))
        /\ stored_record PromptStore "p1" (world el1) = Some r1
        /\ stored_record PromptStore "p1" (world el2) = Some r2
        /\ createdAt r1 = Some c
        /\ createdAt r2 = Some c
        /\ updatedAt r2 = Some (clock (world el1) + Z.max 0 5)).
Proof.
  destruct (save_keeps_createdAt
              (mkService (Some DEFAULT_CONCURRENCY_CONFIG)) PromptStore
              edited_prompt {[ "p1" := example_prompt ]}
              (fresh example_world))
    as [Hkept Htwice].
  - repeat split.
  - reflexivity.
  - reflexivity.
  - intros config [= <-]. reflexivity.
  - reflexivity.
  - split.
    + apply (Hkept example_prompt). reflexivity.
    + apply (Htwice edited_prompt 5); [ reflexivity | discriminate | discriminate ].
Defined.

End Saving.

(** ** Listing *)

Section ListingLaws.

Import ChromeStorageService.

Variable localeCompare : string -> string -> Z.

Hypothesis localeCompare_total :
  forall a b, localeCompare a b <= 0 \/ localeCompare b a <= 0.

Hypothesis localeCompare_trans :
  forall a b c,
    localeCompare a b <= 0 -> localeCompare b c <= 0 -> localeCompare a c <= 0.

Lemma inOrder_spec m a b :
  inOrder localeCompare m a b
  <-> createdAt_of m a < createdAt_of m b
      \/ (createdAt_of m a = createdAt_of m b
          /\ localeCompare (id a) (id b) <= 0).
Proof.
  unfold inOrder, compareFn.
  destruct (createdAt_of m a =? createdAt_of m b) eqn:E; simpl.
  - apply Z.eqb_eq in E. split; [ intros H; right; auto | ].
    intros [H | [_ H]]; [ lia | exact H ].
  - apply Z.eqb_neq in E. split; [ intros H; left; lia | ].
    intros [H | [H _]]; lia.
Qed.

#[local] Instance inOrder_total m : Total (inOrder localeCompare m).
Proof.
  intros a b. rewrite !inOrder_spec.
  destruct (localeCompare_total (id a) (id b)); lia.
Qed.

#[local] Instance inOrder_trans m : Transitive (inOrder localeCompare m).
Proof.
  intros a b c. rewrite !inOrder_spec.
  intros [H1 | [H1 L1]] [H2 | [H2 L2]]; try (left; lia).
  right. split; [ lia | ]. eapply localeCompare_trans; eassumption.
Qed.

Lemma StronglySorted_among {A} (R1 R2 : relation A) (l : list A) :
  (forall x y, x ∈ l -> y ∈ l -> R1 x y -> R2 x y) ->
  StronglySorted R1 l -> StronglySorted R2 l.
Proof.
  intros Himp Hs. induction Hs as [ | x l Hs IH Hall]; constructor.
  - apply IH. intros a b Ha Hb. apply Himp; apply elem_of_cons; right; assumption.
  - rewrite Forall_forall in Hall |- *. intros y Hy.
    apply Himp; [ apply elem_of_cons; left; reflexivity
                | apply elem_of_cons; right; exact Hy
                | apply Hall, Hy ].
Qed.

Lemma StronglySorted_fmap_inv {A B} (f : A -> B) (R : relation B) (l : list A) :
  StronglySorted R (f <$> l) -> StronglySorted (fun x y => R (f x) (f y)) l.
Proof.
  induction l as [ | x l IH]; intros H; [ constructor | ].
  rewrite fmap_cons in H.
  apply StronglySorted_inv in H as [Hs Hall]. constructor.
  - apply IH, Hs.
  - rewrite Forall_fmap in Hall. exact Hall.
Qed.

Lemma createdAt_of_listed k (map : MapObject) r :
  keyed_by_id (own map) -> r ∈ Object_values (own map) ->
  createdAt_of map (listed k r) = default 0 (createdAt r).
Proof.
  intros Hk Hr. unfold Object_values in Hr.
  apply list_elem_of_fmap in Hr as [[key r'] [-> Hin]]. simpl.
  apply elem_of_map_to_list in Hin.
  unfold createdAt_of.
  replace (id (listed k r')) with (id r') by (destruct k; reflexivity).
  rewrite (Hk key r' Hin), (member_present map key r' Hin). simpl.
  destruct (createdAt r'); reflexivity.
Qed.

Lemma id_listed k r : id (listed k r) = id r.
Proof. destruct k; reflexivity. Qed.

(** The list [getPrompts] and [getContexts] return for a canonical map. *)
Lemma run_getList k m w :
  reliable w -> persisted k w = Some m ->
  run (getList localeCompare k) w
  = (w, Ok (sort localeCompare (plain m) (listed k <$> Object_values m))).
Proof.
  intros H Hm. unfold getList.
  run_first ltac:(apply run_readMap; eassumption). reflexivity.
Qed.

Lemma sort_sorted k (obj : MapObject) :
  keyed_by_id (own obj) ->
  exists recs,
    sort localeCompare obj (listed k <$> Object_values (own obj))
    = listed k <$> recs
    /\ recs ≡ₚ Object_values (own obj)
    /\ StronglySorted (record_order localeCompare) recs.
Proof.
  intros Hk. unfold sort.
  destruct (Permutation_map_inv (listed k) (Object_values (own obj))
              (merge_sort_Permutation (inOrder localeCompare obj)
                 (listed k <$> Object_values (own obj))))
    as (recs & Heq & Hperm).
  exists recs. split; [ exact Heq | ]. split; [ symmetry; exact Hperm | ].
  pose proof (StronglySorted_merge_sort (inOrder localeCompare obj)
                (listed k <$> Object_values (own obj))) as Hs.
  assert (Hs' : StronglySorted (inOrder localeCompare obj) (listed k <$> recs)).
  { change (listed k <$> recs) with (map (listed k) recs).
    rewrite <- Heq. exact Hs. }
  clear Hs. rename Hs' into Hs. apply StronglySorted_fmap_inv in Hs.
  revert Hs. apply StronglySorted_among. intros x y Hx Hy Hxy.
  apply inOrder_spec in Hxy.
  rewrite !createdAt_of_listed, !id_listed in Hxy
    by (try exact Hk; rewrite Hperm; assumption).
  exact Hxy.
Qed.

(** C4, as it holds.  On a canonical map that keeps every record under
    its own id, as the maps that the service writes do, [getPrompts] and
    [getContexts] return the records of the map, each one once, in
    ascending order of [createdAt] (a missing one counting as 0) and,
    among equal ones, of [id]; a second call on the unchanged store
    returns the same list; and records created at 3, 1 and 2 are listed in
    the order 1, 2, 3. *)
Theorem getList_sorted k m w :
  reliable w -> persisted k w = Some m -> keyed_by_id m ->
  (exists recs,
     run (getList localeCompare k) w = (w, Ok (listed k <$> recs))
     /\ recs ≡ₚ Object_values m
     /\ StronglySorted (record_order localeCompare) recs)
  /\ run (getList localeCompare k) (fst (run (getList localeCompare k) w))
     = run (getList localeCompare k) w
  /\ snd (run (getPrompts localeCompare) three_prompts)
     = Ok (listed PromptStore
             <$> [prompt_created "b" 1; prompt_created "c" 2;
                  prompt_created "a" 3]).
Proof.
  intros H Hm Hk. split; [ | split ].
  - destruct (sort_sorted k (plain m) Hk) as (recs & Heq & Hperm & Hs).
    exists recs. split; [ | split; [ exact Hperm | exact Hs ] ].
    rewrite (run_getList k m) by assumption. cbn [own plain] in Heq.
    rewrite Heq. reflexivity.
  - rewrite (run_getList k m w) by assumption. simpl.
    apply run_getList; assumption.
  - unfold getPrompts. erewrite run_getList; [ | reflexivity | reflexivity ].
    vm_compute. reflexivity.
Qed.

End ListingLaws.

Lemma String_compare_refl (a : string) : String.compare a a = Eq.
Proof.
  induction a as [ | c a IH]; [ reflexivity | ]. simpl.
  unfold Ascii.compare. rewrite N.compare_refl. exact IH.
Qed.

Lemma String_compare_trans (a : string) :
  forall b c,
    String.compare a b <> Gt -> String.compare b c <> Gt ->
    String.compare a c <> Gt.
Proof.
  induction a as [ | x a IH]; intros [ | y b] [ | z c]; simpl;
    try congruence.
  unfold Ascii.compare.
  destruct (N.compare_spec (Ascii.N_of_ascii x) (Ascii.N_of_ascii y)) as [E1 | L1 | G1];
    destruct (N.compare_spec (Ascii.N_of_ascii y) (Ascii.N_of_ascii z)) as [E2 | L2 | G2];
    intros H1 H2; try congruence.
  - rewrite E1, E2, N.compare_refl. apply (IH b c); assumption.
  - rewrite E1. apply N.compare_lt_iff in L2. rewrite L2. discriminate.
  - rewrite <- E2. apply N.compare_lt_iff in L1. rewrite L1. discriminate.
  - assert (L : (Ascii.N_of_ascii x < Ascii.N_of_ascii z)%N) by lia.
    apply N.compare_lt_iff in L. rewrite L. discriminate.
Qed.

Lemma codeUnitCompare_le a b : codeUnitCompare a b <= 0 <-> String.compare a b <> Gt.
Proof.
  unfold codeUnitCompare. destruct (String.compare a b); split;
    intros H; try lia; try discriminate; congruence.
Qed.

Lemma codeUnitCompare_total a b :
  codeUnitCompare a b <= 0 \/ codeUnitCompare b a <= 0.
Proof.
  rewrite !codeUnitCompare_le, (String.compare_antisym b a).
  destruct (String.compare a b); simpl; [ left | left | right ]; congruence.
Qed.

Lemma codeUnitCompare_trans a b c :
  codeUnitCompare a b <= 0 -> codeUnitCompare b c <= 0 ->
  codeUnitCompare a c <= 0.
Proof. rewrite !codeUnitCompare_le. apply String_compare_trans. Qed.

(** The maps the facade writes keep every record under its own id. *)
Lemma keyed_by_id_empty : keyed_by_id ∅.
Proof. intros key r H. rewrite lookup_empty in H. discriminate. Qed.

Lemma keyed_by_id_insert (m : gmap string Entity) (i : string) (r : Entity) :
  keyed_by_id m -> id r = i -> keyed_by_id (<[i := r]> m).
Proof.
  intros Hk Hid key r' H. destruct (decide (i = key)) as [<- | Hne].
  - rewrite lookup_insert_eq in H. injection H as <-. exact Hid.
  - rewrite lookup_insert_ne in H by exact Hne. apply (Hk key r' H).
Qed.


Lemma keyed_by_id_own_assign (obj : MapObject) (i : string) (r : Entity) :
  keyed_by_id (own obj) -> id r = i -> keyed_by_id (own (assign obj i r)).
Proof.
  intros Hk Hid. destruct (own_assign_cases obj i r) as [(_ & _ & ->) | ->].
  - exact Hk.
  - apply keyed_by_id_insert; assumption.
Qed.

Lemma keyed_by_id_assigned (m : gmap string Entity) (i : string) (r : Entity) :
  keyed_by_id m -> id r = i -> keyed_by_id (assigned m i r).
Proof. apply (keyed_by_id_own_assign (plain m)). Qed.

Lemma keyed_by_id_delete (m : gmap string Entity) (i : string) :
  keyed_by_id m -> keyed_by_id (delete i m).
Proof.
  intros Hk key r H. apply lookup_delete_Some in H as [_ H]. apply (Hk key r H).
Qed.

Lemma keyed_by_id_migrate k arr :
  forall (m : MapObject) w,
    keyed_by_id (own m) ->
    forall w' m',
      run (ChromeStorageService.migrate k arr m) w = (w', Ok m') ->
      keyed_by_id (own m').
Proof.
  induction arr as [ | item rest IH]; intros m w Hk w' m' Hrun.
  - injection Hrun as _ <-. exact Hk.
  - simpl in Hrun. rewrite run_bind in Hrun.
    destruct (run (ChromeStorageService.id_or_makeId (id item)) w)
      as [w1 [i | e]]; simpl in Hrun; [ | discriminate ].
    unfold Date_now in Hrun. rewrite run_bind, run_gets in Hrun.
    simpl in Hrun.
    refine (IH _ _ _ w' m' Hrun).
    apply keyed_by_id_own_assign; [ exact Hk | destruct k; reflexivity ].
Qed.

Lemma keyed_by_id_three_prompts :
  keyed_by_id (list_to_map [("a", prompt_created "a" 3);
                            ("b", prompt_created "b" 1);
                            ("c", prompt_created "c" 2)]).
Proof.
  repeat (apply keyed_by_id_insert; [ | reflexivity ]).
  apply keyed_by_id_empty.
Qed.

Lemma keyed_by_id_singleton (r : Entity) :
  keyed_by_id {[ id r := r ]}.
Proof.
  intros key r' H. apply lookup_singleton_Some in H as [<- <-]. reflexivity.
Qed.

(** The theorem at work on three prompts, with the order of the code
    units. *)
Lemma getList_sorted_witness :
  (exists recs,
     run (ChromeStorageService.getList codeUnitCompare PromptStore) three_prompts
     = (three_prompts, Ok (ChromeStorageService.listed PromptStore <$> recs))
     /\ recs ≡ₚ ChromeStorageService.Object_values
                  (list_to_map [("a", prompt_created "a" 3);
                                ("b", prompt_created "b" 1);
                                ("c", prompt_created "c" 2)])
     /\ StronglySorted (record_order codeUnitCompare) recs)
  /\ run (ChromeStorageService.getList codeUnitCompare PromptStore)
         (fst (run (ChromeStorageService.getList codeUnitCompare PromptStore)
                   three_prompts))
     = run (ChromeStorageService.getList codeUnitCompare PromptStore) three_prompts
  /\ snd (run (ChromeStorageService.getPrompts codeUnitCompare) three_prompts)
     = Ok (ChromeStorageService.listed PromptStore
             <$> [prompt_created "b" 1; prompt_created "c" 2;
                  prompt_created "a" 3]).
Proof.
  apply (getList_sorted codeUnitCompare codeUnitCompare_total
           codeUnitCompare_trans PromptStore
           (list_to_map [("a", prompt_created "a" 3);
                         ("b", prompt_created "b" 1);
                         ("c", prompt_created "c" 2)])
           three_prompts).
  - reflexivity.
  - reflexivity.
  - exact keyed_by_id_three_prompts.
Defined.

(** The claim of C4 fails for a map that keeps records under other keys
    than their ids: the comparator looks the [createdAt] of an item up
    under the id of the item, finds nothing, and takes 0 for both; the
    record created at 5 is listed before the one created at 1. *)
Lemma getList_unsorted_off_key :
  persisted PromptStore misfiled_prompts
  = Some (list_to_map [("k1", prompt_created "x" 5);
                       ("k2", prompt_created "y" 1)])
  /\ snd (run (ChromeStorageService.getPrompts codeUnitCompare) misfiled_prompts)
     = Ok (ChromeStorageService.listed PromptStore
             <$> [prompt_created "x" 5; prompt_created "y" 1]).
Proof.
  split; [ reflexivity | ].
  unfold ChromeStorageService.getPrompts.
  erewrite run_getList; [ | reflexivity | reflexivity ].
  vm_compute. reflexivity.
Qed.

(** ** Reading *)

Section Reading.

Import ChromeStorageService.

Lemma run_writeMap_merge_any k m w :
  reliable w ->
  run (writeMap k m false) w = (store k (m ∪ current k w) w, Ok tt).
Proof.
  intros H. unfold writeMap.
  run_first ltac:(apply run_storage_get; exact H).
  run_first ltac:(apply run_storage_set; exact H). reflexivity.
Qed.

Lemma run_makeId w :
  exists w' i, run makeId w = (w', Ok i) /\ same_storage w w'.
Proof.
  unfold makeId. run_first ltac:(apply run_gets).
  run_first ltac:(apply run_act).
  eexists _, _. split; [ reflexivity | ].
  destruct (random w); repeat split.
Qed.

Lemma run_migrate k arr :
  forall (m : MapObject) w,
    exists w' m', run (migrate k arr m) w = (w', Ok m') /\ same_storage w w'.
Proof.
  induction arr as [ | item rest IH]; intros m w.
  - exists w, m. split; [ reflexivity | repeat split ].
  - simpl. unfold id_or_makeId.
    destruct (truthy_string (id item)).
    + run_first ltac:(apply run_ret). run_first ltac:(apply run_gets).
      apply IH.
    + destruct (run_makeId w) as (w1 & i & Hrun & Hs1 & Hs2 & Hs3 & Hs4).
      run_first ltac:(exact Hrun). run_first ltac:(apply run_gets).
      destruct (IH (assign m i (migrated k item i
                                  (or_else (createdAt item) (clock w1)))) w1)
        as (w' & m' & Hrun' & Hs1' & Hs2' & Hs3' & Hs4').
      exists w', m'. split; [ exact Hrun' | ].
      repeat split; congruence.
Qed.

(** On reliable storage the read resolves for every stored value of the
    forms that [StoredValue] covers: with the empty map when there is
    none, with the empty map and a warning when it is a primitive, with the
    object when it is an object of records, with the migrated map when it
    is an array of records -- and with [null] when it is [null]. *)
Lemma readMap_resolves k w :
  reliable w ->
  exists w' ref,
    run (readMap k) w = (w', Ok ref)
    /\ (storage w !! storageKey k = None -> w' = w /\ ref = RObject (plain ∅))
    /\ (forall p, storage w !! storageKey k = Some (VPrimitive p) ->
          ref = RObject (plain ∅)
          /\ console w' = (console w ++ [unexpected_value k])%list)
    /\ (forall m, storage w !! storageKey k = Some (VObject m) ->
          w' = w /\ ref = RObject (plain m))
    /\ (storage w !! storageKey k = Some VNull -> w' = w /\ ref = RNull).
Proof.
  intros H. unfold readMap.
  run_first ltac:(apply run_storage_get; exact H).
  destruct (storage w !! storageKey k) as [[ | p | arr | m] | ] eqn:E.
  - exists w, RNull. split; [ reflexivity | ].
    repeat split; try discriminate; intros; discriminate.
  - eexists _, _. split; [ reflexivity | ]. simpl.
    repeat split; try discriminate; intros; discriminate.
  - destruct (run_migrate k arr (plain ∅) w) as (w1 & m1 & Hrun & Hs1 & Hs2 & _).
    run_first ltac:(exact Hrun).
    assert (H1 : reliable w1) by (unfold reliable in *; congruence).
    erewrite run_try_ok.
    2: { run_first ltac:(apply run_writeMap_merge_any; exact H1).
         reflexivity. }
    eexists _, _. split; [ reflexivity | ].
    repeat split; try discriminate; intros; discriminate.
  - exists w, (RObject (plain m)). split; [ reflexivity | ].
    repeat split; try discriminate; intros; try discriminate; congruence.
  - exists w, (RObject (plain ∅)). split; [ reflexivity | ].
    repeat split; try discriminate; intros; discriminate.
Qed.

(** C2 (a defect of the code).  [typeof null === 'object'], and [null] is
    not an array: a stored [null] passes the test meant for object maps, so
    the read resolves with [null] itself, without a warning and without
    substituting the empty map.  The callers then fail on it: [getPrompts]
    rejects with a [TypeError], and [savePrompt] after three passes. *)
Theorem readPromptsMap_resolves_with_null :
  run readPromptsMap null_world = (null_world, Ok RNull)
  /\ run readContextsMap null_world = (null_world, Ok RNull)
  /\ (forall localeCompare,
        snd (run (getPrompts localeCompare) null_world)
        = Throw (new_TypeError "Cannot convert undefined or null to object"))
  /\ snd (run (savePrompt edited_prompt) null_world)
     = Throw (new_Error
         "savePrompt failed after retries: Cannot read properties of null (reading 'p1')").
Proof.
  split; [ reflexivity | ]. split; [ reflexivity | ].
  split; [ intros localeCompare; reflexivity | ].
  vm_compute. reflexivity.
Qed.

End Reading.

(** ** The outcome of [executeWithRetry] *)

Section RetryTheorems.

Import ConcurrencyService.

Context {T : Type}.
Variable config : ConcurrencyConfig.
Variable op : Async T.
Variable maxRetries : Z.

Lemma first_success_from_bounds w :
  forall remaining j i,
    first_success_from config op maxRetries remaining j w = Some i ->
    (j <= i < j + remaining)%nat
    /\ succeeded (snd (nth_attempt config op maxRetries i w)) = true
    /\ forall i', (j <= i' < i)%nat ->
         succeeded (snd (nth_attempt config op maxRetries i' w)) = false.
Proof.
  induction remaining as [ | remaining IH]; intros j i H; [ discriminate | ].
  simpl in H.
  destruct (succeeded (snd (nth_attempt config op maxRetries j w))) eqn:E.
  - injection H as <-. split; [ lia | ]. split; [ exact E | ]. intros; lia.
  - destruct (IH (S j) i H) as (Hb & Hs & Hmin).
    split; [ lia | ]. split; [ exact Hs | ].
    intros i' Hi'. destruct (decide (i' = j)) as [-> | Hne]; [ exact E | ].
    apply Hmin. lia.
Qed.

Lemma run_retry_loop_course startTime w :
  forall remaining j lastError,
    lastError = last_failure config op maxRetries j w ->
    run (retry_loop config op maxRetries startTime remaining
                    (Z.of_nat j + 1) lastError)
        (before_attempt config op maxRetries j w)
    = match first_success_from config op maxRetries remaining j w with
      | Some i =>
          (service_recordOperation config true
             (clock (fst (nth_attempt config op maxRetries i w)) - startTime)
             (fst (nth_attempt config op maxRetries i w)),
           snd (nth_attempt config op maxRetries i w))
      | None =>
          (service_recordOperation config false
             (clock (before_attempt config op maxRetries (j + remaining) w)
              - startTime)
             (before_attempt config op maxRetries (j + remaining) w),
           Throw (new_Error
             ("Operation failed after " +:+ pretty maxRetries
              +:+ " attempts: "
              +:+ cause (last_failure config op maxRetries (j + remaining) w))))
      end.
Proof.
  induction remaining as [ | remaining IH]; intros j lastError Hlast.
  - cbn [first_success_from].
    rewrite run_retry_loop_O, Nat.add_0_r, Hlast. reflexivity.
  - rewrite run_retry_loop_S. cbn [first_success_from]. unfold nth_attempt at 1.
    destruct (snd (run op (before_attempt config op maxRetries j w)))
      as [a | e] eqn:E; cbn [succeeded].
    + unfold nth_attempt. rewrite E. reflexivity.
    + replace (Z.of_nat j + 1 + 1) with (Z.of_nat (S j) + 1) by lia.
      replace (Z.of_nat j + 1) with (Z.of_nat (S j)) by lia.
      replace (after_failure config maxRetries (Z.of_nat (S j)) e
                 (fst (run op (before_attempt config op maxRetries j w))))
        with (before_attempt config op maxRetries (S j) w)
        by (simpl; rewrite E; reflexivity).
      rewrite (IH (S j) (Some e)).
      * replace (S j + remaining)%nat with (j + S remaining)%nat by lia.
        reflexivity.
      * unfold last_failure, nth_attempt. rewrite E. reflexivity.
Qed.

Lemma timers_after_failure attempt_no e w :
  timers (after_failure config maxRetries attempt_no e w)
  = (timers w
     ++ if attempt_no <? maxRetries
        then [calculateBackoffDelay attempt_no (baseDelayMs config)
                                    (maxDelayMs config)]
        else [])%list.
Proof.
  unfold after_failure.
  destruct (logOperations config); destruct (attempt_no <? maxRetries);
    simpl; rewrite ?app_nil_r; reflexivity.
Qed.

(** C5, as it holds.  [executeWithRetry(op, maxRetries)] runs [op] until an
    attempt succeeds, at most [maxRetries] times, and resolves with the
    result of that attempt; after a failed attempt that is not the last it
    sets one timer of [min(baseDelay * 2^(attempt-1), maxDelay)] and after
    the last none; when every attempt fails it rejects with an [Error]
    whose message is ["Operation failed after N attempts: "] followed by
    the message of the last failure, or by ["Unknown error"] when that
    message is empty or no attempt was made. *)
Theorem executeWithRetry_course w :
  run (executeWithRetry config op maxRetries) w
  = retry_outcome config op maxRetries w
  /\ (forall j,
        first_success_from config op maxRetries (Z.to_nat maxRetries) O w
        = Some j ->
        Z.of_nat (S j) <= maxRetries
        /\ forall i, (i < j)%nat ->
             succeeded (snd (nth_attempt config op maxRetries i w)) = false)
  /\ (forall j e,
        snd (nth_attempt config op maxRetries j w) = Throw e ->
        timers (before_attempt config op maxRetries (S j) w)
        = (timers (fst (nth_attempt config op maxRetries j w))
           ++ if Z.of_nat (S j) <? maxRetries
              then [Z.min (baseDelayMs config * 2 ^ (Z.of_nat (S j) - 1))
                          (maxDelayMs config)]
              else [])%list).
Proof.
  split; [ | split ].
  - unfold executeWithRetry, retry_outcome.
    run_first ltac:(apply run_gets).
    apply (run_retry_loop_course (clock w) w (Z.to_nat maxRetries) O None).
    reflexivity.
  - intros j Hj.
    destruct (first_success_from_bounds w _ _ _ Hj) as (Hb & _ & Hmin).
    split; [ lia | ]. intros i Hi. apply Hmin. lia.
  - intros j e He. cbn [before_attempt]. unfold nth_attempt in He |- *.
    rewrite He. apply timers_after_failure.
Qed.

End RetryTheorems.

(** The theorem at work: three attempts with the default configuration,
    all failing. *)
Lemma executeWithRetry_course_witness :
  run (ConcurrencyService.executeWithRetry DEFAULT_CONCURRENCY_CONFIG
         (failing "boom") 3) example_world
  = retry_outcome DEFAULT_CONCURRENCY_CONFIG (failing "boom") 3 example_world
  /\ timers (before_attempt DEFAULT_CONCURRENCY_CONFIG (failing "boom") 3 1
               example_world)
     = [10]
  /\ timers (before_attempt DEFAULT_CONCURRENCY_CONFIG (failing "boom") 3 3
               example_world)
     = [10; 20].
Proof.
  destruct (executeWithRetry_course DEFAULT_CONCURRENCY_CONFIG (failing "boom")
              3 example_world) as (Hrun & _ & Htimers).
  split; [ exact Hrun | ]. split.
  - exact (Htimers O (new_Error "boom") eq_refl).
  - reflexivity.
Defined.

(** The message of C5 is not the one the code builds, and the cause is
    not always the message of the last failure. *)
Lemma executeWithRetry_message :
  snd (run (ConcurrencyService.executeWithRetry DEFAULT_CONCURRENCY_CONFIG
              (failing "boom") 3) example_world)
  = Throw (new_Error "Operation failed after 3 attempts: boom")
  /\ "Operation failed after 3 attempts: boom"
     <> "operation failed after 3 retries: boom"
  /\ snd (run (ConcurrencyService.executeWithRetry DEFAULT_CONCURRENCY_CONFIG
                 (failing "") 3) example_world)
     = Throw (new_Error "Operation failed after 3 attempts: Unknown error").
Proof.
  split; [ vm_compute; reflexivity | ].
  split; [ discriminate | vm_compute; reflexivity ].
Qed.

(** ** The claims about the queue *)

Section QueueClaims.

Context {T : Type}.

Lemma reachable_invariant (w : World) (schedule : list (Step T)) :
  Invariant (steps schedule (fresh w)).
Proof. apply steps_invariant, fresh_invariant. Qed.

Lemma invariant_single (el : EventLoop T) :
  Invariant el -> (length (running el) <= 1)%nat.
Proof.
  intros [Hp _ _ _ _].
  destruct Hp as [(_ & _ & Hr & _) | op s _ Hr _ | _ Hr _]; rewrite Hr;
    simpl; lia.
Qed.

Lemma invariant_exclusive (el : EventLoop T) :
  Invariant el -> exclusive (trace el).
Proof. intros [_ _ _ Hx _]. unfold exclusive. rewrite Hx. eauto. Qed.

(** Left to itself the worker settles everything that was enqueued. *)
Lemma invariant_drains (el : EventLoop T) :
  Invariant el ->
  exists rest,
    Forall internal rest
    /\ idle (steps rest el)
    /\ settled_ids (trace (steps rest el)) = enqueued_ids (trace el)
    /\ fst <$> outcomes (steps rest el) = enqueued_ids (trace el).
Proof.
  intros Hinv. destruct (quiesce_steps el) as (rest & Hint & Hq).
  exists rest. split; [ exact Hint | ].
  pose proof (quiesce_idle el Hinv) as Hidle. rewrite Hq in Hidle.
  split; [ exact Hidle | ].
  pose proof (steps_invariant rest el Hinv) as [_ Hf Hs _ Ho].
  destruct Hidle as (_ & Hqueue & Hrun & _).
  rewrite Hqueue in Hf. rewrite Hrun in Hs. simpl in Hf, Hs.
  rewrite app_nil_r in Hf, Hs.
  rewrite steps_internal_enqueued in Hf by exact Hint.
  split; [ congruence | ]. rewrite Ho. congruence.
Qed.

(** C7.  Whatever is enqueued and however the event loop schedules it: at
    most one enqueued operation is executing; the operations execute
    strictly one after the other; they are started in the order in which
    they were enqueued; and the worker, left to itself, settles every
    operation that was enqueued and goes idle -- a rejection stops nothing:
    an operation that rejects and one that resolves, enqueued in this
    order, are both started and settled. *)
Theorem queue_serial_and_fifo (w : World) (schedule : list (Step T)) :
  (length (running (steps schedule (fresh w))) <= 1)%nat
  /\ exclusive (trace (steps schedule (fresh w)))
  /\ enqueued_ids (trace (steps schedule (fresh w)))
     = (started_ids (trace (steps schedule (fresh w)))
        ++ (operationId <$> queue (writeQueue (steps schedule (fresh w)))))%list
  /\ (exists rest,
        Forall internal rest
        /\ idle (steps rest (steps schedule (fresh w)))
        /\ settled_ids (trace (steps rest (steps schedule (fresh w))))
           = enqueued_ids (trace (steps schedule (fresh w)))
        /\ fst <$> outcomes (steps rest (steps schedule (fresh w)))
           = enqueued_ids (trace (steps schedule (fresh w))))
  /\ trace (quiesce (steps [CallEnqueue (failing "boom");
                            CallEnqueue (logging "done" (Ok tt))]
                           (fresh two_ids_world)))
     = [Enqueued "op_100_aaaaaa"; Started "op_100_aaaaaa";
        Enqueued "op_100_bbbbbb"; Settled "op_100_aaaaaa" false;
        Started "op_100_bbbbbb"; Settled "op_100_bbbbbb" true].
Proof.
  pose proof (reachable_invariant w schedule) as Hinv.
  split; [ apply invariant_single, Hinv | ].
  split; [ apply invariant_exclusive, Hinv | ].
  split; [ apply (inv_fifo _ Hinv) | ].
  split; [ apply invariant_drains, Hinv | ].
  vm_compute. reflexivity.
Qed.

(** C9, as it holds.  [getQueueDepth()] is the number of operations that
    were enqueued and have not been started; the operation in flight is
    not part of it: the operations enqueued and not settled are those the
    depth counts and the one that is running. *)
Theorem getQueueDepth_counts_waiting (w : World) (schedule : list (Step T)) :
  getQueueDepth (writeQueue (steps schedule (fresh w)))
  = Z.of_nat (length (enqueued_ids (trace (steps schedule (fresh w)))))
    - Z.of_nat (length (started_ids (trace (steps schedule (fresh w)))))
  /\ Z.of_nat (length (enqueued_ids (trace (steps schedule (fresh w)))))
     - Z.of_nat (length (settled_ids (trace (steps schedule (fresh w)))))
     = getQueueDepth (writeQueue (steps schedule (fresh w)))
       + Z.of_nat (length (running (steps schedule (fresh w)))).
Proof.
  pose proof (reachable_invariant w schedule) as [_ Hf Hs _ _].
  unfold getQueueDepth. rewrite Hf, Hs, !length_app, !length_fmap. lia.
Qed.

End QueueClaims.

(** The claim of C9 fails: with one operation in flight and none waiting
    the depth is 0, and with one in flight and two waiting it is 2. *)
Lemma getQueueDepth_leaves_out_the_running :
  length (running (steps [CallEnqueue slow] (fresh example_world))) = 1%nat
  /\ getQueueDepth (writeQueue (steps [CallEnqueue slow] (fresh example_world)))
     = 0
  /\ length (running (steps [CallEnqueue slow; CallEnqueue slow;
                             CallEnqueue slow] (fresh example_world)))
     = 1%nat
  /\ length (queue (writeQueue (steps [CallEnqueue slow; CallEnqueue slow;
                                       CallEnqueue slow] (fresh example_world))))
     = 2%nat
  /\ getQueueDepth (writeQueue (steps [CallEnqueue slow; CallEnqueue slow;
                                      CallEnqueue slow] (fresh example_world)))
     = 2.
Proof. vm_compute. repeat split. Qed.

(** ** Retrying inside one queue entry *)

Section AtomicRetry.

Import ConcurrencyService.

Context {T : Type}.
Variable config : ConcurrencyConfig.

Lemma enqueue_enqueued (op : Async T) (el : EventLoop T) :
  enqueued_ids (trace (enqueue op el))
  = (enqueued_ids (trace el) ++ [snd (generateOperationId (world el))])%list.
Proof.
  destruct el as [[q p m] w r b outs tr].
  unfold enqueue, processQueue, processQueue_loop. simpl.
  destruct p; simpl.
  - rewrite enqueued_ids_snoc. reflexivity.
  - destruct q as [ | h rest]; simpl;
      rewrite !enqueued_ids_snoc; simpl; rewrite app_nil_r; reflexivity.
Qed.

Lemma last_fmap_snoc {A B} (f : A -> B) (l : list A) (l' : list B) (b : B) :
  f <$> l = (l' ++ [b])%list -> exists a, last l = Some a /\ f a = b.
Proof.
  destruct l as [|a l _] using rev_ind; intros H.
  - destruct l'; discriminate.
  - rewrite fmap_app in H. apply app_inj_tail in H as [_ H].
    exists a. split; [ apply last_snoc | exact H ].
Qed.

(** A call of [executeAtomicWithRetry] on a loop that satisfies the
    invariant is one call of [enqueue] with the whole retry loop, followed
    by steps of the worker alone. *)
Lemma executeAtomicWithRetry_entered (op : Async T) (maxRetries : Z)
    (el : EventLoop T) :
  Invariant el ->
  exists rest r,
    Forall internal rest
    /\ executeAtomicWithRetry config op maxRetries el
       = (set_world
            (service_recordOperation config (succeeded r)
               (clock (world (entered config op maxRetries rest el))
                - clock (world el))
               (world (entered config op maxRetries rest el)))
            (entered config op maxRetries rest el),
          Some r)
    /\ idle (entered config op maxRetries rest el)
    /\ exclusive (trace (entered config op maxRetries rest el))
    /\ enqueued_ids (trace (entered config op maxRetries rest el))
       = (enqueued_ids (trace el) ++ [snd (generateOperationId (world el))])%list
    /\ settled_ids (trace (entered config op maxRetries rest el))
       = (enqueued_ids (trace el) ++ [snd (generateOperationId (world el))])%list
    /\ last (outcomes (entered config op maxRetries rest el))
       = Some (snd (generateOperationId (world el)), r).
Proof.
  intros Hinv.
  set (loop := executeWithRetry config op maxRetries).
  pose proof (step_invariant (CallEnqueue loop) el Hinv) as Hinv1.
  cbn [step] in Hinv1.
  destruct (quiesce_steps (enqueue loop el)) as (rest & Hint & Hq).
  pose proof (quiesce_idle _ Hinv1) as Hidle. rewrite Hq in Hidle.
  pose proof (steps_invariant rest _ Hinv1) as Hinv2.
  assert (Hentered : entered config op maxRetries rest el
                     = steps rest (enqueue loop el)) by reflexivity.
  assert (Hids : enqueued_ids (trace (steps rest (enqueue loop el)))
                 = (enqueued_ids (trace el)
                    ++ [snd (generateOperationId (world el))])%list).
  { rewrite steps_internal_enqueued by exact Hint. apply enqueue_enqueued. }
  assert (Hsettled : settled_ids (trace (steps rest (enqueue loop el)))
                     = enqueued_ids (trace (steps rest (enqueue loop el)))).
  { destruct Hinv2 as [_ Hf Hs _ _]. destruct Hidle as (_ & Hqueue & Hrun & _).
    rewrite Hqueue in Hf. rewrite Hrun in Hs. simpl in Hf, Hs.
    rewrite app_nil_r in Hf, Hs. congruence. }
  assert (Houts : fst <$> outcomes (steps rest (enqueue loop el))
                  = (enqueued_ids (trace el)
                     ++ [snd (generateOperationId (world el))])%list).
  { rewrite (inv_outcomes _ Hinv2), Hsettled. exact Hids. }
  apply last_fmap_snoc in Houts as ([i r] & Hlast & Hi). cbn in Hi. subst i.
  exists rest, r. rewrite Hentered.
  split; [ exact Hint | ]. split.
  { unfold executeAtomicWithRetry, executeAtomic, await_enqueue. fold loop.
    cbn [fst snd]. rewrite Hq, Hlast. reflexivity. }
  split; [ exact Hidle | ].
  split; [ apply invariant_exclusive, Hinv2 | ].
  split; [ exact Hids | ].
  split; [ rewrite Hsettled; exact Hids | exact Hlast ].
Qed.

(** C6.  [executeAtomicWithRetry(op, maxRetries)] is [executeAtomic] of the
    function that runs [executeWithRetry(op, maxRetries)].  Whatever has
    happened to the queue before, the call is one call of [enqueue] whose
    operation is the whole retry loop, followed by steps of the worker
    alone: it adds one operation id to those enqueued, the operations of
    the queue have executed strictly one after the other when it returns,
    all of them have settled, and what it returns is the outcome of the
    entry it added.  With two callers, whatever the event loop does next,
    the operations execute strictly one after the other, at most one is
    running, and every operation started before the running one has
    settled -- the second caller's loop starts only once the first
    caller's loop, retries included, is over.  When a second caller calls
    [executeAtomicWithRetry] while the loop of a first, which fails at each
    of its 3 attempts, is in flight, the call resolves, the entry of the
    second is started after that of the first has settled, and the console
    shows the three attempts of the first before the second. *)
Theorem executeAtomicWithRetry_is_one_entry (opA opB : Async T)
    (maxRetriesA maxRetriesB : Z) (w : World) (schedule : list (Step T)) :
  (forall el,
     executeAtomicWithRetry config opA maxRetriesA el
     = executeAtomic config (executeWithRetry config opA maxRetriesA) el)
  /\ (exists rest r,
        Forall internal rest
        /\ executeAtomicWithRetry config opA maxRetriesA
             (steps schedule (fresh w))
           = (set_world
                (service_recordOperation config (succeeded r)
                   (clock (world (entered config opA maxRetriesA rest
                                    (steps schedule (fresh w))))
                    - clock (world (steps schedule (fresh w))))
                   (world (entered config opA maxRetriesA rest
                             (steps schedule (fresh w)))))
                (entered config opA maxRetriesA rest (steps schedule (fresh w))),
              Some r)
        /\ idle (entered config opA maxRetriesA rest (steps schedule (fresh w)))
        /\ exclusive
             (trace (entered config opA maxRetriesA rest
                       (steps schedule (fresh w))))
        /\ enqueued_ids
             (trace (entered config opA maxRetriesA rest
                       (steps schedule (fresh w))))
           = (enqueued_ids (trace (steps schedule (fresh w)))
              ++ [snd (generateOperationId (world (steps schedule (fresh w))))])%list
        /\ settled_ids
             (trace (entered config opA maxRetriesA rest
                       (steps schedule (fresh w))))
           = (enqueued_ids (trace (steps schedule (fresh w)))
              ++ [snd (generateOperationId (world (steps schedule (fresh w))))])%list
        /\ last (outcomes (entered config opA maxRetriesA rest
                             (steps schedule (fresh w))))
           = Some (snd (generateOperationId (world (steps schedule (fresh w)))),
                   r))
  /\ exclusive
       (trace (entered config opB maxRetriesB schedule
                 (entered config opA maxRetriesA [] (fresh w))))
  /\ (length (running
        (entered config opB maxRetriesB schedule
           (entered config opA maxRetriesA [] (fresh w)))) <= 1)%nat
  /\ started_ids
       (trace (entered config opB maxRetriesB schedule
                 (entered config opA maxRetriesA [] (fresh w))))
     = (settled_ids
          (trace (entered config opB maxRetriesB schedule
                    (entered config opA maxRetriesA [] (fresh w))))
        ++ ((fun x => operationId (fst x))
              <$> running
                    (entered config opB maxRetriesB schedule
                       (entered config opA maxRetriesA [] (fresh w)))))%list
  /\ snd (executeAtomicWithRetry DEFAULT_CONCURRENCY_CONFIG
            (logging "B" (Ok tt)) 3
            (entered DEFAULT_CONCURRENCY_CONFIG
               (logging "A" (Throw (new_Error "boom"))) 3 []
               (fresh two_ids_world)))
     = Some (Ok tt)
  /\ trace (fst (executeAtomicWithRetry DEFAULT_CONCURRENCY_CONFIG
                   (logging "B" (Ok tt)) 3
                   (entered DEFAULT_CONCURRENCY_CONFIG
                      (logging "A" (Throw (new_Error "boom"))) 3 []
                      (fresh two_ids_world))))
     = [Enqueued "op_100_aaaaaa"; Started "op_100_aaaaaa";
        Enqueued "op_100_bbbbbb"; Ran "op_100_aaaaaa"; Ran "op_100_aaaaaa";
        Ran "op_100_aaaaaa"; Ran "op_100_aaaaaa";
        Settled "op_100_aaaaaa" false; Started "op_100_bbbbbb";
        Ran "op_100_bbbbbb"; Settled "op_100_bbbbbb" true]
  /\ console
       (world
          (fst (executeAtomicWithRetry DEFAULT_CONCURRENCY_CONFIG
                  (logging "B" (Ok tt)) 3
                  (entered DEFAULT_CONCURRENCY_CONFIG
                     (logging "A" (Throw (new_Error "boom"))) 3 []
                     (fresh two_ids_world)))))
     = ["A"; "A"; "A"; "B"].
Proof.
  split; [ reflexivity | ].
  split.
  { apply executeAtomicWithRetry_entered, reachable_invariant. }
  assert (Hinv : Invariant
                   (entered config opB maxRetriesB schedule
                      (entered config opA maxRetriesA [] (fresh w)))).
  { apply steps_invariant, steps_invariant, fresh_invariant. }
  split; [ apply invariant_exclusive, Hinv | ].
  split; [ apply invariant_single, Hinv | ].
  split; [ apply (inv_started _ Hinv) | ].
  split; [ | split ]; vm_compute; reflexivity.
Qed.

End AtomicRetry.

(** ** Counting atomic operations *)

Section Counting.

Import ConcurrencyService.

Context {T : Type}.
Variable config : ConcurrencyConfig.

Lemma total_getMetrics (el : EventLoop T) :
  totalOperations (getMetrics el)
  = totalOperations (serviceMetrics (world el))
    + totalOperations (metrics (writeQueue el)).
Proof. reflexivity. Qed.

(** C10, as it holds.  A successful operation that records nothing itself
    and is executed through [executeAtomic] on an idle queue is counted
    once by the wrapper of the queue and, when [enableMetrics] is on, once
    more by the service: the combined [totalOperations] grows by 2, or by 1
    with [enableMetrics] off.  Through [executeAtomicWithRetry] the retry
    loop records it too: the combined count grows by 3, or by 1 with
    [enableMetrics] off. *)
Theorem executeAtomic_counted (op : Async T) (el : EventLoop T) (a : T) :
  idle el ->
  snd (run op (fst (generateOperationId (world el)))) = Ok a ->
  totalOperations
    (serviceMetrics (fst (run op (fst (generateOperationId (world el))))))
  = totalOperations (serviceMetrics (world el)) ->
  totalOperations (getMetrics (fst (executeAtomic config op el)))
  = totalOperations (getMetrics el) + (if enableMetrics config then 2 else 1)
  /\ totalOperations (metrics (writeQueue (fst (executeAtomic config op el))))
     = totalOperations (metrics (writeQueue el)) + 1
  /\ forall maxRetries,
       0 < maxRetries ->
       totalOperations
         (getMetrics (fst (executeAtomicWithRetry config op maxRetries el)))
       = totalOperations (getMetrics el)
         + (if enableMetrics config then 3 else 1).
Proof.
  intros Hidle Hok Hquiet.
  destruct (run op (fst (generateOperationId (world el)))) as [w' r] eqn:Hrun.
  simpl in Hok, Hquiet. subst r.
  split; [ | split ].
  - rewrite executeAtomic_idle by exact Hidle. rewrite !total_getMetrics.
    unfold enqueued_alone. rewrite Hrun. simpl.
    rewrite total_recorded, Hquiet.
    destruct (enableMetrics config); lia.
  - rewrite executeAtomic_idle by exact Hidle.
    unfold enqueued_alone. rewrite Hrun. simpl. lia.
  - intros maxRetries Hn.
    destruct (executeAtomicWithRetry_idle_first config op maxRetries el w' a
                Hidle Hn Hrun) as (el' & l & l' & Heq & _ & Hw & Hq).
    rewrite Heq. cbn [fst]. rewrite !total_getMetrics, Hw, Hq.
    rewrite !total_recorded, Hquiet.
    destruct (enableMetrics config); lia.
Qed.

End Counting.

(** The theorem at work with the default configuration. *)
Lemma executeAtomic_counted_witness :
  totalOperations
    (ConcurrencyService.getMetrics
       (fst (ConcurrencyService.executeAtomic DEFAULT_CONCURRENCY_CONFIG
               (ret tt) (fresh example_world))))
  = totalOperations (ConcurrencyService.getMetrics (fresh (T:=unit) example_world))
    + 2
  /\ totalOperations
       (metrics (writeQueue
          (fst (ConcurrencyService.executeAtomic DEFAULT_CONCURRENCY_CONFIG
                  (ret tt) (fresh example_world)))))
     = totalOperations (metrics (writeQueue (fresh (T:=unit) example_world))) + 1
  /\ forall maxRetries,
       0 < maxRetries ->
       totalOperations
         (ConcurrencyService.getMetrics
            (fst (ConcurrencyService.executeAtomicWithRetry
                    DEFAULT_CONCURRENCY_CONFIG (ret tt) maxRetries
                    (fresh example_world))))
       = totalOperations (ConcurrencyService.getMetrics (fresh (T:=unit) example_world))
         + 3.
Proof.
  apply (executeAtomic_counted DEFAULT_CONCURRENCY_CONFIG (ret tt)
           (fresh example_world) tt).
  - repeat split.
  - reflexivity.
  - reflexivity.
Defined.

(** The claim of C10 fails twice: through [executeAtomicWithRetry] a
    successful operation raises the combined count by 3, and with
    [enableMetrics] off [executeAtomic] raises it by 1. *)
Lemma atomic_operation_not_counted_twice :
  totalOperations (ConcurrencyService.getMetrics (fresh (T:=unit) example_world)) = 0
  /\ totalOperations
       (ConcurrencyService.getMetrics
          (fst (ConcurrencyService.executeAtomicWithRetry
                  DEFAULT_CONCURRENCY_CONFIG (ret tt) 3 (fresh example_world))))
     = 3
  /\ totalOperations
       (ConcurrencyService.getMetrics
          (fst (ConcurrencyService.executeAtomic quiet_config (ret tt)
                  (fresh example_world))))
     = 1.
Proof. vm_compute. repeat split. Qed.

(** * Further properties of the code *)

Section KeepLaws.

Context {R : relation World} `{!PreOrder R}.

Lemma keeps_ret {A} (a : A) : keeps R (ret a).
Proof. intros w. rewrite run_ret. reflexivity. Qed.

Lemma keeps_throw {A} (e : Error) : keeps R (throw e : Async A).
Proof. intros w. rewrite run_throw. reflexivity. Qed.

Lemma keeps_gets {A} (f : World -> A) : keeps R (gets f).
Proof. intros w. rewrite run_gets. reflexivity. Qed.

Lemma keeps_bind {A B} (m : Async A) (f : A -> Async B) :
  keeps R m -> (forall a, keeps R (f a)) -> keeps R (bind m f).
Proof.
  intros Hm Hf w. rewrite run_bind. specialize (Hm w).
  destruct (snd (run m w)) as [a|e]; [ | exact Hm ].
  etransitivity; [ exact Hm | apply Hf ].
Qed.

Lemma keeps_try_catch {A} (m : Async A) (h : Error -> Async A) :
  keeps R m -> (forall e, keeps R (h e)) -> keeps R (try_catch m h).
Proof.
  intros Hm Hh w. rewrite run_try_catch. specialize (Hm w).
  destruct (snd (run m w)) as [a|e]; [ exact Hm | ].
  etransitivity; [ exact Hm | apply Hh ].
Qed.

Lemma keeps_await {A} (m : Async A) : keeps R m -> keeps R (await m).
Proof. intros Hm w. rewrite run_await. apply Hm. Qed.

End KeepLaws.

(** *** What the primitives keep *)

Lemma storage_take_lastError w : storage (fst (take_lastError w)) = storage w.
Proof. unfold take_lastError. destruct (lastError w); reflexivity. Qed.

Lemma timers_take_lastError w : timers (fst (take_lastError w)) = timers w.
Proof. unfold take_lastError. destruct (lastError w); reflexivity. Qed.

Lemma run_storage_get_any key w :
  run (chrome_storage_local_get key) w
  = (fst (take_lastError w),
     Ok (match snd (take_lastError w) with
         | Some e => mkCallback (Some e) None
         | None => mkCallback None (storage w !! key)
         end)).
Proof.
  unfold run, chrome_storage_local_get. simpl.
  rewrite storage_take_lastError.
  destruct (snd (take_lastError w)); reflexivity.
Qed.

Lemma run_storage_set_any key v w :
  run (chrome_storage_local_set key v) w
  = match snd (take_lastError w) with
    | Some e => (fst (take_lastError w), Ok (mkCallback (Some e) tt))
    | None =>
        (set_storage (insert key v) (fst (take_lastError w)),
         Ok (mkCallback None tt))
    end.
Proof.
  unfold run, chrome_storage_local_set. simpl.
  destruct (snd (take_lastError w)); reflexivity.
Qed.

#[global] Instance same_timers_preorder : PreOrder same_timers.
Proof.
  split.
  - intros w. reflexivity.
  - intros a b c Hab Hbc. unfold same_timers in *. congruence.
Qed.

#[global] Instance same_elsewhere_preorder key : PreOrder (same_elsewhere key).
Proof.
  split.
  - intros w key' _. reflexivity.
  - intros a b c Hab Hbc key' Hne. rewrite (Hbc key' Hne). apply Hab, Hne.
Qed.

Section Frames.

Import ChromeStorageService.

Lemma keeps_timers_get key : keeps same_timers (chrome_storage_local_get key).
Proof.
  intros w. rewrite run_storage_get_any. apply timers_take_lastError.
Qed.

Lemma keeps_timers_set key v : keeps same_timers (chrome_storage_local_set key v).
Proof.
  intros w. rewrite run_storage_set_any.
  destruct (snd (take_lastError w)); apply timers_take_lastError.
Qed.

Lemma keeps_elsewhere_get key key0 :
  keeps (same_elsewhere key0) (chrome_storage_local_get key).
Proof.
  intros w key' _. rewrite run_storage_get_any. simpl.
  rewrite storage_take_lastError. reflexivity.
Qed.

Lemma keeps_elsewhere_set key v :
  keeps (same_elsewhere key) (chrome_storage_local_set key v).
Proof.
  intros w key' Hne. rewrite run_storage_set_any.
  destruct (snd (take_lastError w)); simpl; rewrite ?storage_take_lastError.
  - reflexivity.
  - rewrite lookup_insert_ne by congruence. reflexivity.
Qed.

Lemma keeps_timers_Date_now : keeps same_timers Date_now.
Proof. apply keeps_gets. Qed.

Lemma keeps_elsewhere_Date_now key : keeps (same_elsewhere key) Date_now.
Proof. apply keeps_gets. Qed.

Lemma keeps_timers_random : keeps same_timers Math_random_suffix.
Proof.
  intros w. unfold Math_random_suffix. rewrite run_act.
  destruct (random w); reflexivity.
Qed.

Lemma keeps_elsewhere_random key : keeps (same_elsewhere key) Math_random_suffix.
Proof.
  intros w key' _. unfold Math_random_suffix. rewrite run_act.
  destruct (random w); reflexivity.
Qed.

Lemma keeps_timers_console line : keeps same_timers (console_warn line).
Proof. intros w. unfold console_warn. rewrite run_modify. reflexivity. Qed.

Lemma keeps_elsewhere_console key line :
  keeps (same_elsewhere key) (console_warn line).
Proof. intros w key' _. unfold console_warn. rewrite run_modify. reflexivity. Qed.

Lemma keeps_elsewhere_delay key ms : keeps (same_elsewhere key) (delay ms).
Proof. intros w key' _. rewrite run_delay. reflexivity. Qed.

End Frames.

(** *** What the record store keeps, whatever the storage calls do *)

Section StoreKeeps.

Import ChromeStorageService.

Context {R : relation World} `{!PreOrder R}.
Variable k : StoreKind.

Hypothesis keeps_get : keeps R (chrome_storage_local_get (storageKey k)).
Hypothesis keeps_set :
  forall v, keeps R (chrome_storage_local_set (storageKey k) v).
Hypothesis keeps_Date_now : keeps R Date_now.
Hypothesis keeps_random : keeps R Math_random_suffix.
Hypothesis keeps_console : forall line, keeps R (console_warn line).

Lemma keeps_makeId : keeps R makeId.
Proof.
  unfold makeId.
  apply keeps_bind; [ exact keeps_Date_now | intros now ].
  apply keeps_bind; [ exact keeps_random | intros suffix ].
  apply keeps_ret.
Qed.

Lemma keeps_id_or_makeId i : keeps R (id_or_makeId i).
Proof.
  unfold id_or_makeId. destruct (truthy_string i).
  - apply keeps_ret.
  - apply keeps_makeId.
Qed.

Lemma keeps_writeMap m replace : keeps R (writeMap k m replace).
Proof.
  unfold writeMap. destruct replace.
  - apply keeps_bind; [ apply keeps_set | intros cb ].
    destruct (runtime_lastError cb); [ apply keeps_throw | apply keeps_ret ].
  - apply keeps_bind; [ apply keeps_get | intros cb ].
    destruct (runtime_lastError cb); [ apply keeps_throw | ].
    apply keeps_bind; [ apply keeps_set | intros cb' ].
    destruct (runtime_lastError cb'); [ apply keeps_throw | apply keeps_ret ].
Qed.

Lemma keeps_migrate arr : forall m, keeps R (migrate k arr m).
Proof.
  induction arr as [|item rest IH]; intros m; simpl.
  - apply keeps_ret.
  - apply keeps_bind; [ apply keeps_id_or_makeId | intros i ].
    apply keeps_bind; [ exact keeps_Date_now | intros now ].
    apply IH.
Qed.

Lemma keeps_readMap : keeps R (readMap k).
Proof.
  unfold readMap.
  apply keeps_bind; [ apply keeps_get | intros cb ].
  destruct (runtime_lastError cb); [ apply keeps_throw | ].
  destruct (result cb) as [[ | p | arr | m ]|].
  - apply keeps_ret.
  - apply keeps_bind; [ apply keeps_console | intros _; apply keeps_ret ].
  - apply keeps_bind; [ apply keeps_migrate | intros map ].
    apply keeps_try_catch; [ | intros e; apply keeps_throw ].
    apply keeps_bind; [ apply keeps_await, keeps_writeMap | intros _ ].
    apply keeps_ret.
  - apply keeps_ret.
  - apply keeps_ret.
Qed.

Lemma keeps_getList localeCompare : keeps R (getList localeCompare k).
Proof.
  unfold getList.
  apply keeps_bind; [ apply keeps_await, keeps_readMap | intros ref ].
  destruct ref; [ apply keeps_throw | apply keeps_ret ].
Qed.

Lemma keeps_save_steps input i : keeps R (save_steps k input i).
Proof.
  unfold save_steps.
  apply keeps_bind; [ apply keeps_await, keeps_readMap | intros ref ].
  destruct ref as [|map]; [ apply keeps_throw | ].
  apply keeps_bind; [ exact keeps_Date_now | intros now ].
  apply keeps_bind; [ apply keeps_await, keeps_writeMap | intros _ ].
  apply keeps_bind; [ apply keeps_await, keeps_readMap | intros after ].
  destruct after; [ apply keeps_throw | apply keeps_ret ].
Qed.

Lemma keeps_saveAtomic_operation input : keeps R (saveAtomic_operation k input).
Proof.
  unfold saveAtomic_operation.
  apply keeps_bind; [ apply keeps_id_or_makeId | intros i ].
  apply keeps_bind; [ apply keeps_save_steps | intros found ].
  destruct (negb (truthy_member found)); [ apply keeps_throw | apply keeps_ret ].
Qed.

Lemma keeps_hasOwnProperty map i : keeps R (hasOwnProperty map i).
Proof.
  unfold hasOwnProperty.
  destruct (own map !! "hasOwnProperty"); [ apply keeps_throw | apply keeps_ret ].
Qed.

Lemma keeps_deleteAtomic_operation i : keeps R (deleteAtomic_operation k i).
Proof.
  unfold deleteAtomic_operation.
  apply keeps_bind; [ apply keeps_await, keeps_readMap | intros ref ].
  destruct ref as [|map]; [ apply keeps_throw | ].
  apply keeps_bind; [ apply keeps_hasOwnProperty | intros has ].
  destruct has; [ | apply keeps_ret ].
  apply keeps_bind; [ apply keeps_await, keeps_writeMap | intros _ ].
  apply keeps_bind; [ apply keeps_await, keeps_readMap | intros after ].
  destruct after as [|m]; [ apply keeps_throw | ].
  destruct (truthy_member (member m i)); [ apply keeps_throw | apply keeps_ret ].
Qed.

Hypothesis keeps_delay : forall ms, keeps R (delay ms).

Lemma keeps_save_pass input i : keeps R (save_pass k input i).
Proof.
  unfold save_pass.
  apply keeps_try_catch.
  - apply keeps_bind; [ apply keeps_save_steps | intros found ].
    destruct (negb (truthy_member found)); [ | apply keeps_ret ].
    apply keeps_bind; [ apply keeps_await, keeps_delay | intros _ ].
    apply keeps_ret.
  - intros e.
    apply keeps_bind; [ apply keeps_await, keeps_delay | intros _ ].
    apply keeps_ret.
Qed.

Lemma keeps_save_loop input i attempts :
  forall lastErr, keeps R (save_loop k input i attempts lastErr).
Proof.
  induction attempts as [|n IH]; intros lastErr; simpl.
  - apply keeps_throw.
  - apply keeps_bind; [ apply keeps_save_pass | intros pass ].
    destruct pass; [ apply keeps_ret | apply IH ].
Qed.

Lemma keeps_saveRecord input : keeps R (saveRecord k input).
Proof.
  unfold saveRecord.
  apply keeps_bind; [ apply keeps_id_or_makeId | intros i ].
  apply keeps_save_loop.
Qed.

Lemma keeps_delete_pass i : keeps R (delete_pass k i).
Proof.
  unfold delete_pass.
  apply keeps_try_catch.
  - apply keeps_bind; [ apply keeps_await, keeps_readMap | intros ref ].
    destruct ref as [|map]; [ apply keeps_throw | ].
    apply keeps_bind; [ apply keeps_hasOwnProperty | intros has ].
    apply keeps_bind; [ apply keeps_await, keeps_writeMap | intros _ ].
    apply keeps_bind; [ apply keeps_await, keeps_readMap | intros after ].
    destruct after as [|m]; [ apply keeps_throw | ].
    destruct (truthy_member (member m i)); [ | apply keeps_ret ].
    apply keeps_bind; [ apply keeps_await, keeps_delay | intros _ ].
    apply keeps_ret.
  - intros e.
    apply keeps_bind; [ apply keeps_await, keeps_delay | intros _ ].
    apply keeps_ret.
Qed.

Lemma keeps_delete_loop i attempts :
  forall lastErr, keeps R (delete_loop k i attempts lastErr).
Proof.
  induction attempts as [|n IH]; intros lastErr; simpl.
  - apply keeps_throw.
  - apply keeps_bind; [ apply keeps_delete_pass | intros pass ].
    destruct pass; [ apply keeps_ret | apply IH ].
Qed.

Lemma keeps_deleteRecord i : keeps R (deleteRecord k i).
Proof. apply keeps_delete_loop. Qed.

End StoreKeeps.

(** ** The passes of a save and of a delete *)

Section Passes.

Import ChromeStorageService.





Lemma run_backoff (e : Error) w :
  run (await (delay 20) ;;; ret (Continue e)) w = (sleep 20 w, Ok (Continue e)).
Proof.
  rewrite run_bind, run_await, run_delay. simpl. apply run_ret.
Qed.











End Passes.

Section Failing.

Import ChromeStorageService.

Lemma persisted_take_lastError k w :
  persisted k (fst (take_lastError w)) = persisted k w.
Proof. unfold persisted. rewrite storage_take_lastError. reflexivity. Qed.

Lemma clock_take_lastError w : clock (fst (take_lastError w)) = clock w.
Proof. unfold take_lastError. destruct (lastError w); reflexivity. Qed.

(** A storage call that fails uses up one failure; one that succeeds uses
    up none. *)
Lemma failures_take_lastError w :
  match snd (take_lastError w) with
  | Some e => S (failures (fst (take_lastError w))) = failures w
  | None => failures (fst (take_lastError w)) = failures w
  end.
Proof.
  unfold take_lastError, failures.
  destruct (lastError w) as [|[msg|] rest] eqn:H; simpl; rewrite ?H; reflexivity.
Qed.

Lemma failures_store k m w : failures (store k m w) = failures w.
Proof. reflexivity. Qed.

Lemma failures_sleep ms w : failures (sleep ms w) = failures w.
Proof. reflexivity. Qed.

(** Reading a canonical store: the read fails exactly when its storage
    call does. *)
Lemma run_readMap_canon k m w :
  persisted k w = Some m ->
  run (readMap k) w
  = (fst (take_lastError w),
     match snd (take_lastError w) with
     | Some e => Throw e
     | None => Ok (RObject (plain m))
     end).
Proof.
  intros Hm. unfold readMap. rewrite run_bind, run_storage_get_any.
  cbn [fst snd].
  destruct (snd (take_lastError w)) as [e|]; cbn [runtime_lastError result].
  - apply run_throw.
  - unfold persisted in Hm.
    destruct (storage w !! storageKey k) as [[ | p | arr | m0 ]|];
      try discriminate; injection Hm as <-; apply run_ret.
Qed.

Lemma run_writeMap_canon k m c w :
  persisted k w = Some c ->
  run (writeMap k m false) w
  = let w1 := fst (take_lastError w) in
    let w2 := fst (take_lastError w1) in
    match snd (take_lastError w) with
    | Some e => (w1, Throw e)
    | None =>
        match snd (take_lastError w1) with
        | Some e => (w2, Throw e)
        | None => (store k (m ∪ c) w2, Ok tt)
        end
    end.
Proof.
  intros Hc. unfold writeMap. rewrite run_bind, run_storage_get_any.
  cbn [fst snd].
  destruct (snd (take_lastError w)) as [e|]; cbn [runtime_lastError result].
  - apply run_throw.
  - rewrite run_bind, run_storage_set_any.
    destruct (snd (take_lastError (fst (take_lastError w)))) as [e|];
      cbn [fst snd runtime_lastError].
    + apply run_throw.
    + rewrite run_ret. unfold store. repeat f_equal.
      unfold persisted in Hc.
      destruct (storage w !! storageKey k) as [[ | p | arr | m0 ]|];
        try discriminate; injection Hc as <-; reflexivity.
Qed.

(** The statements of a save on a canonical store, whatever the storage
    calls do: either all four calls succeed and the assignment is stored
    and verified, or one call fails, which ends the pass, the assignment
    stored or not. *)
Lemma save_steps_canon k input i m w :
  persisted k w = Some m ->
  exists w' r,
    run (save_steps k input i) w = (w', r)
    /\ clock w' = clock w
    /\ (((exists found, r = Ok found /\ truthy_member found = true)
         /\ failures w' = failures w
         /\ persisted k w' = Some (assigned m i (saved m input i (clock w))))
        \/ (exists e,
              r = Throw e /\ S (failures w') = failures w
              /\ (persisted k w' = Some m
                  \/ persisted k w'
                     = Some (assigned m i (saved m input i (clock w)))))).
Proof.
  intros Hm. unfold save_steps.
  rewrite run_bind, run_await, (run_readMap_canon k m w Hm). cbn [fst snd].
  pose proof (failures_take_lastError w) as F1.
  pose proof (persisted_take_lastError k w) as P1.
  pose proof (clock_take_lastError w) as C1.
  set (w1 := fst (take_lastError w)) in *.
  destruct (snd (take_lastError w)) as [e|].
  { eexists _, _. split; [ reflexivity | ]. split; [ exact C1 | ].
    right. exists e. rewrite P1. auto. }
  rewrite run_bind. unfold Date_now at 1. rewrite run_gets. cbn [fst snd].
  rewrite record_of_member_plain.
  change (spread (m !! i) input i (createdAt_for (m !! i) input (clock w1))
                 (clock w1))
    with (saved m input i (clock w1)).
  change (own (assign (plain m) i (saved m input i (clock w1))))
    with (assigned m i (saved m input i (clock w1))).
  rewrite run_bind, run_await.
  rewrite (run_writeMap_canon k _ m w1) by (rewrite P1; exact Hm).
  cbn zeta.
  pose proof (failures_take_lastError w1) as F2.
  pose proof (persisted_take_lastError k w1) as P2.
  pose proof (clock_take_lastError w1) as C2.
  set (w2 := fst (take_lastError w1)) in *.
  destruct (snd (take_lastError w1)) as [e|]; cbn [fst snd].
  { eexists _, _. split; [ reflexivity | ]. split; [ congruence | ].
    right. exists e. rewrite P2, P1. split; [ reflexivity | ].
    split; [ congruence | auto ]. }
  pose proof (failures_take_lastError w2) as F3.
  pose proof (persisted_take_lastError k w2) as P3.
  pose proof (clock_take_lastError w2) as C3.
  set (w3 := fst (take_lastError w2)) in *.
  destruct (snd (take_lastError w2)) as [e|]; cbn [fst snd].
  { eexists _, _. split; [ reflexivity | ]. split; [ congruence | ].
    right. exists e. rewrite P3, P2, P1. split; [ reflexivity | ].
    split; [ congruence | auto ]. }
  rewrite assigned_union_self.
  rewrite run_bind, run_await.
  rewrite (run_readMap_canon k (assigned m i (saved m input i (clock w1))))
    by apply persisted_store.
  cbn [fst snd].
  set (w3' := store k (assigned m i (saved m input i (clock w1))) w3) in *.
  pose proof (failures_take_lastError w3') as F4.
  pose proof (persisted_take_lastError k w3') as P4.
  pose proof (clock_take_lastError w3') as C4.
  assert (P3' : persisted k w3'
                = Some (assigned m i (saved m input i (clock w1))))
    by apply persisted_store.
  assert (F3' : failures w3' = failures w3) by reflexivity.
  assert (C3' : clock w3' = clock w3) by reflexivity.
  set (w4 := fst (take_lastError w3')) in *.
  rewrite C1 in *.
  destruct (snd (take_lastError w3')) as [e|].
  { eexists _, _. split; [ reflexivity | ]. split; [ congruence | ].
    right. exists e. split; [ reflexivity | ].
    split; [ congruence | right; congruence ]. }
  rewrite run_ret.
  eexists _, _. split; [ reflexivity | ]. split; [ congruence | ].
  left. split; [ | split; congruence ].
  eexists. split; [ reflexivity | apply truthy_member_assigned ].
Qed.

Lemma save_pass_canon k input i m w :
  persisted k w = Some m ->
  exists w' p,
    run (save_pass k input i) w = (w', Ok p)
    /\ ((p = Return
         /\ failures w' = failures w
         /\ persisted k w' = Some (assigned m i (saved m input i (clock w))))
        \/ (exists e,
              p = Continue e /\ S (failures w') = failures w
              /\ (persisted k w' = Some m
                  \/ persisted k w'
                     = Some (assigned m i (saved m input i (clock w)))))).
Proof.
  intros Hm.
  destruct (save_steps_canon k input i m w Hm)
    as (w1 & r & Hrun & _
        & [((found & -> & Hfound) & HF & HP)|(e & -> & HF & HP)]).
  - unfold save_pass. erewrite run_try_ok; cycle 1.
    { erewrite run_bind_ok by exact Hrun. rewrite Hfound. apply run_ret. }
    eexists _, _. split; [ reflexivity | ]. left. auto.
  - unfold save_pass. erewrite run_try_throw; cycle 1.
    { erewrite run_bind_throw by exact Hrun. reflexivity. }
    rewrite run_backoff.
    eexists _, _. split; [ reflexivity | ]. right. exists e.
    rewrite failures_sleep, persisted_sleep. auto.
Qed.

Lemma save_loop_canon k input i attempts :
  forall lastErr m w,
    persisted k w = Some m -> (failures w < attempts)%nat ->
    exists w' m' t,
      run (save_loop k input i attempts lastErr) w = (w', Ok tt)
      /\ persisted k w' = Some (assigned m' i (saved m' input i t))
      /\ forall j, j <> i -> m' !! j = m !! j.
Proof.
  induction attempts as [|a IH]; intros lastErr m w Hm Hlt; [ lia | ].
  cbn [save_loop].
  destruct (save_pass_canon k input i m w Hm)
    as (w1 & p & Hrun & [(-> & HF & HP)|(e & -> & HF & HP)]).
  - erewrite run_bind_ok by exact Hrun. cbn beta iota. rewrite run_ret.
    exists w1, m, (clock w). auto.
  - erewrite run_bind_ok by exact Hrun. cbn beta iota.
    destruct HP as [HP|HP].
    + apply (IH (Some e) m w1 HP). lia.
    + destruct (IH (Some e) _ w1 HP) as (w' & m' & t & Hr & Hp & Hoff);
        [ lia | ].
      exists w', m', t. split; [ exact Hr | ]. split; [ exact Hp | ].
      intros j Hj. rewrite (Hoff j Hj). apply lookup_assigned_ne, Hj.
Qed.

Lemma makeId_ordinary w w' i :
  run makeId w = (w', Ok i) -> inherited i = false.
Proof.
  unfold makeId, Date_now, Math_random_suffix.
  rewrite run_bind, run_gets. cbn [fst snd].
  rewrite run_bind, run_act. cbn [fst snd]. rewrite run_ret.
  intros [= _ <-]. apply hyphenated_ordinary, hyphenated_app.
Qed.

Lemma run_id_or_makeId_any i w :
  exists w0 i',
    run (id_or_makeId i) w = (w0, Ok i')
    /\ same_storage w w0
    /\ (truthy_string i = true -> i' = i)
    /\ (truthy_string i = false -> inherited i' = false).
Proof.
  unfold id_or_makeId. destruct (truthy_string i).
  - exists w, i. rewrite run_ret. repeat split. discriminate.
  - destruct (run_makeId w) as (w0 & i' & Hrun & Hsame).
    exists w0, i'. split; [ exact Hrun | ]. split; [ exact Hsame | ].
    split; [ discriminate | ]. intros _. eapply makeId_ordinary, Hrun.
Qed.

Lemma persisted_same_storage k w w0 :
  same_storage w w0 -> persisted k w0 = persisted k w.
Proof. intros (Hs & _). unfold persisted. rewrite Hs. reflexivity. Qed.

Lemma failures_same_storage w w0 : same_storage w w0 -> failures w0 = failures w.
Proof. intros (_ & Hl & _). unfold failures. rewrite Hl. reflexivity. Qed.

(** X3: [savePrompt] and [saveContext] get over two failing storage calls.
    On a canonical store, if fewer than three of the storage calls to come
    fail, the save of a record whose id is not [__proto__] resolves and
    the record is persisted under its id, with the name it was given,
    every other record being as it was. *)
Theorem saveRecord_survives_failures k input m w :
  persisted k w = Some m -> (failures w < 3)%nat ->
  id input <> "__proto__" ->
  exists i w' m' rec,
    run (saveRecord k input) w = (w', Ok tt)
    /\ (truthy_string (id input) = true -> i = id input)
    /\ persisted k w' = Some m'
    /\ m' !! i = Some rec
    /\ id rec = i /\ name rec = name input
    /\ forall j, j <> i -> m' !! j = m !! j.
Proof.
  intros Hm Hlt Hproto. unfold saveRecord.
  destruct (run_id_or_makeId_any (id input) w)
    as (w0 & i & Hid & Hsame & Hi & Hgen).
  erewrite run_bind_ok by exact Hid.
  destruct (save_loop_canon k input i 3 None m w0) as (w' & m' & t & Hr & Hp & Hoff).
  { rewrite (persisted_same_storage k w w0 Hsame). exact Hm. }
  { rewrite (failures_same_storage w w0 Hsame). exact Hlt. }
  assert (Hne : i <> "__proto__").
  { destruct (truthy_string (id input)) eqn:E.
    - rewrite (Hi eq_refl). exact Hproto.
    - apply inherited_not_proto, Hgen. reflexivity. }
  rewrite assigned_ne in Hp by exact Hne.
  exists i, w', (<[i := saved m' input i t]> m'), (saved m' input i t).
  split; [ exact Hr | ]. split; [ exact Hi | ]. split; [ exact Hp | ].
  split; [ apply lookup_insert_eq | ]. split; [ reflexivity | ].
  split; [ reflexivity | ].
  intros j Hj. rewrite lookup_insert_ne by congruence. apply Hoff, Hj.
Qed.

End Failing.

Lemma saveRecord_survives_failures_witness :
  exists i w' m' rec,
    run (ChromeStorageService.saveRecord PromptStore edited_prompt) flaky_world
    = (w', Ok tt)
    /\ (truthy_string (id edited_prompt) = true -> i = id edited_prompt)
    /\ persisted PromptStore w' = Some m'
    /\ m' !! i = Some rec
    /\ id rec = i /\ name rec = name edited_prompt
    /\ forall j, j <> i -> m' !! j = ({[ "p1" := example_prompt ]} : gmap string Entity) !! j.
Proof.
  apply (saveRecord_survives_failures PromptStore edited_prompt
           {[ "p1" := example_prompt ]} flaky_world).
  - reflexivity.
  - vm_compute. lia.
  - discriminate.
Defined.

(** ** Retrying an operation that a failing storage call interrupts *)

Section RetryImproving.

Import ConcurrencyService.

Context {T : Type}.
Variable config : ConcurrencyConfig.
Variable op : Async T.

(** What holds of the storage before every attempt, and after a successful
    one. *)
Variables P Q : gmap string StoredValue -> Prop.

(** An attempt either succeeds, using up no failure, or is ended by a
    storage call that fails. *)
Hypothesis op_improves :
  forall w,
    P (storage w) ->
    exists w' r,
      run op w = (w', r)
      /\ ((exists a, r = Ok a) /\ Q (storage w')
          \/ (exists e, r = Throw e) /\ P (storage w')
             /\ S (failures w') = failures w).

Lemma storage_after_failure maxRetries attempt_no e w :
  storage (after_failure config maxRetries attempt_no e w) = storage w.
Proof.
  unfold after_failure.
  destruct (logOperations config), (attempt_no <? maxRetries); reflexivity.
Qed.

Lemma failures_after_failure maxRetries attempt_no e w :
  failures (after_failure config maxRetries attempt_no e w) = failures w.
Proof.
  unfold after_failure.
  destruct (logOperations config), (attempt_no <? maxRetries); reflexivity.
Qed.

Lemma storage_recorded success latency w :
  storage (service_recordOperation config success latency w) = storage w.
Proof.
  unfold service_recordOperation. destruct (enableMetrics config); reflexivity.
Qed.

Lemma retry_loop_improving maxRetries startTime remaining :
  forall attempt_no lastErr w,
    P (storage w) -> (failures w < remaining)%nat ->
    exists w' a,
      run (retry_loop config op maxRetries startTime remaining attempt_no
                      lastErr) w
      = (w', Ok a)
      /\ Q (storage w').
Proof.
  induction remaining as [|n IH]; intros attempt_no lastErr w HP Hlt; [ lia | ].
  rewrite run_retry_loop_S.
  destruct (op_improves w HP)
    as (w1 & r & Hrun & [([a ->] & HQ)|([e ->] & HP1 & HF)]);
    rewrite Hrun; cbn [fst snd].
  - eexists _, a. split; [ reflexivity | ]. rewrite storage_recorded. exact HQ.
  - apply IH.
    + rewrite storage_after_failure. exact HP1.
    + rewrite failures_after_failure. lia.
Qed.

Lemma failures_generated w : failures (fst (generateOperationId w)) = failures w.
Proof.
  unfold generateOperationId. destruct (random w); reflexivity.
Qed.

Lemma executeAtomicWithRetry_improving n (el : EventLoop T) :
  idle el -> P (storage (world el)) ->
  (failures (world el) < Z.to_nat n)%nat ->
  exists el' a,
    executeAtomicWithRetry config op n el = (el', Some (Ok a))
    /\ idle el'
    /\ Q (storage (world el')).
Proof.
  intros Hidle HP Hlt. unfold executeAtomicWithRetry.
  rewrite executeAtomic_idle by exact Hidle.
  set (w0 := fst (generateOperationId (world el))).
  assert (Hrun : exists w' a,
             run (executeWithRetry config op n) w0 = (w', Ok a)
             /\ Q (storage w')).
  { unfold executeWithRetry. rewrite run_bind. unfold Date_now.
    rewrite run_gets. cbn [fst snd].
    apply retry_loop_improving.
    - unfold w0. rewrite storage_generated. exact HP.
    - unfold w0. rewrite failures_generated. exact Hlt. }
  destruct Hrun as (w' & a & Hrun & HQ). rewrite Hrun. cbn [fst snd].
  eexists _, a. split; [ reflexivity | ]. split.
  - repeat split.
  - cbn [world set_world]. rewrite storage_recorded. exact HQ.
Qed.

End RetryImproving.

Section AtomicFailing.

Import ChromeStorageService ConcurrencyService Facade.

Lemma run_writeMap_replace_any k m w :
  run (writeMap k m true) w
  = match snd (take_lastError w) with
    | Some e => (fst (take_lastError w), Throw e)
    | None => (store k m (fst (take_lastError w)), Ok tt)
    end.
Proof.
  unfold writeMap. rewrite run_bind, run_storage_set_any.
  destruct (snd (take_lastError w)) as [e|]; cbn [fst snd runtime_lastError].
  - apply run_throw.
  - apply run_ret.
Qed.

Lemma deleteAtomic_operation_canon k i m w :
  persisted k w = Some m ->
  m !! "hasOwnProperty" = None -> inherited i = false ->
  exists w' r,
    run (deleteAtomic_operation k i) w = (w', r)
    /\ ((r = Ok tt /\ persisted k w' = Some (delete i m))
        \/ (exists e,
              r = Throw e /\ S (failures w') = failures w
              /\ (persisted k w' = Some m
                  \/ persisted k w' = Some (delete i m)))).
Proof.
  intros Hm Hhas Hi. unfold deleteAtomic_operation.
  rewrite run_bind, run_await, (run_readMap_canon k m w Hm). cbn [fst snd].
  pose proof (failures_take_lastError w) as F1.
  pose proof (persisted_take_lastError k w) as P1.
  set (w1 := fst (take_lastError w)) in *.
  destruct (snd (take_lastError w)) as [e|].
  { eexists _, _. split; [ reflexivity | ].
    right. exists e. rewrite P1. auto. }
  erewrite run_bind_ok by (apply run_hasOwnProperty; exact Hhas).
  destruct (decide (is_Some (m !! i))) as [Hin|Hout].
  - rewrite bool_decide_eq_true_2 by exact Hin. cbn [remove own plain].
    rewrite run_bind, run_await, run_writeMap_replace_any.
    pose proof (failures_take_lastError w1) as F2.
    pose proof (persisted_take_lastError k w1) as P2.
    set (w2 := fst (take_lastError w1)) in *.
    destruct (snd (take_lastError w1)) as [e|]; cbn [fst snd].
    { eexists _, _. split; [ reflexivity | ].
      right. exists e. rewrite P2, P1. split; [ reflexivity | ].
      split; [ congruence | auto ]. }
    rewrite run_bind, run_await.
    rewrite (run_readMap_canon k (delete i m)) by apply persisted_store.
    cbn [fst snd].
    set (w2' := store k (delete i m) w2) in *.
    pose proof (failures_take_lastError w2') as F3.
    pose proof (persisted_take_lastError k w2') as P3.
    assert (P2' : persisted k w2' = Some (delete i m)) by apply persisted_store.
    assert (F2' : failures w2' = failures w2) by reflexivity.
    set (w3 := fst (take_lastError w2')) in *.
    destruct (snd (take_lastError w2')) as [e|].
    { eexists _, _. split; [ reflexivity | ].
      right. exists e. split; [ reflexivity | ].
      split; [ congruence | right; congruence ]. }
    rewrite member_plain_absent by apply lookup_delete_eq.
    rewrite Hi. cbn [truthy_member]. rewrite run_ret.
    eexists _, _. split; [ reflexivity | ]. left. split; congruence.
  - rewrite bool_decide_eq_false_2 by exact Hout. rewrite run_ret.
    eexists _, _. split; [ reflexivity | ]. left. split; [ reflexivity | ].
    rewrite P1, Hm. f_equal. symmetry. apply delete_id.
    destruct (m !! i) eqn:E; [ exfalso; apply Hout; eauto | reflexivity ].
Qed.

Lemma saveAtomic_operation_canon k input m w :
  persisted k w = Some m -> truthy_string (id input) = true ->
  exists w' r,
    run (saveAtomic_operation k input) w = (w', r)
    /\ ((r = Ok tt
         /\ persisted k w'
            = Some (assigned m (id input)
                      (saved m input (id input) (clock w))))
        \/ (exists e,
              r = Throw e /\ S (failures w') = failures w
              /\ (persisted k w' = Some m
                  \/ persisted k w'
                     = Some (assigned m (id input)
                               (saved m input (id input) (clock w)))))).
Proof.
  intros Hm Hid. unfold saveAtomic_operation.
  erewrite run_bind_ok by (apply run_id_or_makeId; exact Hid).
  destruct (save_steps_canon k input (id input) m w Hm)
    as (w1 & r & Hrun & _
        & [((found & -> & Hfound) & HF & HP)|(e & -> & HF & HP)]).
  - erewrite run_bind_ok by exact Hrun. rewrite Hfound. cbn [negb].
    rewrite run_ret.
    eexists _, _. split; [ reflexivity | ]. left. auto.
  - erewrite run_bind_throw by exact Hrun.
    eexists _, _. split; [ reflexivity | ]. right. exists e. auto.
Qed.

End AtomicFailing.

Section AtomicSurvives.

Import ChromeStorageService ConcurrencyService Facade.

Implicit Types (el : EventLoop unit) (this : Facade.ChromeStorageService).

(** X4: with a concurrency service, [savePromptAtomic] and
    [saveContextAtomic] of a record whose id is neither empty nor
    [__proto__] get over fewer failing storage calls than the service
    allows attempts. *)
Theorem saveAtomic_survives_failures this k input m el config :
  idle el -> persisted k (world el) = Some m ->
  truthy_string (id input) = true -> id input <> "__proto__" ->
  concurrencyService this = Some config ->
  (failures (world el) < Z.to_nat (maxRetries config))%nat ->
  exists el' m' rec,
    saveAtomic this k input el = (el', Some (Ok tt))
    /\ idle el'
    /\ persisted k (world el') = Some m'
    /\ m' !! id input = Some rec
    /\ id rec = id input /\ name rec = name input
    /\ forall j, j <> id input -> m' !! j = m !! j.
Proof.
  intros Hidle Hm Hid Hproto Hsvc Hlt. unfold saveAtomic. rewrite Hsvc.
  destruct (executeAtomicWithRetry_improving config (saveAtomic_operation k input)
              (fun s => exists m0,
                   persisted_in k s = Some m0
                   /\ forall j, j <> id input -> m0 !! j = m !! j)
              (fun s => exists m0 t,
                   persisted_in k s
                   = Some (<[id input := saved m0 input (id input) t]> m0)
                   /\ forall j, j <> id input -> m0 !! j = m !! j)
              ) with (n := maxRetries config) (el := el)
    as (el' & [] & Hrun & Hidle' & (m0 & t & Hp & Hoff)).
  - intros w (m0 & Hp & Hoff).
    destruct (saveAtomic_operation_canon k input m0 w Hp Hid)
      as (w' & r & Hrun & [(-> & HP)|(e & -> & HF & HP)]);
      rewrite assigned_ne in HP by exact Hproto.
    + exists w', (Ok tt). split; [ exact Hrun | ]. left.
      split; [ eexists; reflexivity | ]. exists m0, (clock w). auto.
    + exists w', (Throw e). split; [ exact Hrun | ]. right.
      split; [ eexists; reflexivity | ]. split; [ | exact HF ].
      destruct HP as [HP|HP].
      * exists m0. auto.
      * eexists. split; [ exact HP | ].
        intros j Hj. rewrite lookup_insert_ne by congruence. apply Hoff, Hj.
  - exact Hidle.
  - exists m. auto.
  - exact Hlt.
  - exists el', (<[id input := saved m0 input (id input) t]> m0),
      (saved m0 input (id input) t).
    split; [ exact Hrun | ]. split; [ exact Hidle' | ]. split; [ exact Hp | ].
    split; [ apply lookup_insert_eq | ]. split; [ reflexivity | ].
    split; [ reflexivity | ].
    intros j Hj. rewrite lookup_insert_ne by congruence. apply Hoff, Hj.
Qed.

(** X5: with a concurrency service, [deletePromptAtomic] and
    [deleteContextAtomic] get over fewer failing storage calls than the
    service allows attempts, and leave the map without the record: for an
    id that names no member of [Object.prototype], in a map that keeps no
    record under the key [hasOwnProperty]. *)
Theorem deleteAtomic_survives_failures this k i m el config :
  idle el -> persisted k (world el) = Some m ->
  m !! "hasOwnProperty" = None -> inherited i = false ->
  concurrencyService this = Some config ->
  (failures (world el) < Z.to_nat (maxRetries config))%nat ->
  exists el',
    deleteAtomic this k i el = (el', Some (Ok tt))
    /\ idle el'
    /\ persisted k (world el') = Some (delete i m).
Proof.
  intros Hidle Hm Hhas Hi Hsvc Hlt. unfold deleteAtomic. rewrite Hsvc.
  destruct (executeAtomicWithRetry_improving config (deleteAtomic_operation k i)
              (fun s => exists m0,
                   persisted_in k s = Some m0
                   /\ m0 !! "hasOwnProperty" = None
                   /\ delete i m0 = delete i m)
              (fun s => persisted_in k s = Some (delete i m)))
    with (n := maxRetries config) (el := el)
    as (el' & [] & Hrun & Hidle' & Hp).
  - intros w (m0 & Hp & Hhas0 & Hdel).
    destruct (deleteAtomic_operation_canon k i m0 w Hp Hhas0 Hi)
      as (w' & r & Hrun & [(-> & HP)|(e & -> & HF & HP)]).
    + exists w', (Ok tt). split; [ exact Hrun | ]. left.
      split; [ eexists; reflexivity | ].
      change (persisted k w' = Some (delete i m)). congruence.
    + exists w', (Throw e). split; [ exact Hrun | ]. right.
      split; [ eexists; reflexivity | ]. split; [ | exact HF ].
      destruct HP as [HP|HP].
      * exists m0. auto.
      * exists (delete i m0). split; [ exact HP | ]. split.
        -- apply lookup_delete_None. right. exact Hhas0.
        -- rewrite delete_delete_eq. exact Hdel.
  - exact Hidle.
  - exists m. auto.
  - exact Hlt.
  - exists el'. auto.
Qed.

End AtomicSurvives.

Lemma saveAtomic_survives_failures_witness :
  exists el' m' rec,
    Facade.saveAtomic (Facade.mkService (Some DEFAULT_CONCURRENCY_CONFIG))
                      PromptStore edited_prompt (fresh flaky_world)
    = (el', Some (Ok tt))
    /\ idle el'
    /\ persisted PromptStore (world el') = Some m'
    /\ m' !! id edited_prompt = Some rec
    /\ id rec = id edited_prompt /\ name rec = name edited_prompt
    /\ forall j, j <> id edited_prompt ->
         m' !! j = ({[ "p1" := example_prompt ]} : gmap string Entity) !! j.
Proof.
  apply (saveAtomic_survives_failures
           (Facade.mkService (Some DEFAULT_CONCURRENCY_CONFIG)) PromptStore
           edited_prompt {[ "p1" := example_prompt ]} (fresh flaky_world)
           DEFAULT_CONCURRENCY_CONFIG).
  - repeat split.
  - reflexivity.
  - reflexivity.
  - discriminate.
  - reflexivity.
  - vm_compute. lia.
Defined.

Lemma deleteAtomic_survives_failures_witness :
  exists el',
    Facade.deleteAtomic (Facade.mkService (Some DEFAULT_CONCURRENCY_CONFIG))
                        PromptStore "p1" (fresh flaky_world)
    = (el', Some (Ok tt))
    /\ idle el'
    /\ persisted PromptStore (world el')
       = Some (delete "p1" ({[ "p1" := example_prompt ]} : gmap string Entity)).
Proof.
  apply (deleteAtomic_survives_failures
           (Facade.mkService (Some DEFAULT_CONCURRENCY_CONFIG)) PromptStore
           "p1" {[ "p1" := example_prompt ]} (fresh flaky_world)
           DEFAULT_CONCURRENCY_CONFIG).
  - repeat split.
  - reflexivity.
  - reflexivity.
  - reflexivity.
  - reflexivity.
  - vm_compute. lia.
Defined.

(** ** What a store never touches *)

Section Elsewhere.

Import ChromeStorageService ConcurrencyService Facade.

Variable k : StoreKind.

Ltac elsewhere :=
  auto using keeps_elsewhere_get, keeps_elsewhere_set, keeps_elsewhere_Date_now,
             keeps_elsewhere_random, keeps_elsewhere_console,
             keeps_elsewhere_delay.

Lemma elsewhere_getList localeCompare :
  keeps (same_elsewhere (storageKey k)) (getList localeCompare k).
Proof. apply keeps_getList; elsewhere. Qed.

Lemma elsewhere_saveRecord input :
  keeps (same_elsewhere (storageKey k)) (saveRecord k input).
Proof. apply keeps_saveRecord; elsewhere. Qed.

Lemma elsewhere_deleteRecord i :
  keeps (same_elsewhere (storageKey k)) (deleteRecord k i).
Proof. apply keeps_deleteRecord; elsewhere. Qed.

Lemma elsewhere_saveAtomic_operation input :
  keeps (same_elsewhere (storageKey k)) (saveAtomic_operation k input).
Proof. apply keeps_saveAtomic_operation; elsewhere. Qed.

Lemma elsewhere_deleteAtomic_operation i :
  keeps (same_elsewhere (storageKey k)) (deleteAtomic_operation k i).
Proof. apply keeps_deleteAtomic_operation; elsewhere. Qed.

Lemma storage_executeWithRetry {T} config (op : Async T) key maxRetries
    startTime remaining :
  keeps (same_elsewhere key) op ->
  forall attempt_no lastErr,
    keeps (same_elsewhere key)
          (retry_loop config op maxRetries startTime remaining attempt_no lastErr).
Proof.
  intros Hop.
  induction remaining as [|n IH]; intros attempt_no lastErr w key' Hne.
  - rewrite run_retry_loop_O. cbn [fst]. rewrite storage_recorded. reflexivity.
  - rewrite run_retry_loop_S. specialize (Hop w key' Hne).
    destruct (snd (run op w)) as [a|e]; cbn [fst].
    + rewrite storage_recorded. exact Hop.
    + rewrite (IH _ _ _ key' Hne), storage_after_failure. exact Hop.
Qed.

Lemma storage_executeAtomicWithRetry {T} config (op : Async T) key n
    (el : EventLoop T) :
  keeps (same_elsewhere key) op -> idle el ->
  same_elsewhere key (world el)
                 (world (fst (executeAtomicWithRetry config op n el))).
Proof.
  intros Hop Hidle key' Hne. unfold executeAtomicWithRetry.
  rewrite executeAtomic_idle by exact Hidle. cbn [fst world set_world].
  rewrite storage_recorded. unfold executeWithRetry.
  rewrite run_bind. unfold Date_now. rewrite run_gets. cbn [fst snd].
  rewrite (storage_executeWithRetry config op key n _ _ Hop _ _ _ key' Hne).
  rewrite storage_generated. reflexivity.
Qed.

(** X6: the operations on the prompts never touch what is stored under
    another key (the contexts, say), and the other way round, whatever the
    storage calls do. *)
Theorem store_leaves_other_keys this localeCompare input i key' w
    (el : EventLoop unit) :
  key' <> storageKey k -> idle el ->
  storage (fst (run (getList localeCompare k) w)) !! key' = storage w !! key'
  /\ storage (fst (run (saveRecord k input) w)) !! key' = storage w !! key'
  /\ storage (fst (run (deleteRecord k i) w)) !! key' = storage w !! key'
  /\ storage (world (fst (saveAtomic this k input el))) !! key'
     = storage (world el) !! key'
  /\ storage (world (fst (deleteAtomic this k i el))) !! key'
     = storage (world el) !! key'.
Proof.
  intros Hne Hidle.
  split; [ apply elsewhere_getList, Hne | ].
  split; [ apply elsewhere_saveRecord, Hne | ].
  split; [ apply elsewhere_deleteRecord, Hne | ].
  split.
  - unfold saveAtomic. destruct (concurrencyService this) as [config|].
    + apply (storage_executeAtomicWithRetry config _ (storageKey k) _ el
               (elsewhere_saveAtomic_operation input) Hidle key' Hne).
    + unfold call. cbn [fst world set_world].
      apply elsewhere_saveRecord, Hne.
  - unfold deleteAtomic. destruct (concurrencyService this) as [config|].
    + apply (storage_executeAtomicWithRetry config _ (storageKey k) _ el
               (elsewhere_deleteAtomic_operation i) Hidle key' Hne).
    + unfold call. cbn [fst world set_world].
      apply elsewhere_deleteRecord, Hne.
Qed.

End Elsewhere.

Lemma store_leaves_other_keys_witness :
  storage (fst (run (ChromeStorageService.getList codeUnitCompare PromptStore)
                    flaky_world)) !! CONTEXTS_STORAGE_KEY
  = storage flaky_world !! CONTEXTS_STORAGE_KEY
  /\ storage (fst (run (ChromeStorageService.saveRecord PromptStore edited_prompt)
                       flaky_world)) !! CONTEXTS_STORAGE_KEY
     = storage flaky_world !! CONTEXTS_STORAGE_KEY
  /\ storage (fst (run (ChromeStorageService.deleteRecord PromptStore "p1")
                       flaky_world)) !! CONTEXTS_STORAGE_KEY
     = storage flaky_world !! CONTEXTS_STORAGE_KEY
  /\ storage (world (fst (Facade.saveAtomic
                            (Facade.mkService (Some DEFAULT_CONCURRENCY_CONFIG))
                            PromptStore edited_prompt (fresh flaky_world))))
       !! CONTEXTS_STORAGE_KEY
     = storage (world (fresh (T:=unit) flaky_world)) !! CONTEXTS_STORAGE_KEY
  /\ storage (world (fst (Facade.deleteAtomic
                            (Facade.mkService (Some DEFAULT_CONCURRENCY_CONFIG))
                            PromptStore "p1" (fresh flaky_world))))
       !! CONTEXTS_STORAGE_KEY
     = storage (world (fresh (T:=unit) flaky_world)) !! CONTEXTS_STORAGE_KEY.
Proof.
  apply (store_leaves_other_keys PromptStore
           (Facade.mkService (Some DEFAULT_CONCURRENCY_CONFIG)) codeUnitCompare
           edited_prompt "p1" CONTEXTS_STORAGE_KEY flaky_world
           (fresh flaky_world)).
  - discriminate.
  - repeat split.
Defined.

(** ** Writing and reading, whatever the storage calls do *)

Section WriteRead.

Import ChromeStorageService.

Lemma kind_take_lastError w e :
  snd (take_lastError w) = Some e -> kind e = LastErrorObject.
Proof.
  unfold take_lastError.
  destruct (lastError w) as [|[msg|] rest]; cbn; intros [= <-]; reflexivity.
Qed.

Lemma current_take_lastError k w : current k (fst (take_lastError w)) = current k w.
Proof. unfold current. rewrite storage_take_lastError. reflexivity. Qed.

Lemma writeMap_outcome k m replace w :
  (snd (run (writeMap k m replace) w) = Ok tt
   /\ storage (fst (run (writeMap k m replace) w))
      = <[storageKey k := VObject (if replace then m else m ∪ current k w)]>
          (storage w))
  \/ (exists e,
        snd (run (writeMap k m replace) w) = Throw e
        /\ kind e = LastErrorObject
        /\ (0 < failures w)%nat
        /\ storage (fst (run (writeMap k m replace) w)) = storage w).
Proof.
  pose proof (failures_take_lastError w) as F1.
  destruct replace.
  - rewrite run_writeMap_replace_any.
    destruct (snd (take_lastError w)) as [e|] eqn:He; cbn [fst snd].
    + right. exists e. split; [ reflexivity | ].
      split; [ exact (kind_take_lastError w e He) | ].
      split; [ lia | apply storage_take_lastError ].
    + left. split; [ reflexivity | ]. cbn. rewrite storage_take_lastError.
      reflexivity.
  - unfold writeMap. rewrite run_bind, run_storage_get_any. cbn [fst snd].
    destruct (snd (take_lastError w)) as [e|] eqn:He;
      cbn [runtime_lastError result].
    + rewrite run_throw. right. exists e. split; [ reflexivity | ].
      split; [ exact (kind_take_lastError w e He) | ].
      split; [ lia | apply storage_take_lastError ].
    + rewrite run_bind, run_storage_set_any.
      pose proof (failures_take_lastError (fst (take_lastError w))) as F2.
      destruct (snd (take_lastError (fst (take_lastError w)))) as [e|] eqn:He';
        cbn [fst snd runtime_lastError].
      * rewrite run_throw. right. exists e. split; [ reflexivity | ].
        split; [ exact (kind_take_lastError _ e He') | ].
        split; [ lia | ].
        cbn [fst]. rewrite !storage_take_lastError. reflexivity.
      * rewrite run_ret. left. split; [ reflexivity | ].
        cbn. rewrite !storage_take_lastError. reflexivity.
Qed.

(** X7: a write is all or nothing.  [writePromptsMap] and [writeContextsMap]
    either resolve, and then the key holds the map handed over (with
    [replace]) or that map laid over the stored one (without), or reject
    with [chrome.runtime.lastError], and then the storage is as it was. *)
Theorem writeMap_all_or_nothing k m replace w :
  (snd (run (writeMap k m replace) w) = Ok tt
   /\ storage (fst (run (writeMap k m replace) w))
      = <[storageKey k := VObject (if replace then m else m ∪ current k w)]>
          (storage w))
  \/ (exists e,
        snd (run (writeMap k m replace) w) = Throw e
        /\ kind e = LastErrorObject
        /\ storage (fst (run (writeMap k m replace) w)) = storage w).
Proof.
  destruct (writeMap_outcome k m replace w) as [H|(e & He & Hk & _ & Hs)].
  - left. exact H.
  - right. exists e. auto.
Qed.

(** A read either resolves, with [null] only when [null] is stored, or
    rejects with [chrome.runtime.lastError] after a storage call failed; it
    leaves the storage as it was unless it found a legacy array. *)
Lemma readMap_outcome k w :
  ((exists ref,
      snd (run (readMap k) w) = Ok ref
      /\ (ref = RNull -> storage w !! storageKey k = Some VNull))
   \/ (exists e,
         snd (run (readMap k) w) = Throw e
         /\ kind e = LastErrorObject /\ (0 < failures w)%nat))
  /\ ((exists arr, storage w !! storageKey k = Some (VArray arr))
      \/ storage (fst (run (readMap k) w)) = storage w).
Proof.
  unfold readMap. rewrite run_bind, run_storage_get_any. cbn [fst snd].
  pose proof (failures_take_lastError w) as F1.
  pose proof (storage_take_lastError w) as S1.
  set (w1 := fst (take_lastError w)) in *.
  destruct (snd (take_lastError w)) as [e|] eqn:He;
    cbn [runtime_lastError result].
  { rewrite run_throw. split; [ right | right; exact S1 ].
    exists e. split; [ reflexivity | ].
    split; [ exact (kind_take_lastError w e He) | lia ]. }
  destruct (storage w !! storageKey k) as [[ | p | arr | m ]|] eqn:Hv.
  - rewrite run_ret. split; [ left | right; exact S1 ].
    exists RNull. auto.
  - rewrite run_bind. unfold console_warn. rewrite run_modify. cbn [fst snd].
    rewrite run_ret. split; [ left | right; exact S1 ].
    eexists. split; [ reflexivity | discriminate ].
  - split; [ | left; eauto ].
    destruct (run_migrate k arr (plain ∅) w1) as (w2 & m' & Hmig & Hsame).
    erewrite run_bind_ok by exact Hmig.
    rewrite run_try_catch, run_bind, run_await.
    pose proof (failures_same_storage w1 w2 Hsame) as F2.
    destruct (writeMap_outcome k (own m') false w2)
      as [[Hr _]|(e & Hr & Hk & Hf & _)];
      rewrite Hr.
    + rewrite run_ret. left. eexists. split; [ reflexivity | discriminate ].
    + cbn [fst snd]. rewrite run_throw. right. exists e.
      split; [ reflexivity | ]. split; [ exact Hk | lia ].
  - rewrite run_ret. split; [ left | right; exact S1 ].
    eexists. split; [ reflexivity | discriminate ].
  - rewrite run_ret. split; [ left | right; exact S1 ].
    eexists. split; [ reflexivity | discriminate ].
Qed.

(** X8: listing is read-only.  [getPrompts] and [getContexts] leave the
    storage as it was unless they find a legacy array to migrate; they
    set no timer; and when they reject, it is with
    [chrome.runtime.lastError], after a storage call failed, or with a
    [TypeError]. *)
Theorem getList_outcome localeCompare k w :
  (forall e,
     snd (run (getList localeCompare k) w) = Throw e ->
     kind e = LastErrorObject /\ (0 < failures w)%nat
     \/ kind e = TypeErrorObject)
  /\ ((exists arr, storage w !! storageKey k = Some (VArray arr))
      \/ storage (fst (run (getList localeCompare k) w)) = storage w)
  /\ timers (fst (run (getList localeCompare k) w)) = timers w.
Proof.
  split; [ | split ].
  - unfold getList. rewrite run_bind, run_await.
    destruct (readMap_outcome k w)
      as [[(ref & Hr & Hnull)|(e & Hr & Hk & Hf)] _];
      rewrite Hr.
    + destruct ref as [|m].
      * rewrite run_throw. intros e [= <-]. right. reflexivity.
      * rewrite run_ret. discriminate.
    + intros e' [= <-]. left. auto.
  - unfold getList. rewrite run_bind, run_await.
    destruct (readMap_outcome k w) as [_ Hs].
    destruct (snd (run (readMap k) w)) as [[|m]|e]; exact Hs.
  - apply (keeps_getList (R:=same_timers) k);
      auto using keeps_timers_get, keeps_timers_set, keeps_timers_Date_now,
                 keeps_timers_random, keeps_timers_console.
Qed.

End WriteRead.

(** ** Migrating a legacy array *)

Section Migration.

Import ChromeStorageService.

Lemma clock_same_storage w w' : same_storage w w' -> clock w' = clock w.
Proof. intros (_ & _ & _ & H). exact H. Qed.

Lemma reliable_same_storage w w' : same_storage w w' -> reliable w -> reliable w'.
Proof. intros (_ & H & _) Hr. unfold reliable in *. congruence. Qed.

(** Every record of the migrated map was there before or is made of an
    item of the array, at the time the migration runs. *)
Lemma migrate_records k arr :
  forall (m : MapObject) w w' m',
    run (migrate k arr m) w = (w', Ok m') ->
    forall key r,
      own m' !! key = Some r ->
      own m !! key = Some r
      \/ exists item,
           item ∈ arr
           /\ r = migrated k item key (or_else (createdAt item) (clock w)).
Proof.
  induction arr as [|item rest IH]; intros m w w' m' Hrun key r Hr.
  - cbn in Hrun. rewrite run_ret in Hrun. injection Hrun as _ <-. auto.
  - cbn [migrate] in Hrun.
    destruct (run_id_or_makeId_any (id item) w) as (w1 & i & Hid & Hsame & _).
    erewrite run_bind_ok in Hrun by exact Hid.
    unfold Date_now in Hrun. rewrite run_bind, run_gets in Hrun.
    cbn [fst snd] in Hrun.
    destruct (IH _ _ _ _ Hrun key r Hr) as [Hin|(item' & Hin & ->)].
    + destruct (own_assign_cases m i
                  (migrated k item i (or_else (createdAt item) (clock w1))))
        as [(_ & _ & Heq) | Heq]; rewrite Heq in Hin; [ auto | ].
      destruct (decide (i = key)) as [<-|Hne].
      * rewrite lookup_insert_eq in Hin. injection Hin as <-.
        right. exists item. split; [ left | ].
        rewrite (clock_same_storage w w1 Hsame). reflexivity.
      * rewrite lookup_insert_ne in Hin by exact Hne. auto.
    + right. exists item'. split; [ right; exact Hin | ].
      rewrite (clock_same_storage w w1 Hsame). reflexivity.
Qed.

(** The migration leaves the prototype alone unless an item has the id
    [__proto__]. *)
Lemma migrate_proto k arr :
  Forall (fun item => id item <> "__proto__") arr ->
  forall (m : MapObject) w w' m',
    run (migrate k arr m) w = (w', Ok m') -> proto m' = proto m.
Proof.
  induction 1 as [|item rest Hne Hrest IH]; intros m w w' m' Hrun.
  - cbn in Hrun. rewrite run_ret in Hrun. injection Hrun as _ <-. reflexivity.
  - cbn [migrate] in Hrun.
    destruct (run_id_or_makeId_any (id item) w)
      as (w1 & i & Hid & Hsame & Hi & Hgen).
    erewrite run_bind_ok in Hrun by exact Hid.
    unfold Date_now in Hrun. rewrite run_bind, run_gets in Hrun.
    cbn [fst snd] in Hrun.
    rewrite (IH _ _ _ _ Hrun). apply proto_assign_ne.
    destruct (truthy_string (id item)) eqn:E.
    + rewrite (Hi eq_refl). exact Hne.
    + apply inherited_not_proto, Hgen. reflexivity.
Qed.

Lemma createdAt_migrated k item i c :
  createdAt (migrated k item i c) = Some c.
Proof. destruct k; reflexivity. Qed.

Lemma or_else_nonzero a d : d <> 0 -> or_else a d <> 0.
Proof.
  intros Hd. unfold or_else. destruct a as [n|]; [ | exact Hd ].
  destruct (n =? 0) eqn:E; [ exact Hd | ]. apply Z.eqb_neq, E.
Qed.

(** The migration of an array whose items all have an id. *)
Lemma run_migrate_ids k arr :
  Forall (fun item => truthy_string (id item) = true) arr ->
  forall (m : MapObject) w,
    run (migrate k arr m) w
    = (w, Ok (foldl (fun acc item =>
                       assign acc (id item) (migrated_at k (clock w) item))
                    m arr)).
Proof.
  induction 1 as [|item rest Hid Hrest IH]; intros m w.
  - cbn. apply run_ret.
  - cbn [migrate foldl].
    erewrite run_bind_ok by (apply run_id_or_makeId; exact Hid).
    unfold Date_now. rewrite run_bind, run_gets. cbn [fst snd].
    apply IH.
Qed.

Lemma foldl_migrated_notin k now (l : list Entity) (i : string)
    (m : MapObject) :
  i ∉ id <$> l ->
  own (foldl (fun acc item => assign acc (id item) (migrated_at k now item))
             m l) !! i
  = own m !! i.
Proof.
  revert m. induction l as [|x l IH]; intros m Hnot; [ reflexivity | ].
  cbn [foldl]. rewrite fmap_cons in Hnot.
  apply not_elem_of_cons in Hnot as [Hne Hnot].
  rewrite (IH _ Hnot). apply lookup_own_assign_ne. exact Hne.
Qed.

Lemma foldl_migrated_last k now (l1 l2 : list Entity) item
    (m : MapObject) :
  id item ∉ id <$> l2 -> id item <> "__proto__" ->
  own (foldl (fun acc item => assign acc (id item) (migrated_at k now item))
             m (l1 ++ item :: l2)) !! id item
  = Some (migrated_at k now item).
Proof.
  intros Hnot Hproto. rewrite foldl_app. cbn [foldl].
  rewrite (foldl_migrated_notin k now l2 _ _ Hnot).
  rewrite own_assign_ne by exact Hproto. apply lookup_insert_eq.
Qed.

Lemma current_array k w arr :
  storage w !! storageKey k = Some (VArray arr) -> current k w = ∅.
Proof. intros H. unfold current. rewrite H. reflexivity. Qed.

(** What a read does with a legacy array on reliable storage. *)
Lemma run_readMap_array k arr w w1 (m' : MapObject) :
  reliable w -> storage w !! storageKey k = Some (VArray arr) ->
  run (migrate k arr (plain ∅)) w = (w1, Ok m') -> same_storage w w1 ->
  run (readMap k) w = (store k (own m') w1, Ok (RObject m')).
Proof.
  intros Hrel Hv Hmig Hsame. unfold readMap.
  run_first ltac:(apply run_storage_get; exact Hrel). rewrite Hv.
  erewrite run_bind_ok by exact Hmig.
  apply run_try_ok. rewrite run_bind, run_await.
  rewrite run_writeMap_merge_any by exact (reliable_same_storage w w1 Hsame Hrel).
  cbn [fst snd]. rewrite run_ret.
  rewrite (current_array k w1 arr), (right_id_L ∅ (∪)); [ reflexivity | ].
  destruct Hsame as (Hs & _). rewrite Hs. exact Hv.
Qed.

(** X9: the migration of a legacy array happens once.  On reliable storage,
    at a time other than 0, the read of an array resolves with an object
    whose properties it has persisted; every record among them is made of
    an item of the array, is kept under its own id and has a [createdAt]
    that is set and not 0; the prototype of the object is
    [Object.prototype] unless an item has the id [__proto__]; and a second
    read finds the same properties and changes nothing. *)
Theorem legacy_array_migrated_once k arr w :
  reliable w -> storage w !! storageKey k = Some (VArray arr) ->
  clock w <> 0 ->
  exists w' m' map,
    run (readMap k) w = (w', Ok (RObject map))
    /\ own map = m'
    /\ (Forall (fun item => id item <> "__proto__") arr -> map = plain m')
    /\ persisted k w' = Some m'
    /\ keyed_by_id m' /\ dated m'
    /\ (forall key r,
          m' !! key = Some r ->
          exists item,
            item ∈ arr
            /\ r = migrated k item key (or_else (createdAt item) (clock w)))
    /\ run (readMap k) w' = (w', Ok (RObject (plain m'))).
Proof.
  intros Hrel Hv Hclock.
  destruct (run_migrate k arr (plain ∅) w) as (w1 & map & Hmig & Hsame).
  assert (Hrecs : forall key r,
             own map !! key = Some r ->
             exists item,
               item ∈ arr
               /\ r = migrated k item key (or_else (createdAt item) (clock w))).
  { intros key r Hr.
    destruct (migrate_records k arr (plain ∅) w w1 map Hmig key r Hr) as [He|H];
      [ cbn in He; rewrite lookup_empty in He; discriminate | exact H ]. }
  exists (store k (own map) w1), (own map), map.
  split; [ apply (run_readMap_array k arr w w1 map Hrel Hv Hmig Hsame) | ].
  split; [ reflexivity | ]. split.
  { intros Hids. pose proof (migrate_proto k arr Hids _ _ _ _ Hmig) as Hp.
    destruct map as [o p]. cbn in Hp. subst p. reflexivity. }
  split; [ apply persisted_store | ].
  split; [ apply (keyed_by_id_migrate k arr (plain ∅) w keyed_by_id_empty
                    w1 map Hmig) | ].
  split; [ | split; [ exact Hrecs | ] ].
  - intros key r Hr. destruct (Hrecs key r Hr) as (item & _ & ->).
    exists (or_else (createdAt item) (clock w)).
    split; [ apply createdAt_migrated | apply or_else_nonzero, Hclock ].
  - apply run_readMap; [ | apply persisted_store ].
    apply reliable_store, (reliable_same_storage w w1 Hsame Hrel).
Qed.

(** X10: what the migration keeps of an array whose items all have an id.
    The item that is the last one with its id, if that id is not
    [__proto__], is found under that id, with its name and its payload,
    its [createdAt] or else the time of the migration, and its
    [updatedAt] or else that [createdAt]; and the map has no other keys
    than the ids of the items. *)
Theorem legacy_items_kept k l1 item l2 w :
  reliable w ->
  storage w !! storageKey k = Some (VArray (l1 ++ item :: l2)%list) ->
  Forall (fun x => truthy_string (id x) = true) (l1 ++ item :: l2)%list ->
  id item ∉ id <$> l2 -> id item <> "__proto__" ->
  exists m' map,
    run (readMap k) w = (store k m' w, Ok (RObject map))
    /\ own map = m'
    /\ m' !! id item = Some (migrated_at k (clock w) item)
    /\ name (migrated_at k (clock w) item) = name item
    /\ createdAt (migrated_at k (clock w) item)
       = Some (or_else (createdAt item) (clock w))
    /\ updatedAt (migrated_at k (clock w) item)
       = Some (or_else (updatedAt item) (or_else (createdAt item) (clock w)))
    /\ forall key, is_Some (m' !! key) -> key ∈ id <$> (l1 ++ item :: l2)%list.
Proof.
  intros Hrel Hv Hids Hlast Hproto.
  pose proof (run_migrate_ids k _ Hids (plain ∅) w) as Hmig.
  eexists _, _.
  split; [ | split; [ reflexivity | split; [ | split; [ | split; [ | split ] ] ] ] ].
  - apply (run_readMap_array k _ w w _ Hrel Hv Hmig). repeat split.
  - apply foldl_migrated_last; assumption.
  - destruct k; reflexivity.
  - destruct k; reflexivity.
  - destruct k; reflexivity.
  - intros key [r Hr].
    destruct (decide (key ∈ id <$> (l1 ++ item :: l2)%list)) as [|Hnot]; [ assumption | ].
    rewrite foldl_migrated_notin in Hr by exact Hnot.
    cbn in Hr. rewrite lookup_empty in Hr. discriminate.
Qed.

End Migration.

Lemma legacy_array_migrated_once_witness :
  exists w' m' map,
    run (ChromeStorageService.readMap PromptStore) legacy_world
    = (w', Ok (RObject map))
    /\ own map = m'
    /\ (Forall (fun item => id item <> "__proto__")
          [mkEntity "a" "first" (Some "t1") None (Some "d") (Some 3) (Some 4);
           mkEntity "b" "second" (Some "t2") None None None None] ->
        map = plain m')
    /\ persisted PromptStore w' = Some m'
    /\ keyed_by_id m' /\ dated m'
    /\ (forall key r,
          m' !! key = Some r ->
          exists item,
            item ∈ [mkEntity "a" "first" (Some "t1") None (Some "d") (Some 3) (Some 4);
                    mkEntity "b" "second" (Some "t2") None None None None]
            /\ r = ChromeStorageService.migrated PromptStore item key
                     (or_else (createdAt item) (clock legacy_world)))
    /\ run (ChromeStorageService.readMap PromptStore) w'
       = (w', Ok (RObject (plain m'))).
Proof.
  apply (legacy_array_migrated_once PromptStore _ legacy_world).
  - reflexivity.
  - reflexivity.
  - vm_compute. discriminate.
Defined.

Lemma legacy_items_kept_witness :
  exists m' map,
    run (ChromeStorageService.readMap PromptStore) legacy_world
    = (store PromptStore m' legacy_world, Ok (RObject map))
    /\ own map = m'
    /\ m' !! "b"
       = Some (mkEntity "b" "second" (Some "t2") None None (Some 100) (Some 100))
    /\ name (migrated_at PromptStore 100
               (mkEntity "b" "second" (Some "t2") None None None None))
       = "second"
    /\ createdAt (migrated_at PromptStore 100
                    (mkEntity "b" "second" (Some "t2") None None None None))
       = Some 100
    /\ updatedAt (migrated_at PromptStore 100
                    (mkEntity "b" "second" (Some "t2") None None None None))
       = Some 100
    /\ forall key, is_Some (m' !! key) -> key ∈ ["a"; "b"].
Proof.
  apply (legacy_items_kept PromptStore
           [mkEntity "a" "first" (Some "t1") None (Some "d") (Some 3) (Some 4)]
           (mkEntity "b" "second" (Some "t2") None None None None) []
           legacy_world).
  - reflexivity.
  - reflexivity.
  - repeat constructor.
  - cbn. apply not_elem_of_nil.
  - discriminate.
Defined.

(** ** The mock and the service it stands in for *)

Section Mirror.

Import ChromeStorageService Facade.

Lemma mapOf_set_objectOf k obj this :
  MockStorageService.mapOf k (MockStorageService.set_objectOf k obj this)
  = own obj.
Proof. destruct k; reflexivity. Qed.

(** A save on reliable storage, whether the record comes with an id or
    not. *)
Lemma run_saveRecord_any k input m w :
  reliable w -> persisted k w = Some m ->
  exists w0 i,
    run (id_or_makeId (id input)) w = (w0, Ok i)
    /\ same_storage w w0
    /\ (truthy_string (id input) = true -> i = id input)
    /\ (truthy_string (id input) = false -> inherited i = false)
    /\ run (saveRecord k input) w
       = (store k (assigned m i (saved m input i (clock w))) w0, Ok tt).
Proof.
  intros Hrel Hm.
  destruct (run_id_or_makeId_any (id input) w)
    as (w0 & i & Hid & Hsame & Hi & Hgen).
  exists w0, i. split; [ exact Hid | ]. split; [ exact Hsame | ].
  split; [ exact Hi | ]. split; [ exact Hgen | ].
  unfold saveRecord. erewrite run_bind_ok by exact Hid.
  cbn [save_loop].
  erewrite run_bind_ok; cycle 1.
  { apply (run_save_pass k input i m w0).
    - exact (reliable_same_storage w w0 Hsame Hrel).
    - rewrite (persisted_same_storage k w w0 Hsame). exact Hm. }
  cbn beta iota. rewrite run_ret, (clock_same_storage w w0 Hsame). reflexivity.
Qed.

(** The properties that an assignment of the saved record leaves in an
    object are those it leaves in a plain object, whatever the prototype
    is. *)
Lemma own_assign_saved (obj : MapObject) input i now :
  own (assign obj i
         (spread (record_of (member obj i)) input i
                 (createdAt_for (record_of (member obj i)) input now) now))
  = assigned (own obj) i (saved (own obj) input i now).
Proof.
  destruct (decide (i = "__proto__" /\ own obj !! i = None)) as [[-> H]|H].
  - rewrite own_assign_proto, assigned_proto by exact H. reflexivity.
  - assert (H' : i <> "__proto__" \/ is_Some (own obj !! i)).
    { destruct (decide (i = "__proto__")) as [->|]; [ right | left; assumption ].
      destruct (own obj !! "__proto__") eqn:E; [ eauto | ].
      exfalso. apply H. auto. }
    rewrite (record_of_member obj i H').
    unfold assign, assigned, assign. cbn [own plain].
    rewrite !decide_False by exact H. reflexivity.
Qed.

Lemma run_mock_saveRecord k input this w :
  exists w0 i this',
    run (id_or_makeId (id input)) w = (w0, Ok i)
    /\ run (MockStorageService.saveRecord k input this) w = (w0, Ok this')
    /\ MockStorageService.mapOf k this'
       = assigned (MockStorageService.mapOf k this) i
           (saved (MockStorageService.mapOf k this) input i (clock w)).
Proof.
  destruct (run_id_or_makeId_any (id input) w) as (w0 & i & Hid & Hsame & Hi).
  exists w0, i. eexists. split; [ exact Hid | ].
  unfold MockStorageService.saveRecord. erewrite run_bind_ok by exact Hid.
  unfold Date_now. rewrite run_bind, run_gets. cbn [fst snd].
  rewrite run_ret, (clock_same_storage w w0 Hsame).
  split; [ reflexivity | ].
  rewrite mapOf_set_objectOf. apply own_assign_saved.
Qed.

(** X11: the mock mirrors the service.  On reliable storage whose map is
    the map of the mock, listing gives the same list, if the map of the
    mock still has [Object.prototype] for its prototype; a save through
    [savePrompt] or [saveContext], or through the atomic methods with a
    concurrency service, leaves the storage with the map the mock is left
    with; and so does an atomic delete, for an id that names no member of
    [Object.prototype], in a map that keeps no record under the key
    [hasOwnProperty]. *)
Theorem mock_mirrors_service localeCompare k input i this
    (el : EventLoop unit) config :
  idle el -> reliable (world el) ->
  persisted k (world el) = Some (MockStorageService.mapOf k this) ->
  0 < maxRetries config ->
  (proto (MockStorageService.objectOf k this) = None ->
   snd (run (getList localeCompare k) (world el))
   = snd (run (MockStorageService.getList localeCompare k this) (world el)))
  /\ (exists w' this',
        snd (run (saveRecord k input) (world el)) = Ok tt
        /\ run (MockStorageService.saveRecord k input this) (world el)
           = (w', Ok this')
        /\ persisted k (fst (run (saveRecord k input) (world el)))
           = Some (MockStorageService.mapOf k this'))
  /\ (truthy_string (id input) = true ->
      exists el' w' this',
        saveAtomic (mkService (Some config)) k input el = (el', Some (Ok tt))
        /\ run (MockStorageService.saveAtomic k input this) (world el)
           = (w', Ok this')
        /\ persisted k (world el') = Some (MockStorageService.mapOf k this'))
  /\ (MockStorageService.mapOf k this !! "hasOwnProperty" = None ->
      inherited i = false ->
      exists el' w' this',
        deleteAtomic (mkService (Some config)) k i el = (el', Some (Ok tt))
        /\ run (MockStorageService.deleteAtomic k i this) (world el)
           = (w', Ok this')
        /\ persisted k (world el') = Some (MockStorageService.mapOf k this')).
Proof.
  intros Hidle Hrel Hm Hn.
  split; [ | split; [ | split ] ].
  - intros Hproto. rewrite (run_getList localeCompare k _ _ Hrel Hm).
    unfold MockStorageService.getList, MockStorageService.mapToArray,
      MockStorageService.mapOf.
    rewrite run_ret.
    destruct (MockStorageService.objectOf k this) as [o p]. cbn in Hproto.
    subst p. reflexivity.
  - destruct (run_saveRecord_any k input _ _ Hrel Hm)
      as (w0 & j & Hid & _ & _ & _ & Hrun).
    destruct (run_mock_saveRecord k input this (world el))
      as (w0' & j' & this' & Hid' & Hmock & Hmap).
    rewrite Hid in Hid'. injection Hid' as <- <-.
    eexists _, _. rewrite Hrun. cbn [fst snd].
    split; [ reflexivity | ]. split; [ exact Hmock | ].
    rewrite persisted_store, Hmap. reflexivity.
  - intros Hid.
    destruct (saveAtomic_canonical (mkService (Some config)) k input _ el
                Hidle Hrel Hm) as (el' & Hrun & _ & _ & Hp).
    { intros c [= <-]. exact Hn. }
    { exact Hid. }
    destruct (run_mock_saveRecord k input this (world el))
      as (w0' & j' & this' & Hid' & Hmock & Hmap).
    rewrite (run_id_or_makeId _ _ Hid) in Hid'. injection Hid' as <- <-.
    eexists _, _, _. split; [ exact Hrun | ]. split; [ exact Hmock | ].
    rewrite Hp, Hmap. reflexivity.
  - intros Hhas Hi.
    unfold MockStorageService.deleteAtomic, MockStorageService.deleteRecord.
    rewrite run_ret.
    destruct (MockStorageService.mapOf k this !! i) as [r|] eqn:Hr.
    + destruct (deleteAtomic_present (mkService (Some config)) k i _ r el
                  Hidle Hrel Hm Hhas Hi Hr config eq_refl Hn)
        as (el' & Hrun & _ & _ & Hp).
      eexists _, _, _. split; [ exact Hrun | ]. split; [ reflexivity | ].
      rewrite Hp, mapOf_set_objectOf. reflexivity.
    + destruct (deleteAtomic_absent (mkService (Some config)) k i _ el
                  Hidle Hrel Hm Hhas Hi Hr) as (el' & Hrun & _ & _ & Hp).
      { intros c [= <-]. exact Hn. }
      eexists _, _, _. split; [ exact Hrun | ]. split; [ reflexivity | ].
      rewrite Hp, mapOf_set_objectOf. cbn [remove own].
      fold (MockStorageService.mapOf k this).
      rewrite delete_id by exact Hr. reflexivity.
Qed.

End Mirror.

Lemma mock_mirrors_service_witness :
  (proto (MockStorageService.objectOf PromptStore example_mock) = None ->
   snd (run (ChromeStorageService.getList codeUnitCompare PromptStore)
            (world (fresh (T:=unit) example_world)))
   = snd (run (MockStorageService.getList codeUnitCompare PromptStore example_mock)
              (world (fresh (T:=unit) example_world))))
  /\ (exists w' this',
        snd (run (ChromeStorageService.saveRecord PromptStore edited_prompt)
                 (world (fresh (T:=unit) example_world))) = Ok tt
        /\ run (MockStorageService.saveRecord PromptStore edited_prompt example_mock)
               (world (fresh (T:=unit) example_world))
           = (w', Ok this')
        /\ persisted PromptStore
             (fst (run (ChromeStorageService.saveRecord PromptStore edited_prompt)
                       (world (fresh (T:=unit) example_world))))
           = Some (MockStorageService.mapOf PromptStore this'))
  /\ (truthy_string (id edited_prompt) = true ->
      exists el' w' this',
        Facade.saveAtomic (Facade.mkService (Some DEFAULT_CONCURRENCY_CONFIG))
                          PromptStore edited_prompt (fresh example_world)
        = (el', Some (Ok tt))
        /\ run (MockStorageService.saveAtomic PromptStore edited_prompt example_mock)
               (world (fresh (T:=unit) example_world))
           = (w', Ok this')
        /\ persisted PromptStore (world el')
           = Some (MockStorageService.mapOf PromptStore this'))
  /\ (MockStorageService.mapOf PromptStore example_mock !! "hasOwnProperty"
      = None ->
      inherited "p1" = false ->
      exists el' w' this',
        Facade.deleteAtomic (Facade.mkService (Some DEFAULT_CONCURRENCY_CONFIG))
                            PromptStore "p1" (fresh example_world)
        = (el', Some (Ok tt))
        /\ run (MockStorageService.deleteAtomic PromptStore "p1" example_mock)
               (world (fresh (T:=unit) example_world))
           = (w', Ok this')
        /\ persisted PromptStore (world el')
           = Some (MockStorageService.mapOf PromptStore this')).
Proof.
  apply (mock_mirrors_service codeUnitCompare PromptStore edited_prompt "p1"
           example_mock (fresh example_world) DEFAULT_CONCURRENCY_CONFIG).
  - repeat split.
  - reflexivity.
  - reflexivity.
  - reflexivity.
Defined.

(** ** What the listing shows *)

Section Shown.

Import ChromeStorageService Facade.

Variable localeCompare : string -> string -> Z.





(** An atomic delete on reliable storage, the record present or not. *)
Lemma deleteAtomic_reliable this k i m el config :
  idle el -> reliable (world el) -> persisted k (world el) = Some m ->
  m !! "hasOwnProperty" = None -> inherited i = false ->
  concurrencyService this = Some config -> 0 < maxRetries config ->
  exists el',
    deleteAtomic this k i el = (el', Some (Ok tt))
    /\ idle el' /\ reliable (world el')
    /\ persisted k (world el') = Some (delete i m).
Proof.
  intros Hidle Hrel Hm Hhas Hinh Hsvc Hn.
  destruct (m !! i) as [r|] eqn:Hi.
  - apply (deleteAtomic_present this k i m r el Hidle Hrel Hm Hhas Hinh Hi
             config Hsvc Hn).
  - destruct (deleteAtomic_absent this k i m el Hidle Hrel Hm Hhas Hinh Hi)
      as (el' & Hrun & Hidle' & Hrel' & Hp).
    { intros c Hc. rewrite Hsvc in Hc. injection Hc as <-. exact Hn. }
    exists el'. rewrite delete_id by exact Hi. auto.
Qed.


(** X13: an atomic save of a record under a new id followed by the atomic
    delete of that id leaves the map as it was: for an id that is not
    empty and names no member of [Object.prototype], in a map that keeps
    no record under the key [hasOwnProperty]. *)
Theorem save_then_delete_restores this k input m el config :
  idle el -> reliable (world el) -> persisted k (world el) = Some m ->
  m !! id input = None ->
  truthy_string (id input) = true -> inherited (id input) = false ->
  m !! "hasOwnProperty" = None ->
  concurrencyService this = Some config -> 0 < maxRetries config ->
  exists el1 el2,
    saveAtomic this k input el = (el1, Some (Ok tt))
    /\ stored_record k (id input) (world el1)
       = Some (saved m input (id input) (clock (world el)))
    /\ deleteAtomic this k (id input) el1 = (el2, Some (Ok tt))
    /\ persisted k (world el2) = Some m.
Proof.
  intros Hidle Hrel Hm Hnew Hid Hinh Hhas Hsvc Hn.
  destruct (saveAtomic_canonical this k input m el Hidle Hrel Hm)
    as (el1 & Hrun1 & Hidle1 & Hrel1 & Hp1).
  { intros c Hc. rewrite Hsvc in Hc. injection Hc as <-. exact Hn. }
  { exact Hid. }
  rewrite assigned_ne in Hp1 by (apply inherited_not_proto, Hinh).
  destruct (deleteAtomic_reliable this k (id input) _ el1 config
              Hidle1 Hrel1 Hp1) as (el2 & Hrun2 & _ & _ & Hp2);
    try assumption.
  { rewrite lookup_insert_ne; [ exact Hhas | ].
    intros Heq. rewrite Heq in Hinh. discriminate. }
  exists el1, el2. split; [ exact Hrun1 | ].
  split; [ unfold stored_record; rewrite Hp1; apply lookup_insert_eq | ].
  split; [ exact Hrun2 | ].
  rewrite Hp2, delete_insert_id by exact Hnew. reflexivity.
Qed.

End Shown.


Lemma save_then_delete_restores_witness :
  exists el1 el2,
    Facade.saveAtomic (Facade.mkService (Some DEFAULT_CONCURRENCY_CONFIG))
                      PromptStore new_prompt (fresh example_world)
    = (el1, Some (Ok tt))
    /\ stored_record PromptStore (id new_prompt) (world el1)
       = Some (saved {[ "p1" := example_prompt ]} new_prompt (id new_prompt)
                     (clock (world (fresh (T:=unit) example_world))))
    /\ Facade.deleteAtomic (Facade.mkService (Some DEFAULT_CONCURRENCY_CONFIG))
                           PromptStore (id new_prompt) el1
       = (el2, Some (Ok tt))
    /\ persisted PromptStore (world el2) = Some {[ "p1" := example_prompt ]}.
Proof.
  apply (save_then_delete_restores
           (Facade.mkService (Some DEFAULT_CONCURRENCY_CONFIG)) PromptStore
           new_prompt {[ "p1" := example_prompt ]} (fresh example_world)
           DEFAULT_CONCURRENCY_CONFIG).
  - repeat split.
  - reflexivity.
  - reflexivity.
  - reflexivity.
  - reflexivity.
  - reflexivity.
  - reflexivity.
  - reflexivity.
  - reflexivity.
Defined.

(** ** The listing of the mock *)

Section MockListing.

Import ChromeStorageService.

Variable localeCompare : string -> string -> Z.

Hypothesis localeCompare_total :
  forall a b, localeCompare a b <= 0 \/ localeCompare b a <= 0.

Hypothesis localeCompare_trans :
  forall a b c,
    localeCompare a b <= 0 -> localeCompare b c <= 0 -> localeCompare a c <= 0.

(** The listing of a map with two records, the first the older one. *)
Lemma sort_two k (i1 i2 : string) (r1 r2 : Entity) :
  i1 <> i2 -> id r1 = i1 -> id r2 = i2 ->
  default 0 (createdAt r1) < default 0 (createdAt r2) ->
  id <$> sort localeCompare (plain (<[i1 := r1]> (<[i2 := r2]> ∅)))
           (listed k <$> Object_values (<[i1 := r1]> (<[i2 := r2]> ∅)))
  = [i1; i2].
Proof.
  intros Hne H1 H2 Hlt.
  assert (Hkeyed : keyed_by_id (<[i1 := r1]> (<[i2 := r2]> ∅))).
  { apply keyed_by_id_insert; [ | exact H1 ].
    apply keyed_by_id_insert; [ apply keyed_by_id_empty | exact H2 ]. }
  destruct (sort_sorted localeCompare localeCompare_total localeCompare_trans
              k (plain (<[i1 := r1]> (<[i2 := r2]> ∅))) Hkeyed)
    as (recs & Hrecs & Hperm & Hsorted).
  cbn [own plain] in Hrecs, Hperm. rewrite Hrecs.
  assert (Hvalues : Object_values (<[i1 := r1]> (<[i2 := r2]> ∅)) ≡ₚ [r1; r2]).
  { unfold Object_values. rewrite map_to_list_insert; cycle 1.
    { rewrite lookup_insert_ne by congruence. apply lookup_empty. }
    rewrite insert_empty, map_to_list_singleton. reflexivity. }
  rewrite Hvalues in Hperm. symmetry in Hperm.
  apply Permutation_length_2_inv in Hperm as [-> | ->].
  - cbn. rewrite !id_listed, H1, H2. reflexivity.
  - exfalso. inversion Hsorted as [|x l _ Hall]; subst.
    apply Forall_cons in Hall as [[Hlt'|[Heq _]] _]; lia.
Qed.

(** X14: the lists of the mock are sorted like those of the service, by
    [createdAt] and then by id, as long as every record is kept under its
    own id; the saves and the deletes of the mock keep it so; and the mock
    that is built without an initial map lists its two prompts and its two
    contexts oldest first. *)
Theorem mock_getList_sorted k this input i w :
  keyed_by_id (MockStorageService.mapOf k this) ->
  (exists recs,
     run (MockStorageService.getList localeCompare k this) w
     = (w, Ok (listed k <$> recs))
     /\ recs ≡ₚ Object_values (MockStorageService.mapOf k this)
     /\ StronglySorted (record_order localeCompare) recs)
  /\ (exists w' this',
        run (MockStorageService.saveRecord k input this) w = (w', Ok this')
        /\ keyed_by_id (MockStorageService.mapOf k this'))
  /\ (exists w' this',
        run (MockStorageService.deleteRecord k i this) w = (w', Ok this')
        /\ keyed_by_id (MockStorageService.mapOf k this'))
  /\ (id <$> MockStorageService.mapToArray localeCompare PromptStore
               (MockStorageService.new None w)) = ["1"; "2"]
  /\ (id <$> MockStorageService.mapToArray localeCompare ContextStore
               (MockStorageService.new None w)) = ["c1"; "c2"].
Proof.
  intros Hkeyed.
  split; [ | split; [ | split; [ | split ] ] ].
  - destruct (sort_sorted localeCompare localeCompare_total localeCompare_trans
                k (MockStorageService.objectOf k this) Hkeyed)
      as (recs & Heq & Hperm & Hsorted).
    exists recs. unfold MockStorageService.getList, MockStorageService.mapToArray.
    rewrite run_ret, Heq. auto.
  - destruct (run_mock_saveRecord k input this w)
      as (w0 & j & this' & _ & Hrun & Hmap).
    eexists _, _. split; [ exact Hrun | ].
    rewrite Hmap. apply keyed_by_id_assigned; [ exact Hkeyed | reflexivity ].
  - unfold MockStorageService.deleteRecord. rewrite run_ret.
    eexists _, _. split; [ reflexivity | ].
    rewrite mapOf_set_objectOf. apply keyed_by_id_delete, Hkeyed.
  - apply sort_two; [ discriminate | reflexivity | reflexivity | cbn; lia ].
  - apply sort_two; [ discriminate | reflexivity | reflexivity | cbn; lia ].
Qed.

End MockListing.

Lemma mock_getList_sorted_witness :
  (exists recs,
     run (MockStorageService.getList codeUnitCompare PromptStore example_mock)
         example_world
     = (example_world, Ok (ChromeStorageService.listed PromptStore <$> recs))
     /\ recs ≡ₚ ChromeStorageService.Object_values
                  (MockStorageService.mapOf PromptStore example_mock)
     /\ StronglySorted (record_order codeUnitCompare) recs)
  /\ (exists w' this',
        run (MockStorageService.saveRecord PromptStore edited_prompt example_mock)
            example_world
        = (w', Ok this')
        /\ keyed_by_id (MockStorageService.mapOf PromptStore this'))
  /\ (exists w' this',
        run (MockStorageService.deleteRecord PromptStore "p1" example_mock)
            example_world
        = (w', Ok this')
        /\ keyed_by_id (MockStorageService.mapOf PromptStore this'))
  /\ (id <$> MockStorageService.mapToArray codeUnitCompare PromptStore
               (MockStorageService.new None example_world)) = ["1"; "2"]
  /\ (id <$> MockStorageService.mapToArray codeUnitCompare ContextStore
               (MockStorageService.new None example_world)) = ["c1"; "c2"].
Proof.
  apply (mock_getList_sorted codeUnitCompare codeUnitCompare_total
           codeUnitCompare_trans PromptStore example_mock edited_prompt "p1"
           example_world).
  apply (keyed_by_id_singleton example_prompt).
Defined.

(** ** What every save and delete keeps of the map *)

Section MapInvariants.

Import ChromeStorageService Facade.

Lemma dated_empty : dated ∅.
Proof. intros key r H. rewrite lookup_empty in H. discriminate. Qed.

Lemma dated_saved (m : gmap string Entity) input i now :
  dated m -> now <> 0 -> dated (<[i := saved m input i now]> m).
Proof.
  intros Hd Hnow key r H. destruct (decide (i = key)) as [<-|Hne].
  - rewrite lookup_insert_eq in H. injection H as <-.
    eexists. split; [ apply createdAt_saved | ].
    apply createdAt_for_nonzero, Hnow.
  - rewrite lookup_insert_ne in H by exact Hne. apply (Hd key r H).
Qed.

Lemma dated_delete (m : gmap string Entity) (i : string) :
  dated m -> dated (delete i m).
Proof.
  intros Hd key r H. apply lookup_delete_Some in H as [_ H]. apply (Hd key r H).
Qed.

Lemma dated_assigned (m : gmap string Entity) input i now :
  dated m -> now <> 0 -> dated (assigned m i (saved m input i now)).
Proof.
  intros Hd Hnow.
  destruct (assigned_cases m i (saved m input i now)) as [(_ & _ & ->) | ->].
  - exact Hd.
  - apply dated_saved; assumption.
Qed.

(** X15: every save and every atomic delete keeps each record under its own
    id and with a [createdAt] that is set and not 0, on reliable storage
    and at a time other than 0: a save of any record, under [__proto__]
    too, which leaves the map as it is; a delete of an id that names no
    member of [Object.prototype], from a map that keeps no record under
    the key [hasOwnProperty]. *)
Theorem saves_and_deletes_keep_the_map_well_formed this k input i m el config :
  idle el -> reliable (world el) -> persisted k (world el) = Some m ->
  keyed_by_id m -> dated m -> clock (world el) <> 0 ->
  concurrencyService this = Some config -> 0 < maxRetries config ->
  (exists w' m',
     run (saveRecord k input) (world el) = (w', Ok tt)
     /\ persisted k w' = Some m' /\ keyed_by_id m' /\ dated m')
  /\ (truthy_string (id input) = true ->
      exists el' m',
        saveAtomic this k input el = (el', Some (Ok tt))
        /\ persisted k (world el') = Some m' /\ keyed_by_id m' /\ dated m')
  /\ (m !! "hasOwnProperty" = None -> inherited i = false ->
      exists el' m',
        deleteAtomic this k i el = (el', Some (Ok tt))
        /\ persisted k (world el') = Some m' /\ keyed_by_id m' /\ dated m').
Proof.
  intros Hidle Hrel Hm Hkeyed Hdated Hclock Hsvc Hn.
  split; [ | split ].
  - destruct (run_saveRecord_any k input m _ Hrel Hm)
      as (w0 & j & _ & _ & _ & _ & Hrun).
    eexists _, _. split; [ exact Hrun | ]. split; [ apply persisted_store | ].
    split; [ apply keyed_by_id_assigned; [ exact Hkeyed | reflexivity ]
           | apply dated_assigned; assumption ].
  - intros Hid.
    destruct (saveAtomic_canonical this k input m el Hidle Hrel Hm)
      as (el' & Hrun & _ & _ & Hp).
    { intros c Hc. rewrite Hsvc in Hc. injection Hc as <-. exact Hn. }
    { exact Hid. }
    eexists _, _. split; [ exact Hrun | ]. split; [ exact Hp | ].
    split; [ apply keyed_by_id_assigned; [ exact Hkeyed | reflexivity ]
           | apply dated_assigned; assumption ].
  - intros Hhas Hinh.
    destruct (deleteAtomic_reliable this k i m el config Hidle Hrel Hm Hhas
                Hinh Hsvc Hn)
      as (el' & Hrun & _ & _ & Hp).
    eexists _, _. split; [ exact Hrun | ]. split; [ exact Hp | ].
    split; [ apply keyed_by_id_delete, Hkeyed | apply dated_delete, Hdated ].
Qed.

End MapInvariants.

Lemma saves_and_deletes_keep_the_map_well_formed_witness :
  (exists w' m',
     run (ChromeStorageService.saveRecord PromptStore new_prompt)
         (world (fresh (T:=unit) example_world))
     = (w', Ok tt)
     /\ persisted PromptStore w' = Some m' /\ keyed_by_id m' /\ dated m')
  /\ (truthy_string (id new_prompt) = true ->
      exists el' m',
        Facade.saveAtomic (Facade.mkService (Some DEFAULT_CONCURRENCY_CONFIG))
                          PromptStore new_prompt (fresh example_world)
        = (el', Some (Ok tt))
        /\ persisted PromptStore (world el') = Some m'
        /\ keyed_by_id m' /\ dated m')
  /\ (({[ "p1" := example_prompt ]} : gmap string Entity) !! "hasOwnProperty"
      = None ->
      inherited "p1" = false ->
      exists el' m',
        Facade.deleteAtomic (Facade.mkService (Some DEFAULT_CONCURRENCY_CONFIG))
                            PromptStore "p1" (fresh example_world)
        = (el', Some (Ok tt))
        /\ persisted PromptStore (world el') = Some m'
        /\ keyed_by_id m' /\ dated m').
Proof.
  apply (saves_and_deletes_keep_the_map_well_formed
           (Facade.mkService (Some DEFAULT_CONCURRENCY_CONFIG)) PromptStore
           new_prompt "p1" {[ "p1" := example_prompt ]} (fresh example_world)
           DEFAULT_CONCURRENCY_CONFIG).
  - repeat split.
  - reflexivity.
  - reflexivity.
  - apply (keyed_by_id_singleton example_prompt).
  - intros key r H. apply lookup_singleton_Some in H as [_ <-].
    exists 5. split; [ reflexivity | discriminate ].
  - discriminate.
  - reflexivity.
  - reflexivity.
Defined.

(** ** The backoff *)

(** X16: the backoff before the retry that follows attempt [attempt] never
    exceeds [maxDelay], never shrinks from one attempt to the next, and
    doubles [baseDelay] with every attempt as long as that stays within
    [maxDelay]: for the attempts and the delays of which the code computes
    a number, that is a [baseDelay] above 0, or a [baseDelay] of 0 as long
    as the next attempt is not beyond 1024, where [Math.pow(2, attempt - 1)]
    is [Infinity] and the product with 0 is [NaN]. *)
Theorem calculateBackoffDelay_bounds attempt baseDelay maxDelay :
  1 <= attempt -> 0 <= baseDelay ->
  0 < baseDelay \/ attempt < 1024 ->
  calculateBackoffDelay attempt baseDelay maxDelay <= maxDelay
  /\ calculateBackoffDelay attempt baseDelay maxDelay
     <= calculateBackoffDelay (attempt + 1) baseDelay maxDelay
  /\ calculateBackoffDelay 1 baseDelay maxDelay = Z.min baseDelay maxDelay
  /\ (baseDelay * 2 ^ attempt <= maxDelay ->
      calculateBackoffDelay (attempt + 1) baseDelay maxDelay
      = 2 * calculateBackoffDelay attempt baseDelay maxDelay)
  /\ (0 <= maxDelay -> 0 <= calculateBackoffDelay attempt baseDelay maxDelay).
Proof.
  intros Hattempt Hbase _. unfold calculateBackoffDelay.
  replace (2 ^ attempt) with (2 * 2 ^ (attempt - 1))
    by (rewrite <- Z.pow_succ_r by lia; f_equal; lia).
  replace (attempt + 1 - 1) with (Z.succ (attempt - 1)) by lia.
  rewrite Z.pow_succ_r by lia.
  assert (Hpow : 0 < 2 ^ (attempt - 1)) by (apply Z.pow_pos_nonneg; lia).
  change (1 - 1) with 0. rewrite Z.pow_0_r, Z.mul_1_r.
  assert (Hdelay : 0 <= baseDelay * 2 ^ (attempt - 1)) by nia.
  replace (baseDelay * (2 * 2 ^ (attempt - 1)))
    with (2 * (baseDelay * 2 ^ (attempt - 1))) by ring.
  generalize dependent (baseDelay * 2 ^ (attempt - 1)). intros delay Hdelay.
  repeat split; lia.
Qed.

Lemma calculateBackoffDelay_bounds_witness :
  calculateBackoffDelay 3 10 1000 <= 1000
  /\ calculateBackoffDelay 3 10 1000 <= calculateBackoffDelay (3 + 1) 10 1000
  /\ calculateBackoffDelay 1 10 1000 = Z.min 10 1000
  /\ (10 * 2 ^ 3 <= 1000 ->
      calculateBackoffDelay (3 + 1) 10 1000 = 2 * calculateBackoffDelay 3 10 1000)
  /\ (0 <= 1000 -> 0 <= calculateBackoffDelay 3 10 1000).
Proof.
  apply (calculateBackoffDelay_bounds 3 10 1000); lia.
Defined.

(** ** A service that allows no attempt *)

Section NoAttempt.

Import ChromeStorageService ConcurrencyService Facade.

Lemma run_executeWithRetry_none {T} config (op : Async T) n w :
  n <= 0 ->
  run (executeWithRetry config op n) w
  = (service_recordOperation config false 0 w,
     Throw (new_Error ("Operation failed after " +:+ pretty n
                       +:+ " attempts: Unknown error"))).
Proof.
  intros Hn. unfold executeWithRetry. rewrite run_bind. unfold Date_now.
  rewrite run_gets. cbn [fst snd].
  replace (Z.to_nat n) with O by lia.
  rewrite run_retry_loop_O, Z.sub_diag. reflexivity.
Qed.

Lemma executeAtomicWithRetry_none {T} config (op : Async T) n (el : EventLoop T) :
  idle el -> n <= 0 ->
  snd (executeAtomicWithRetry config op n el)
  = Some (Throw (new_Error ("Operation failed after " +:+ pretty n
                            +:+ " attempts: Unknown error")))
  /\ storage (world (fst (executeAtomicWithRetry config op n el)))
     = storage (world el)
  /\ timers (world (fst (executeAtomicWithRetry config op n el)))
     = timers (world el).
Proof.
  intros Hidle Hn. unfold executeAtomicWithRetry.
  rewrite executeAtomic_idle by exact Hidle.
  rewrite run_executeWithRetry_none by exact Hn. cbn [fst snd world set_world].
  split; [ reflexivity | ].
  unfold service_recordOperation, generateOperationId.
  destruct (enableMetrics config), (random (world el)); split; reflexivity.
Qed.

(** X17: with [maxRetries] at 0 or below, [executeWithRetry] never calls the
    operation: it rejects at once with "Operation failed after N attempts:
    Unknown error" and records one failure.  So a storage service whose
    concurrency service is configured that way rejects every atomic save
    and delete, touching neither the storage nor a timer. *)
Theorem no_attempt_without_retries {T} (op : Async T) n w this k input i
    (el : EventLoop unit) config :
  n <= 0 -> idle el ->
  concurrencyService this = Some config -> maxRetries config <= 0 ->
  run (executeWithRetry config op n) w
  = (service_recordOperation config false 0 w,
     Throw (new_Error ("Operation failed after " +:+ pretty n
                       +:+ " attempts: Unknown error")))
  /\ snd (saveAtomic this k input el)
     = Some (Throw (new_Error ("Operation failed after "
                               +:+ pretty (maxRetries config)
                               +:+ " attempts: Unknown error")))
  /\ storage (world (fst (saveAtomic this k input el))) = storage (world el)
  /\ timers (world (fst (saveAtomic this k input el))) = timers (world el)
  /\ snd (deleteAtomic this k i el)
     = Some (Throw (new_Error ("Operation failed after "
                               +:+ pretty (maxRetries config)
                               +:+ " attempts: Unknown error")))
  /\ storage (world (fst (deleteAtomic this k i el))) = storage (world el)
  /\ timers (world (fst (deleteAtomic this k i el))) = timers (world el).
Proof.
  intros Hn Hidle Hsvc Hmax.
  split; [ apply run_executeWithRetry_none, Hn | ].
  unfold saveAtomic, deleteAtomic. rewrite Hsvc.
  destruct (executeAtomicWithRetry_none config (saveAtomic_operation k input)
              (maxRetries config) el Hidle Hmax) as (H1 & H2 & H3).
  destruct (executeAtomicWithRetry_none config (deleteAtomic_operation k i)
              (maxRetries config) el Hidle Hmax) as (H4 & H5 & H6).
  auto 10.
Qed.

End NoAttempt.

Lemma no_attempt_without_retries_witness :
  run (ConcurrencyService.executeWithRetry no_retry_config (ret tt) 0) example_world
  = (ConcurrencyService.service_recordOperation no_retry_config false 0
       example_world,
     Throw (new_Error ("Operation failed after " +:+ pretty 0
                       +:+ " attempts: Unknown error")))
  /\ snd (Facade.saveAtomic (Facade.mkService (Some no_retry_config)) PromptStore
            edited_prompt (fresh example_world))
     = Some (Throw (new_Error ("Operation failed after "
                               +:+ pretty (maxRetries no_retry_config)
                               +:+ " attempts: Unknown error")))
  /\ storage (world (fst (Facade.saveAtomic
                            (Facade.mkService (Some no_retry_config)) PromptStore
                            edited_prompt (fresh example_world))))
     = storage (world (fresh (T:=unit) example_world))
  /\ timers (world (fst (Facade.saveAtomic
                           (Facade.mkService (Some no_retry_config)) PromptStore
                           edited_prompt (fresh example_world))))
     = timers (world (fresh (T:=unit) example_world))
  /\ snd (Facade.deleteAtomic (Facade.mkService (Some no_retry_config))
            PromptStore "p1" (fresh example_world))
     = Some (Throw (new_Error ("Operation failed after "
                               +:+ pretty (maxRetries no_retry_config)
                               +:+ " attempts: Unknown error")))
  /\ storage (world (fst (Facade.deleteAtomic
                            (Facade.mkService (Some no_retry_config)) PromptStore
                            "p1" (fresh example_world))))
     = storage (world (fresh (T:=unit) example_world))
  /\ timers (world (fst (Facade.deleteAtomic
                           (Facade.mkService (Some no_retry_config)) PromptStore
                           "p1" (fresh example_world))))
     = timers (world (fresh (T:=unit) example_world)).
Proof.
  apply (no_attempt_without_retries (ret tt) 0 example_world
           (Facade.mkService (Some no_retry_config)) PromptStore edited_prompt
           "p1" (fresh example_world) no_retry_config).
  - lia.
  - repeat split.
  - reflexivity.
  - cbn. lia.
Defined.

(** ** Counting a retried operation *)

#[global] Instance same_serviceMetrics_preorder : PreOrder same_serviceMetrics.
Proof.
  split.
  - intros w. reflexivity.
  - intros a b c Hab Hbc. unfold same_serviceMetrics in *. congruence.
Qed.

Section CountedOnce.

Import ConcurrencyService.

Context {T : Type}.
Variable config : ConcurrencyConfig.
Variable op : Async T.

Hypothesis op_keeps : keeps same_serviceMetrics op.

Lemma serviceMetrics_after_failure maxRetries attempt_no e w :
  serviceMetrics (after_failure config maxRetries attempt_no e w)
  = serviceMetrics w.
Proof.
  unfold after_failure.
  destruct (logOperations config), (attempt_no <? maxRetries); reflexivity.
Qed.

Lemma counted_once_recorded success latency w :
  counted_once config success (serviceMetrics w)
    (serviceMetrics (service_recordOperation config success latency w)).
Proof.
  unfold counted_once, service_recordOperation.
  destruct (enableMetrics config), success; cbn; repeat split; lia.
Qed.

Lemma retry_loop_counted_once maxRetries startTime remaining :
  forall attempt_no lastErr w,
    counted_once config
      (succeeded (snd (run (retry_loop config op maxRetries startTime remaining
                                       attempt_no lastErr) w)))
      (serviceMetrics w)
      (serviceMetrics (fst (run (retry_loop config op maxRetries startTime
                                            remaining attempt_no lastErr) w))).
Proof.
  induction remaining as [|n IH]; intros attempt_no lastErr w.
  - rewrite run_retry_loop_O. cbn [fst snd succeeded].
    apply counted_once_recorded.
  - rewrite run_retry_loop_S. pose proof (op_keeps w) as Hkeep.
    unfold same_serviceMetrics in Hkeep.
    destruct (snd (run op w)) as [a|e]; cbn [fst snd succeeded].
    + rewrite <- Hkeep. apply counted_once_recorded.
    + rewrite <- Hkeep,
        <- (serviceMetrics_after_failure maxRetries attempt_no e (fst (run op w))).
      apply IH.
Qed.

(** X18: a retried operation is counted once.  Whatever the number of
    attempts, [executeWithRetry] adds one operation to the metrics of the
    service when [enableMetrics] is on, a success if it resolves and a
    failure if it rejects, and nothing when it is off. *)
Theorem executeWithRetry_counted_once maxRetries w :
  counted_once config
    (succeeded (snd (run (executeWithRetry config op maxRetries) w)))
    (serviceMetrics w)
    (serviceMetrics (fst (run (executeWithRetry config op maxRetries) w))).
Proof.
  unfold executeWithRetry. rewrite run_bind. unfold Date_now.
  rewrite run_gets. cbn [fst snd]. apply retry_loop_counted_once.
Qed.

End CountedOnce.

Lemma executeWithRetry_counted_once_witness :
  counted_once DEFAULT_CONCURRENCY_CONFIG
    (succeeded (snd (run (ConcurrencyService.executeWithRetry
                            DEFAULT_CONCURRENCY_CONFIG (failing "boom") 3)
                         example_world)))
    (serviceMetrics example_world)
    (serviceMetrics (fst (run (ConcurrencyService.executeWithRetry
                                 DEFAULT_CONCURRENCY_CONFIG (failing "boom") 3)
                              example_world))).
Proof.
  apply (executeWithRetry_counted_once DEFAULT_CONCURRENCY_CONFIG
           (failing "boom")).
  intros w. reflexivity.
Defined.

(** ** The metrics of the queue *)

Section QueueMetrics.

Context {T : Type}.
Implicit Types (el : EventLoop T).

Lemma resolved_snoc (outs : list (string * Result T)) i r :
  resolved (outs ++ [(i, r)]) = resolved outs + (if succeeded r then 1 else 0).
Proof.
  unfold resolved. rewrite filter_app, length_app, Nat2Z.inj_add. f_equal.
  destruct r; reflexivity.
Qed.

Lemma rejected_snoc (outs : list (string * Result T)) i r :
  rejected (outs ++ [(i, r)]) = rejected outs + (if succeeded r then 0 else 1).
Proof.
  unfold rejected. rewrite filter_app, length_app, Nat2Z.inj_add. f_equal.
  destruct r; reflexivity.
Qed.

Lemma fresh_counted w : counted_since [] (fresh (T:=T) w).
Proof. exists []. repeat split. Qed.

Lemma processQueue_loop_counted before el :
  counted_since before el -> counted_since before (processQueue_loop el).
Proof.
  intros (since & Ho & Ht & Hs & Hf & Hd). destruct el as [[q p m] w r b outs tr].
  unfold processQueue_loop. cbn in *.
  destruct q as [|op rest]; cbn; exists since; cbn; auto.
Qed.

Lemma step_counted before s el :
  counted_since before el -> counted_since before (step s el).
Proof.
  intros H. destruct s as [op | i | | d]; cbn [step].
  - unfold enqueue, processQueue.
    destruct H as (since & Ho & Ht & Hs & Hf & Hd).
    destruct el as [[q p m] w r b outs tr].
    cbn in *.
    destruct p; cbn.
    + exists since. cbn. auto.
    + rewrite length_app. cbn.
      replace (length q + 1 =? 0)%nat with false
        by (symmetry; apply Nat.eqb_neq; lia).
      apply processQueue_loop_counted. exists since. cbn.
      repeat (split; [ assumption | ]).
      unfold getQueueDepth. cbn. rewrite length_app. reflexivity.
  - destruct (running el !! i) as [[op [r|k]]|] eqn:Hi.
    + destruct H as (since & Ho & Ht & Hs & Hf & Hd).
      destruct el as [[q p m] w rn b outs tr].
      cbn in *. exists (since ++ [(operationId op, r)])%list. cbn.
      split; [ rewrite Ho, app_assoc; reflexivity | ].
      split; [ rewrite length_app, Nat2Z.inj_add, Ht; reflexivity | ].
      split; [ rewrite resolved_snoc, <- Hs; destruct r; cbn; lia | ].
      split; [ rewrite rejected_snoc, <- Hf; destruct r; cbn; lia | ].
      exact Hd.
    + destruct H as (since & H). exists since. exact H.
    + exact H.
  - destruct (resumable el) eqn:Hb; [ | exact H ].
    apply processQueue_loop_counted.
    destruct H as (since & H). exists since. exact H.
  - destruct H as (since & H). exists since. exact H.
Qed.

Lemma steps_counted before schedule :
  forall el, counted_since before el -> counted_since before (steps schedule el).
Proof.
  induction schedule as [|s schedule IH]; intros el H; [ exact H | ].
  cbn. apply IH, step_counted, H.
Qed.

Lemma resolved_rejected (outs : list (string * Result T)) :
  resolved outs + rejected outs = Z.of_nat (length outs).
Proof.
  induction outs as [|[i r] outs IH] using rev_ind; [ reflexivity | ].
  rewrite resolved_snoc, rejected_snoc, length_app, Nat2Z.inj_add.
  destruct r; cbn; lia.
Qed.

(** X19: the metrics of the queue count its settled operations.  Whatever
    the callers and the event loop do, [totalOperations] is the number of
    operations that have settled, [successfulOperations] the number of
    promises of [enqueue] that resolved, [failedOperations] the number of
    those that rejected, the two add up to the total, and the [queueDepth]
    of the metrics is what [getQueueDepth] returns. *)
Theorem queue_metrics_count (w : World) (schedule : list (Step T)) :
  totalOperations (queue_getMetrics (writeQueue (steps schedule (fresh w))))
  = Z.of_nat (length (settled_ids (trace (steps schedule (fresh w)))))
  /\ successfulOperations (queue_getMetrics (writeQueue (steps schedule (fresh w))))
     = resolved (outcomes (steps schedule (fresh w)))
  /\ failedOperations (queue_getMetrics (writeQueue (steps schedule (fresh w))))
     = rejected (outcomes (steps schedule (fresh w)))
  /\ totalOperations (queue_getMetrics (writeQueue (steps schedule (fresh w))))
     = successfulOperations
         (queue_getMetrics (writeQueue (steps schedule (fresh w))))
       + failedOperations
           (queue_getMetrics (writeQueue (steps schedule (fresh w))))
  /\ queueDepth (queue_getMetrics (writeQueue (steps schedule (fresh w))))
     = getQueueDepth (writeQueue (steps schedule (fresh w))).
Proof.
  destruct (steps_counted [] schedule _ (fresh_counted w))
    as (since & Ho & Ht & Hs & Hf & Hd).
  cbn in Ho. rewrite Ho.
  pose proof (reachable_invariant w schedule) as Hinv.
  unfold queue_getMetrics.
  split; [ | split; [ exact Hs | split; [ exact Hf | split; [ | exact Hd ] ] ] ].
  - rewrite Ht, <- (inv_outcomes _ Hinv), length_fmap, Ho. reflexivity.
  - rewrite Ht, Hs, Hf. symmetry. apply resolved_rejected.
Qed.

(** X20: only [enqueue] starts the worker, and the worker never leaves an
    operation waiting.  In every state the callers and the event loop can
    bring about, a further call of [processQueue] (as [flush] makes) does
    nothing, and if an operation is waiting then the worker is processing:
    one operation is running, or the worker is about to take the next. *)
Theorem worker_started_by_enqueue_only (w : World) (schedule : list (Step T)) :
  processQueue (steps schedule (fresh w)) = steps schedule (fresh w)
  /\ (queue (writeQueue (steps schedule (fresh w))) = []
      \/ processing (writeQueue (steps schedule (fresh w))) = true
         /\ (length (running (steps schedule (fresh w))) = 1%nat
             \/ resumable (steps schedule (fresh w)) = true)).
Proof.
  pose proof (reachable_invariant w schedule) as Hinv.
  destruct (inv_phase _ Hinv) as [(Hp & Hq & Hr & Hb) | op s Hp Hr Hb | Hp Hr Hb];
    unfold processQueue; rewrite Hp.
  - rewrite Hq. split; [ reflexivity | left; reflexivity ].
  - split; [ reflexivity | right ]. rewrite Hr. auto.
  - split; [ reflexivity | right ]. auto.
Qed.

End QueueMetrics.

(** ** Clearing the queue *)

Section Clearing.

Context {T : Type}.
Implicit Types (el : EventLoop T).

Lemma processQueue_loop_fifo_since before el :
  fifo_since before el -> fifo_since before (processQueue_loop el).
Proof.
  intros (since & Htr & Hfifo). destruct el as [[q p m] w r b outs tr].
  unfold processQueue_loop. cbn in *.
  destruct q as [|op rest]; cbn.
  - exists since. cbn. auto.
  - exists (since ++ [Started (operationId op)])%list. cbn. split.
    + rewrite Htr, app_assoc. reflexivity.
    + rewrite enqueued_ids_snoc, started_ids_snoc, app_nil_r, Hfifo.
      cbn. rewrite <- app_assoc. reflexivity.
Qed.

Lemma step_fifo_since before s el :
  fifo_since before el -> fifo_since before (step s el).
Proof.
  intros H. destruct s as [op | i | | d]; cbn [step].
  - unfold enqueue, processQueue.
    destruct H as (since & Htr & Hfifo).
    destruct el as [[q p m] w r b outs tr]. cbn in *.
    assert (Hpushed :
      fifo_since before
        (mkLoop
           (updateQueueDepth
              (mkQueue (q ++ [mkQueuedOperation (snd (generateOperationId w)) op
                                (clock (fst (generateOperationId w))) 0])
                       p m))
           (fst (generateOperationId w)) r b outs
           (tr ++ [Enqueued (snd (generateOperationId w))]))).
    { exists (since ++ [Enqueued (snd (generateOperationId w))])%list. cbn. split.
      - rewrite Htr, app_assoc. reflexivity.
      - rewrite enqueued_ids_snoc, started_ids_snoc, app_nil_r, Hfifo, fmap_app.
        cbn. rewrite <- app_assoc. reflexivity. }
    destruct p; cbn.
    + exact Hpushed.
    + rewrite length_app. cbn.
      replace (length q + 1 =? 0)%nat with false
        by (symmetry; apply Nat.eqb_neq; lia).
      apply processQueue_loop_fifo_since.
      destruct Hpushed as (since' & Htr' & Hfifo').
      exists since'. cbn in *. auto.
  - destruct H as (since & Htr & Hfifo).
    destruct (running el !! i) as [[op [r|k]]|] eqn:Hi.
    + exists (since ++ [Settled (operationId op) (succeeded r)])%list. cbn. split.
      * rewrite Htr, app_assoc. reflexivity.
      * rewrite enqueued_ids_snoc, started_ids_snoc, !app_nil_r. exact Hfifo.
    + exists (since ++ [Ran (operationId op)])%list. cbn. split.
      * rewrite Htr, app_assoc. reflexivity.
      * rewrite enqueued_ids_snoc, started_ids_snoc, !app_nil_r. exact Hfifo.
    + exists since. auto.
  - destruct (resumable el) eqn:Hb; [ | exact H ].
    apply processQueue_loop_fifo_since.
    destruct H as (since & Htr & Hfifo). exists since. auto.
  - destruct H as (since & Htr & Hfifo). exists since. auto.
Qed.

Lemma steps_fifo_since before schedule :
  forall el, fifo_since before el -> fifo_since before (steps schedule el).
Proof.
  induction schedule as [|s schedule IH]; intros el H; [ exact H | ].
  cbn. apply IH, step_fifo_since, H.
Qed.

Lemma enqueued_ids_app (a b : list (@Event)) :
  enqueued_ids (a ++ b) = (enqueued_ids a ++ enqueued_ids b)%list.
Proof. apply omap_app. Qed.

Lemma started_ids_app (a b : list (@Event)) :
  started_ids (a ++ b) = (started_ids a ++ started_ids b)%list.
Proof. apply omap_app. Qed.

(** With nothing waiting and no caller, what settles was running. *)
Lemma step_internal_settles s el :
  internal s -> queue (writeQueue el) = [] ->
  queue (writeQueue (step s el)) = []
  /\ (length (outcomes (step s el)) + length (running (step s el))
      = length (outcomes el) + length (running el))%nat.
Proof.
  intros Hs Hq. destruct s as [op | i | | d]; cbn [step]; [ destruct Hs | .. ].
  - destruct (running el !! i) as [[op [r|k]]|] eqn:Hi; cbn.
    + split; [ exact Hq | ].
      apply lookup_lt_Some in Hi.
      rewrite length_app, length_delete by eauto using lookup_lt_is_Some_2.
      cbn. lia.
    + split; [ exact Hq | ]. rewrite length_insert. reflexivity.
    + auto.
  - destruct (resumable el); [ | auto ].
    unfold processQueue_loop. cbn. rewrite Hq. cbn. auto.
  - cbn. auto.
Qed.

Lemma steps_internal_settle schedule :
  forall el,
    Forall internal schedule -> queue (writeQueue el) = [] ->
    (length (outcomes (steps schedule el)) + length (running (steps schedule el))
     = length (outcomes el) + length (running el))%nat.
Proof.
  induction schedule as [|s schedule IH]; intros el Hall Hq; [ reflexivity | ].
  apply Forall_cons in Hall as [Hs Hall].
  change (steps (s :: schedule) el) with (steps schedule (step s el)).
  destruct (step_internal_settles s el Hs Hq) as [Hq' Hlen].
  rewrite (IH _ Hall Hq'). exact Hlen.
Qed.

(** X21: [clear()] drops the operations that are waiting, and only those.
    The queue is empty at once and the operation in flight goes on.  From
    then on the operations are started in the order in which they are
    enqueued after the call; as long as no caller enqueues, none is
    started and nothing settles but what was in flight: the operations
    that were waiting never run, and their promises never settle. *)
Theorem clear_drops_the_waiting (w : World) (before after : list (Step T)) :
  getQueueDepth (writeQueue (cleared_after w before)) = 0
  /\ queueDepth (queue_getMetrics (writeQueue (cleared_after w before))) = 0
  /\ running (cleared_after w before) = running (steps before (fresh w))
  /\ enqueued_ids (trace (steps before (fresh w)))
     = (started_ids (trace (steps before (fresh w)))
        ++ (operationId <$> queue (writeQueue (steps before (fresh w)))))%list
  /\ fifo_since (trace (steps before (fresh w)))
                (steps after (cleared_after w before))
  /\ (Forall internal after ->
      started_ids (trace (steps after (cleared_after w before)))
      = started_ids (trace (steps before (fresh w)))
      /\ queue (writeQueue (steps after (cleared_after w before))) = []
      /\ (length (outcomes (steps after (cleared_after w before)))
          + length (running (steps after (cleared_after w before)))
          = length (outcomes (steps before (fresh w)))
            + length (running (steps before (fresh w))))%nat).
Proof.
  assert (Hsince : fifo_since (trace (steps before (fresh w)))
                              (steps after (cleared_after w before))).
  { apply steps_fifo_since. exists []. cbn. rewrite app_nil_r. auto. }
  split; [ reflexivity | ]. split; [ reflexivity | ].
  split; [ reflexivity | ].
  split; [ apply (inv_fifo _ (reachable_invariant w before)) | ].
  split; [ exact Hsince | ].
  intros Hinternal.
  pose proof (steps_internal_enqueued after (cleared_after w before) Hinternal)
    as Henq.
  destruct Hsince as (since & Htr & Hfifo).
  rewrite Htr in Henq |- *.
  change (trace (cleared_after w before))
    with (trace (steps before (fresh w))) in Henq.
  rewrite enqueued_ids_app in Henq.
  assert (Hnone : enqueued_ids since = []).
  { apply (f_equal length) in Henq. rewrite length_app in Henq.
    apply length_zero_iff_nil. lia. }
  rewrite Hnone in Hfifo. symmetry in Hfifo.
  apply app_eq_nil in Hfifo as [Hstarted Hqueue].
  rewrite started_ids_app, Hstarted, app_nil_r.
  split; [ reflexivity | ].
  split; [ apply fmap_nil_inv in Hqueue; exact Hqueue | ].
  apply (steps_internal_settle after (cleared_after w before) Hinternal).
  reflexivity.
Qed.

End Clearing.

(** ** Resetting the metrics, and what an atomic execution passes on *)

Section ResetAndPass.

Import ConcurrencyService.

Context {T : Type}.
Variable config : ConcurrencyConfig.

(** X22: [resetMetrics] starts the counting over.  Right after it
    [getMetrics] reports no operation, an average latency of 0 and the
    number of operations that are waiting as [queueDepth]; the queue, what
    is running and the outcomes are as they were; and from then on the
    metrics of the queue count the operations that settle after the
    reset. *)
Theorem resetMetrics_starts_over (el : EventLoop T) (after : list (Step T)) :
  getMetrics (resetMetrics el)
  = mkMetrics 0 0 0 (Qc_of_Z 0) (getQueueDepth (writeQueue el)) 0
  /\ queue (writeQueue (resetMetrics el)) = queue (writeQueue el)
  /\ running (resetMetrics el) = running el
  /\ outcomes (resetMetrics el) = outcomes el
  /\ storage (world (resetMetrics el)) = storage (world el)
  /\ counted_since (outcomes el) (steps after (resetMetrics el)).
Proof.
  split; [ reflexivity | ]. split; [ reflexivity | ].
  split; [ reflexivity | ]. split; [ reflexivity | ].
  split; [ reflexivity | ].
  apply steps_counted. exists []. cbn. rewrite app_nil_r. repeat split.
Qed.

(** X23: [executeAtomic] passes the outcome of the operation on.  Called
    on an idle queue it settles as the operation does, with the same value
    or the same error, leaves the queue idle, leaves in the storage what
    the operation left there, and the queue counts one more success or one
    more failure. *)
Theorem executeAtomic_passes_outcome (op : Async T) (el : EventLoop T) :
  idle el ->
  snd (executeAtomic config op el)
  = Some (snd (run op (fst (generateOperationId (world el)))))
  /\ idle (fst (executeAtomic config op el))
  /\ storage (world (fst (executeAtomic config op el)))
     = storage (fst (run op (fst (generateOperationId (world el)))))
  /\ outcomes (fst (executeAtomic config op el))
     = (outcomes el
        ++ [(snd (generateOperationId (world el)),
             snd (run op (fst (generateOperationId (world el)))))])%list
  /\ successfulOperations (metrics (writeQueue (fst (executeAtomic config op el))))
     = successfulOperations (metrics (writeQueue el))
       + (if succeeded (snd (run op (fst (generateOperationId (world el)))))
          then 1 else 0)
  /\ failedOperations (metrics (writeQueue (fst (executeAtomic config op el))))
     = failedOperations (metrics (writeQueue el))
       + (if succeeded (snd (run op (fst (generateOperationId (world el)))))
          then 0 else 1).
Proof.
  intros Hidle. rewrite executeAtomic_idle by exact Hidle.
  cbn [fst snd]. unfold enqueued_alone.
  destruct (run op (fst (generateOperationId (world el)))) as [w' r].
  cbn [fst snd set_world world writeQueue outcomes metrics].
  split; [ reflexivity | ]. split; [ repeat split | ].
  split; [ apply storage_recorded | ]. split; [ reflexivity | ].
  destruct r; cbn; split; lia.
Qed.

End ResetAndPass.

Lemma executeAtomic_passes_outcome_witness :
  snd (ConcurrencyService.executeAtomic DEFAULT_CONCURRENCY_CONFIG
         (failing "boom") (fresh example_world))
  = Some (snd (run (failing "boom")
                   (fst (generateOperationId (world (fresh (T:=unit) example_world))))))
  /\ idle (fst (ConcurrencyService.executeAtomic DEFAULT_CONCURRENCY_CONFIG
                  (failing "boom") (fresh example_world)))
  /\ storage (world (fst (ConcurrencyService.executeAtomic
                            DEFAULT_CONCURRENCY_CONFIG (failing "boom")
                            (fresh example_world))))
     = storage (fst (run (failing "boom")
                         (fst (generateOperationId
                                 (world (fresh (T:=unit) example_world))))))
  /\ outcomes (fst (ConcurrencyService.executeAtomic DEFAULT_CONCURRENCY_CONFIG
                      (failing "boom") (fresh example_world)))
     = (outcomes (fresh (T:=unit) example_world)
        ++ [(snd (generateOperationId (world (fresh (T:=unit) example_world))),
             snd (run (failing "boom")
                      (fst (generateOperationId
                              (world (fresh (T:=unit) example_world))))))])%list
  /\ successfulOperations
       (metrics (writeQueue (fst (ConcurrencyService.executeAtomic
                                    DEFAULT_CONCURRENCY_CONFIG (failing "boom")
                                    (fresh example_world)))))
     = successfulOperations (metrics (writeQueue (fresh (T:=unit) example_world)))
       + (if succeeded (snd (run (failing "boom")
                                 (fst (generateOperationId
                                         (world (fresh (T:=unit) example_world))))))
          then 1 else 0)
  /\ failedOperations
       (metrics (writeQueue (fst (ConcurrencyService.executeAtomic
                                    DEFAULT_CONCURRENCY_CONFIG (failing "boom")
                                    (fresh example_world)))))
     = failedOperations (metrics (writeQueue (fresh (T:=unit) example_world)))
       + (if succeeded (snd (run (failing "boom")
                                 (fst (generateOperationId
                                         (world (fresh (T:=unit) example_world))))))
          then 0 else 1).
Proof.
  apply (executeAtomic_passes_outcome DEFAULT_CONCURRENCY_CONFIG (failing "boom")
           (fresh example_world)).
  repeat split.
Defined.

(** ** Operations that have the queue for themselves *)

#[global] Instance meanwhile_preorder : PreOrder meanwhile.
Proof.
  split.
  - intros w. split; reflexivity.
  - intros a b c [H1 H2] [H3 H4]. split; congruence.
Qed.

Section Ensures.

Context {A B : Type}.

Lemma holds_after_meanwhile (s : Susp A) Post w w' :
  meanwhile w w' -> holds_after s Post w -> holds_after s Post w'.
Proof.
  intros Hm H. destruct s as [r|k]; cbn in *; intros w'' Hm';
    apply H; etransitivity; eassumption.
Qed.

Lemma holds_after_mono (s : Susp A) (P Q : World -> Result A -> Prop) :
  (forall w r, P w r -> Q w r) ->
  forall w, holds_after s P w -> holds_after s Q w.
Proof.
  intros HPQ. induction s as [r|k IH] using Susp_ind; intros w H; cbn in *.
  - intros w' Hm. apply HPQ, H, Hm.
  - intros w' Hm. apply IH, H, Hm.
Qed.

Lemma holds_after_closed (s : Susp A) (Post : World -> Result A -> Prop) :
  forall w,
    holds_after s Post w ->
    holds_after s (fun w1 r => forall w2, meanwhile w1 w2 -> Post w2 r) w.
Proof.
  induction s as [r|k IH] using Susp_ind; intros w H; cbn in *.
  - intros w' Hm w2 Hm2. apply H. etransitivity; eassumption.
  - intros w' Hm. apply IH, H, Hm.
Qed.

Lemma holds_after_andThen (s : Susp A) (f : Result A -> Async B) Post :
  forall w,
    holds_after s (fun w1 r => ensures (f r) Post w1) w ->
    holds_after (snd (andThen s f w)) Post (fst (andThen s f w)).
Proof.
  induction s as [r|k IH] using Susp_ind; intros w H; cbn in *.
  - apply (H w). reflexivity.
  - intros w' Hm. apply IH, H, Hm.
Qed.

Lemma ensures_bind (m : Async A) (f : A -> Async B) Post w :
  ensures m (fun w1 r =>
               match r with
               | Ok a => ensures (f a) Post w1
               | Throw e => forall w', meanwhile w1 w' -> Post w' (Throw e)
               end) w ->
  ensures (bind m f) Post w.
Proof.
  intros H. unfold ensures, bind. apply holds_after_andThen.
  revert H. apply holds_after_mono. intros w1 [a|e] H1; exact H1.
Qed.

End Ensures.

Lemma ensures_try_catch {A} (m : Async A) (h : Error -> Async A) Post w :
  ensures m (fun w1 r =>
               match r with
               | Ok a => forall w', meanwhile w1 w' -> Post w' (Ok a)
               | Throw e => ensures (h e) Post w1
               end) w ->
  ensures (try_catch m h) Post w.
Proof.
  intros H. unfold ensures, try_catch. apply holds_after_andThen.
  revert H. apply holds_after_mono. intros w1 [a|e] H1; exact H1.
Qed.

Lemma ensures_ret {A} (a : A) (Post : World -> Result A -> Prop) w :
  (forall w', meanwhile w w' -> Post w' (Ok a)) -> ensures (ret a) Post w.
Proof. intros H. exact H. Qed.

Lemma ensures_throw {A} (e : Error) (Post : World -> Result A -> Prop) w :
  (forall w', meanwhile w w' -> Post w' (Throw e)) ->
  ensures (throw e) Post w.
Proof. intros H. exact H. Qed.

Lemma ensures_gets {A} (f : World -> A) (Post : World -> Result A -> Prop) w :
  (forall w', meanwhile w w' -> Post w' (Ok (f w))) -> ensures (gets f) Post w.
Proof. intros H. exact H. Qed.

Lemma ensures_modify (f : World -> World) (Post : World -> Result unit -> Prop) w :
  (forall w', meanwhile (f w) w' -> Post w' (Ok tt)) -> ensures (modify f) Post w.
Proof. intros H. exact H. Qed.

Lemma ensures_await {A} (m : Async A) (Post : World -> Result A -> Prop) w :
  ensures m Post w -> ensures (await m) Post w.
Proof.
  intros H. unfold await. apply ensures_bind.
  apply holds_after_closed in H.
  revert H. apply holds_after_mono. intros w1 [a|e] H1.
  - apply ensures_bind. unfold ensures, yield. cbn.
    intros w2 Hm2 w3 Hm3. apply ensures_ret. intros w4 Hm4.
    apply H1. do 2 (etransitivity; [ eassumption | ]). exact Hm4.
  - exact H1.
Qed.

Lemma reliable_meanwhile w w' : meanwhile w w' -> reliable w -> reliable w'.
Proof. intros [_ H] Hr. unfold reliable in *. congruence. Qed.

Lemma persisted_meanwhile k w w' :
  meanwhile w w' -> persisted k w' = persisted k w.
Proof. intros [H _]. unfold persisted. rewrite H. reflexivity. Qed.

Lemma take_lastError_reliable w : reliable w -> take_lastError w = (w, None).
Proof. intros H. unfold take_lastError. rewrite H. reflexivity. Qed.

Section EnsuresStore.

Import ChromeStorageService ConcurrencyService.

Lemma ensures_storage_get key (Post : World -> Result _ -> Prop) w :
  reliable w ->
  (forall w', meanwhile w w' ->
     Post w' (Ok (mkCallback None (storage w !! key)))) ->
  ensures (chrome_storage_local_get key) Post w.
Proof.
  intros Hrel H. unfold ensures, chrome_storage_local_get. cbn.
  intros w1 Hm1.
  rewrite (take_lastError_reliable w1 (reliable_meanwhile w w1 Hm1 Hrel)).
  cbn. intros w2 Hm2. destruct Hm1 as [Hs1 Hl1]. rewrite Hs1.
  apply H. etransitivity; [ split; eassumption | exact Hm2 ].
Qed.

Lemma ensures_storage_set key v (Post : World -> Result _ -> Prop) w :
  reliable w ->
  (forall w',
     reliable w' -> storage w' = <[key := v]> (storage w) ->
     Post w' (Ok (mkCallback None tt))) ->
  ensures (chrome_storage_local_set key v) Post w.
Proof.
  intros Hrel H. unfold ensures, chrome_storage_local_set. cbn.
  intros w1 Hm1.
  rewrite (take_lastError_reliable w1 (reliable_meanwhile w w1 Hm1 Hrel)).
  cbn. intros w2 [Hs2 Hl2]. apply H.
  - unfold reliable in *. rewrite Hl2. cbn. destruct Hm1 as [_ Hl1]. congruence.
  - rewrite Hs2. cbn. destruct Hm1 as [Hs1 _]. rewrite Hs1. reflexivity.
Qed.

Lemma persisted_stored k (x : gmap string Entity) s w :
  storage w = <[storageKey k := VObject x]> s -> persisted k w = Some x.
Proof. intros H. unfold persisted. rewrite H, lookup_insert_eq. reflexivity. Qed.

Lemma ensures_writeMap_merge k m c (Post : World -> Result unit -> Prop) w :
  reliable w -> persisted k w = Some c ->
  (forall w',
     reliable w' ->
     storage w' = <[storageKey k := VObject (m ∪ c)]> (storage w) ->
     Post w' (Ok tt)) ->
  ensures (writeMap k m false) Post w.
Proof.
  intros Hrel Hc H. unfold writeMap.
  apply ensures_bind, ensures_storage_get; [ exact Hrel | ].
  intros w1 Hm1. cbn [runtime_lastError result].
  apply ensures_bind, ensures_storage_set;
    [ exact (reliable_meanwhile w w1 Hm1 Hrel) | ].
  intros w2 Hrel2 Hs2. cbn [runtime_lastError].
  apply ensures_ret. intros w3 Hm3. apply H.
  - exact (reliable_meanwhile w2 w3 Hm3 Hrel2).
  - destruct Hm3 as [Hs3 _]. destruct Hm1 as [Hs1 _].
    rewrite Hs3, Hs2, Hs1. repeat f_equal.
    unfold persisted in Hc.
    destruct (storage w !! storageKey k) as [[ | p | arr | m0 ]|];
      try discriminate; injection Hc as <-; reflexivity.
Qed.

Lemma ensures_readMap k m (Post : World -> Result MapRef -> Prop) w :
  reliable w -> persisted k w = Some m ->
  (forall w', meanwhile w w' -> Post w' (Ok (RObject (plain m)))) ->
  ensures (readMap k) Post w.
Proof.
  intros Hrel Hm H. unfold readMap.
  apply ensures_bind, ensures_storage_get; [ exact Hrel | ].
  intros w1 Hm1. cbn [runtime_lastError result].
  unfold persisted in Hm.
  destruct (storage w !! storageKey k) as [[ | p | arr | m0 ]|];
    try discriminate; injection Hm as <-; apply ensures_ret;
    intros w2 Hm2; apply H; etransitivity; eassumption.
Qed.

Lemma ensures_save_steps k input i m
    (Post : World -> Result Member -> Prop) w :
  reliable w -> persisted k w = Some m ->
  (forall w' t found,
     reliable w' ->
     persisted k w' = Some (assigned m i (saved m input i t)) ->
     truthy_member found = true ->
     Post w' (Ok found)) ->
  ensures (save_steps k input i) Post w.
Proof.
  intros Hrel Hm H. unfold save_steps.
  apply ensures_bind, ensures_await, (ensures_readMap k m); [ assumption.. | ].
  intros w1 Hm1.
  pose proof (reliable_meanwhile w w1 Hm1 Hrel) as Hrel1.
  pose proof (persisted_meanwhile k w w1 Hm1) as Hp1. rewrite Hm in Hp1.
  cbn beta iota. rewrite record_of_member_plain.
  apply ensures_bind. unfold Date_now. apply ensures_gets.
  intros w2 Hm2.
  pose proof (reliable_meanwhile w1 w2 Hm2 Hrel1) as Hrel2.
  pose proof (persisted_meanwhile k w1 w2 Hm2) as Hp2. rewrite Hp1 in Hp2.
  change (spread (m !! i) input i (createdAt_for (m !! i) input (clock w1))
                 (clock w1))
    with (saved m input i (clock w1)).
  change (own (assign (plain m) i (saved m input i (clock w1))))
    with (assigned m i (saved m input i (clock w1))).
  apply ensures_bind, ensures_await.
  apply (ensures_writeMap_merge k _ m); [ assumption.. | ].
  intros w3 Hrel3 Hs3. rewrite assigned_union_self in Hs3.
  pose proof (persisted_stored k _ _ w3 Hs3) as Hp3.
  apply ensures_bind, ensures_await, (ensures_readMap k _ _ w3 Hrel3 Hp3).
  intros w4 Hm4. apply ensures_ret. intros w5 Hm5.
  apply (H w5 (clock w1)).
  - apply (reliable_meanwhile w4 w5 Hm5), (reliable_meanwhile w3 w4 Hm4), Hrel3.
  - rewrite (persisted_meanwhile k w4 w5 Hm5), (persisted_meanwhile k w3 w4 Hm4).
    exact Hp3.
  - apply truthy_member_assigned.
Qed.

Lemma ensures_saveAtomic_operation k input m
    (Post : World -> Result unit -> Prop) w :
  reliable w -> persisted k w = Some m -> truthy_string (id input) = true ->
  (forall w' t,
     reliable w' ->
     persisted k w'
     = Some (assigned m (id input) (saved m input (id input) t)) ->
     Post w' (Ok tt)) ->
  ensures (saveAtomic_operation k input) Post w.
Proof.
  intros Hrel Hm Hid H. unfold saveAtomic_operation, id_or_makeId.
  rewrite Hid. apply ensures_bind, ensures_ret. intros w1 Hm1.
  apply ensures_bind, (ensures_save_steps k input (id input) m).
  - exact (reliable_meanwhile w w1 Hm1 Hrel).
  - rewrite (persisted_meanwhile k w w1 Hm1). exact Hm.
  - intros w2 t found Hrel2 Hp2 Hfound. rewrite Hfound. cbn [negb].
    apply ensures_ret. intros w3 Hm3.
    apply (H w3 t).
    + exact (reliable_meanwhile w2 w3 Hm3 Hrel2).
    + rewrite (persisted_meanwhile k w2 w3 Hm3). exact Hp2.
Qed.

Lemma meanwhile_recorded config success latency w :
  meanwhile w (service_recordOperation config success latency w).
Proof.
  unfold service_recordOperation.
  destruct (enableMetrics config); split; reflexivity.
Qed.

Lemma ensures_writeMap_replace k m (Post : World -> Result unit -> Prop) w :
  reliable w ->
  (forall w',
     reliable w' -> storage w' = <[storageKey k := VObject m]> (storage w) ->
     Post w' (Ok tt)) ->
  ensures (writeMap k m true) Post w.
Proof.
  intros Hrel H. unfold writeMap.
  apply ensures_bind, ensures_storage_set; [ exact Hrel | ].
  intros w1 Hrel1 Hs1. cbn [runtime_lastError].
  apply ensures_ret. intros w2 Hm2. apply H.
  - exact (reliable_meanwhile w1 w2 Hm2 Hrel1).
  - destruct Hm2 as [Hs2 _]. rewrite Hs2. exact Hs1.
Qed.

Lemma ensures_deleteAtomic_operation k i m
    (Post : World -> Result unit -> Prop) w :
  reliable w -> persisted k w = Some m ->
  m !! "hasOwnProperty" = None -> inherited i = false ->
  (forall w',
     reliable w' -> persisted k w' = Some (delete i m) -> Post w' (Ok tt)) ->
  ensures (deleteAtomic_operation k i) Post w.
Proof.
  intros Hrel Hm Hhas Hinh H. unfold deleteAtomic_operation.
  apply ensures_bind, ensures_await, (ensures_readMap k m); [ assumption.. | ].
  intros w1 Hm1.
  pose proof (reliable_meanwhile w w1 Hm1 Hrel) as Hrel1.
  pose proof (persisted_meanwhile k w w1 Hm1) as Hp1. rewrite Hm in Hp1.
  cbn beta iota. apply ensures_bind. unfold hasOwnProperty.
  cbn [own plain]. rewrite Hhas. apply ensures_ret. intros w1' Hm1'.
  pose proof (reliable_meanwhile w1 w1' Hm1' Hrel1) as Hrel1'.
  pose proof (persisted_meanwhile k w1 w1' Hm1') as Hp1'. rewrite Hp1 in Hp1'.
  destruct (bool_decide_reflect (is_Some (m !! i))) as [Hin|Hout].
  - apply ensures_bind, ensures_await, ensures_writeMap_replace;
      [ exact Hrel1' | ].
    intros w2 Hrel2 Hs2. cbn [remove own plain] in Hs2.
    pose proof (persisted_stored k _ _ w2 Hs2) as Hp2.
    apply ensures_bind, ensures_await, (ensures_readMap k _ _ w2 Hrel2 Hp2).
    intros w3 Hm3. rewrite member_plain, lookup_delete_eq, Hinh.
    cbn [truthy_member]. apply ensures_ret. intros w4 Hm4.
    apply H.
    + apply (reliable_meanwhile w3 w4 Hm4), (reliable_meanwhile w2 w3 Hm3), Hrel2.
    + rewrite (persisted_meanwhile k w3 w4 Hm4), (persisted_meanwhile k w2 w3 Hm3).
      exact Hp2.
  - apply ensures_ret. intros w2 Hm2. apply H.
    + exact (reliable_meanwhile w1' w2 Hm2 Hrel1').
    + rewrite (persisted_meanwhile k w1' w2 Hm2), Hp1'. f_equal. symmetry.
      apply delete_id.
      destruct (m !! i) eqn:E; [ exfalso; apply Hout; eauto | reflexivity ].
Qed.

Lemma ensures_requested k c m (Post : World -> Result unit -> Prop) w :
  reliable w -> persisted k w = Some m ->
  m !! "hasOwnProperty" = None -> well_formed c ->
  (forall w' t,
     reliable w' -> persisted k w' = Some (carried_out m c t) -> Post w' (Ok tt)) ->
  ensures (requested k c) Post w.
Proof.
  intros Hrel Hm Hhas [Hc Hinh] H. destruct c as [input|i]; cbn in *.
  - apply (ensures_saveAtomic_operation k input m); [ assumption.. | ].
    intros w' t Hrel' Hp'. apply (H w' t Hrel').
    rewrite Hp', assigned_ne by (apply inherited_not_proto, Hinh).
    reflexivity.
  - apply (ensures_deleteAtomic_operation k i m); [ assumption.. | ].
    intros w' Hrel' Hp'. apply (H w' 0 Hrel' Hp').
Qed.

Lemma ensures_atomic_operation config k c m w :
  reliable w -> persisted k w = Some m ->
  m !! "hasOwnProperty" = None -> well_formed c ->
  0 < maxRetries config ->
  ensures (atomic_operation config k c) (carried_out_on k c m) w.
Proof.
  intros Hrel Hm Hhas Hid Hn. unfold atomic_operation, executeWithRetry.
  apply ensures_bind. unfold Date_now at 1. apply ensures_gets. intros w1 Hm1.
  destruct (Z.to_nat (maxRetries config)) as [|n] eqn:Hnat; [ lia | ].
  cbn [retry_loop]. apply ensures_bind. unfold attempt.
  apply ensures_try_catch, ensures_bind, ensures_await.
  apply (ensures_requested k c m).
  - exact (reliable_meanwhile w w1 Hm1 Hrel).
  - rewrite (persisted_meanwhile k w w1 Hm1). exact Hm.
  - exact Hhas.
  - exact Hid.
  - intros w2 t Hrel2 Hp2. apply ensures_ret. intros w3 Hm3 w4 Hm4.
    apply ensures_bind. unfold Date_now. apply ensures_gets. intros w5 Hm5.
    apply ensures_bind, ensures_modify. intros w6 Hm6.
    apply ensures_ret. intros w7 Hm7.
    assert (Hall : meanwhile w2 w7).
    { etransitivity; [ exact Hm3 | ]. etransitivity; [ exact Hm4 | ].
      etransitivity; [ exact Hm5 | ].
      etransitivity; [ apply meanwhile_recorded | ].
      etransitivity; [ exact Hm6 | exact Hm7 ]. }
    split; [ reflexivity | ].
    split; [ exact (reliable_meanwhile w2 w7 Hall Hrel2) | ].
    exists t. rewrite (persisted_meanwhile k w2 w7 Hall). exact Hp2.
Qed.

End EnsuresStore.

(** ** Atomic requests are served one after the other *)

Section ServingRequests.

Variable config : ConcurrencyConfig.
Variable k : StoreKind.
Variable m : gmap string Entity.

Hypothesis attempts : 0 < maxRetries config.
Hypothesis visible : m !! "hasOwnProperty" = None.

Lemma carried_out_ne (m1 : gmap string Entity) c t j :
  j <> target c -> carried_out m1 c t !! j = m1 !! j.
Proof.
  intros Hne. destruct c as [input|i]; cbn in *.
  - apply lookup_insert_ne. congruence.
  - apply lookup_delete_ne. congruence.
Qed.

Lemma Serial_off cs m' :
  Serial m cs m' ->
  forall j, j ∉ target <$> cs -> m' !! j = m !! j.
Proof.
  induction 1 as [|cs m1 c t _ IH]; intros j Hj; [ reflexivity | ].
  rewrite fmap_app in Hj. apply not_elem_of_app in Hj as [Hj1 Hj2].
  cbn in Hj2. apply not_elem_of_cons in Hj2 as [Hne _].
  rewrite carried_out_ne by exact Hne. apply IH, Hj1.
Qed.

(** No request that is well formed hides the method [hasOwnProperty]. *)
Lemma Serial_visible cs m' :
  Serial m cs m' -> Forall well_formed cs -> m' !! "hasOwnProperty" = None.
Proof.
  intros Hser Hall. rewrite (Serial_off cs m' Hser); [ exact visible | ].
  intros Hin. apply list_elem_of_fmap in Hin as (c & Heq & Hc).
  apply (proj1 (Forall_forall _ _) Hall) in Hc. destruct Hc as [_ Hc].
  rewrite <- Heq in Hc. discriminate.
Qed.

Lemma meanwhile_generated w : meanwhile w (fst (generateOperationId w)).
Proof. unfold generateOperationId. destruct (random w); split; reflexivity. Qed.

Lemma fresh_serving w :
  reliable w -> persisted k w = Some m -> Serving config k m [] (fresh w).
Proof.
  intros Hrel Hm. split; [ apply fresh_invariant | ].
  exists [], [], []. cbn. repeat split; auto using Serial_nil.
  exists m. auto using Serial_nil.
Qed.

Lemma fmap_nil_atomic_save (waiting : list Request) :
  [] = atomic_operation config k <$> waiting -> waiting = [].
Proof. destruct waiting; [ reflexivity | discriminate ]. Qed.

Lemma step_serving called h el :
  Forall well_formed (called ++ requests [h]) ->
  Serving config k m called el ->
  Serving config k m (called ++ requests [h]) (step (happen config k h) el).
Proof.
  intros Hids [Hinv (done & current & waiting & Hcalled & Hq & Hok & Hlen & Hrun)].
  split; [ apply step_invariant, Hinv | ].
  assert (Hdone : Forall well_formed done).
  { pose proof Hids as Hall. apply Forall_app in Hall as [Hall _].
    rewrite Hcalled in Hall. apply Forall_app in Hall as [Hall _]. exact Hall. }
  destruct Hinv as [Hp _ _ _ _]. destruct el as [[q p mt] w r b outs tr].
  cbn in Hq, Hok, Hlen, Hrun.
  destruct Hp as [(Hp & Hq0 & Hr & Hb) | op0 s0 Hp Hr Hb | Hp Hr Hb];
    cbn in *; subst.
  - (* idle *)
    apply fmap_nil_atomic_save in Hq. subst waiting.
    destruct Hrun as (-> & Hrel & m' & Hm' & Hser).
    destruct h as [input | i | | d]; cbn [happen step requests omap].
    + unfold enqueue, processQueue. cbn.
      exists done, [input], []. cbn. rewrite !app_nil_r.
      split; [ reflexivity | ]. split; [ reflexivity | ].
      split; [ exact Hok | ]. split; [ exact Hlen | ].
      exists input, m'. split; [ reflexivity | ]. split; [ exact Hser | ].
      apply ensures_atomic_operation.
      * apply reliable_generated, Hrel.
      * rewrite persisted_generated. exact Hm'.
      * apply (Serial_visible _ _ Hser Hdone).
      * apply (proj1 (Forall_forall _ _) Hids).
        apply elem_of_app. right. apply list_elem_of_singleton. reflexivity.
      * exact attempts.
    + cbn. rewrite app_nil_r. exists done, [], []. cbn.
      repeat split; eauto.
    + cbn. rewrite app_nil_r. exists done, [], []. cbn.
      repeat split; eauto.
    + cbn. rewrite app_nil_r. exists done, [], []. cbn.
      repeat split; eauto.
  - (* an operation is running *)
    destruct Hrun as (input0 & m1 & -> & Hser & Hhold).
    destruct h as [input | i | | d]; cbn [happen step requests omap].
    + unfold enqueue, processQueue. cbn.
      exists done, [input0], (waiting ++ [input])%list. cbn.
      split; [ rewrite <- !app_assoc; reflexivity | ].
      split; [ rewrite !fmap_app, Hq; reflexivity | ].
      split; [ exact Hok | ]. split; [ exact Hlen | ].
      exists input0, m1. split; [ reflexivity | ]. split; [ exact Hser | ].
      exact (holds_after_meanwhile s0 _ _ _ (meanwhile_generated w) Hhold).
    + rewrite app_nil_r. destruct i as [|i]; cbn.
      * destruct s0 as [res|k0]; cbn.
        -- destruct (Hhold w) as (-> & Hrel & t & Hp'); [ reflexivity | ].
           exists (done ++ [input0])%list, [], waiting. cbn.
           split; [ rewrite <- app_assoc; reflexivity | ].
           split; [ exact Hq | ].
           split; [ apply Forall_app; split; [ exact Hok | ];
                    apply Forall_singleton; reflexivity | ].
           split; [ rewrite !length_app, Hlen; reflexivity | ].
           split; [ reflexivity | ]. split; [ exact Hrel | ].
           eexists. split; [ exact Hp' | ]. apply Serial_snoc, Hser.
        -- exists done, [input0], waiting. cbn.
           split; [ reflexivity | ]. split; [ exact Hq | ].
           split; [ exact Hok | ]. split; [ exact Hlen | ].
           exists input0, m1. split; [ reflexivity | ]. split; [ exact Hser | ].
           apply (Hhold w). reflexivity.
      * exists done, [input0], waiting. cbn.
        split; [ reflexivity | ]. split; [ exact Hq | ].
        split; [ exact Hok | ]. split; [ exact Hlen | ].
        exists input0, m1. auto.
    + rewrite app_nil_r. cbn. exists done, [input0], waiting. cbn.
      split; [ reflexivity | ]. split; [ exact Hq | ].
      split; [ exact Hok | ]. split; [ exact Hlen | ].
      exists input0, m1. auto.
    + rewrite app_nil_r. cbn. exists done, [input0], waiting. cbn.
      split; [ reflexivity | ]. split; [ exact Hq | ].
      split; [ exact Hok | ]. split; [ exact Hlen | ].
      exists input0, m1. split; [ reflexivity | ]. split; [ exact Hser | ].
      refine (holds_after_meanwhile s0 _ _ _ _ Hhold). split; reflexivity.
  - (* the worker is about to go on *)
    destruct Hrun as (-> & Hrel & m' & Hm' & Hser).
    destruct h as [input | i | | d]; cbn [happen step requests omap].
    + unfold enqueue, processQueue. cbn.
      exists done, [], (waiting ++ [input])%list. cbn.
      split; [ rewrite <- !app_assoc; reflexivity | ].
      split; [ rewrite !fmap_app, Hq; reflexivity | ].
      split; [ exact Hok | ]. split; [ exact Hlen | ].
      split; [ reflexivity | ].
      split; [ apply reliable_generated, Hrel | ].
      exists m'. rewrite persisted_generated. auto.
    + rewrite app_nil_r. cbn. exists done, [], waiting. cbn.
      repeat split; eauto.
    + rewrite app_nil_r. cbn. unfold processQueue_loop. cbn.
      destruct q as [|op rest]; cbn.
      * apply fmap_nil_atomic_save in Hq. subst waiting.
        exists done, [], []. cbn. repeat split; eauto.
      * destruct waiting as [|input waiting]; [ discriminate | ].
        cbn in Hq. injection Hq as Hop Hrest.
        exists done, [input], waiting. cbn.
        split; [ reflexivity | ]. split; [ exact Hrest | ].
        split; [ exact Hok | ]. split; [ exact Hlen | ].
        exists input, m'. split; [ reflexivity | ]. split; [ exact Hser | ].
        rewrite Hop. apply ensures_atomic_operation; try assumption;
          [ apply (Serial_visible _ _ Hser Hdone) | ].
        apply (proj1 (Forall_forall _ _) Hids).
        rewrite app_nil_r. apply elem_of_app. right. left.
    + rewrite app_nil_r. cbn. exists done, [], waiting. cbn.
      repeat split; eauto.
Qed.

(** [Called c] is the call of [enqueue] that the atomic method for [c]
    makes, and [quiesce] what its [await] waits for. *)
Lemma called_enqueues (el : EventLoop unit) input i :
  Facade.saveAtomic (Facade.mkService (Some config)) k input el
  = ConcurrencyService.executeAtomic config
      (atomic_operation config k (SaveRequest input)) el
  /\ Facade.deleteAtomic (Facade.mkService (Some config)) k i el
     = ConcurrencyService.executeAtomic config
         (atomic_operation config k (DeleteRequest i)) el
  /\ forall c,
       fst (await_enqueue (atomic_operation config k c) el)
       = quiesce (step (happen config k (Called c)) el).
Proof. repeat split. Qed.

Lemma requests_cons h hs :
  requests (h :: hs) = (requests [h] ++ requests hs)%list.
Proof. unfold requests. cbn. destruct h; reflexivity. Qed.

Lemma steps_serving hs :
  forall called el,
    Forall well_formed (called ++ requests hs) ->
    Serving config k m called el ->
    Serving config k m (called ++ requests hs)
            (steps (happen config k <$> hs) el).
Proof.
  induction hs as [|h hs IH]; intros called el Hids H.
  - cbn. rewrite app_nil_r. exact H.
  - rewrite requests_cons, app_assoc in Hids |- *.
    rewrite fmap_cons.
    change (steps (happen config k h :: (happen config k <$> hs)) el)
      with (steps (happen config k <$> hs) (step (happen config k h) el)).
    apply IH; [ exact Hids | ].
    apply step_serving; [ | exact H ].
    apply Forall_app in Hids as [Hids _]. exact Hids.
Qed.

(** The steps no caller takes part in are happenings that call no save. *)
Lemma internal_happenings (schedule : list (Step unit)) :
  Forall internal schedule ->
  exists hs, schedule = happen config k <$> hs /\ requests hs = [].
Proof.
  induction 1 as [|s schedule Hs _ (hs & -> & Hnone)].
  - exists []. split; reflexivity.
  - destruct s as [op | i | | d]; [ destruct Hs | .. ].
    + exists (Resumed i :: hs). split; [ reflexivity | exact Hnone ].
    + exists (WorkerResumed :: hs). split; [ reflexivity | exact Hnone ].
    + exists (Elapsed d :: hs). split; [ reflexivity | exact Hnone ].
Qed.

Lemma shows_carried_out (m1 : gmap string Entity) c t :
  shows c (carried_out m1 c t).
Proof.
  destruct c as [input|i]; cbn.
  - eexists. split; [ apply lookup_insert_eq | ]. split; reflexivity.
  - apply lookup_delete_eq.
Qed.

Lemma shows_agree c (m1 m2 : gmap string Entity) :
  m2 !! target c = m1 !! target c -> shows c m1 -> shows c m2.
Proof. intros H. destruct c as [input|i]; cbn in *; rewrite H; auto. Qed.

Lemma app_snoc_inv {X} (l1 l2 xs : list X) (x y : X) :
  (xs ++ [y] = l1 ++ x :: l2)%list ->
  (l2 = [] /\ xs = l1 /\ y = x)
  \/ (exists l2', l2 = (l2' ++ [y])%list /\ xs = (l1 ++ x :: l2')%list).
Proof.
  intros H. destruct l2 as [|z l2 _] using rev_ind.
  - left. apply app_inj_tail in H as [-> ->]. auto.
  - right. exists l2.
    change (l1 ++ x :: l2 ++ [z])%list with (l1 ++ (x :: l2) ++ [z])%list in H.
    rewrite app_assoc in H. apply app_inj_tail in H as [-> ->]. auto.
Qed.

Lemma Serial_last cs m' :
  Serial m cs m' ->
  forall l1 c l2,
    cs = (l1 ++ c :: l2)%list -> target c ∉ target <$> l2 -> shows c m'.
Proof.
  induction 1 as [|cs m1 x t _ IH]; intros l1 c l2 Heq Hlast.
  - destruct l1; discriminate.
  - apply app_snoc_inv in Heq as [(-> & -> & ->)|(l2' & -> & ->)].
    + apply shows_carried_out.
    + rewrite fmap_app in Hlast. apply not_elem_of_app in Hlast as [Hl2 Hx].
      cbn in Hx. apply not_elem_of_cons in Hx as [Hne _].
      apply (shows_agree c m1); [ apply carried_out_ne, Hne | ].
      apply (IH l1 c l2' eq_refl Hl2).
Qed.

(** X24: the atomic requests are served one after the other, whatever the
    event loop does.  When callers call the atomic saves and deletes in
    any number and at any time, on reliable storage, for records that come
    with their id and for ids that name no member of [Object.prototype],
    on a map that keeps no record under the key [hasOwnProperty], and the
    queue is then left to finish, every call has resolved and the map is the one that
    the requests make one after the other in the order of the calls: the
    last request for an id shows (the record it saved is there, with the
    name it was given, or the record it deleted is not), and the records
    with other ids are as they were. *)
Theorem atomic_requests_are_serial (hs : list Happening) (w : World) :
  reliable w -> persisted k w = Some m -> Forall well_formed (requests hs) ->
  idle (quiesce (steps (happen config k <$> hs) (fresh w)))
  /\ Forall (fun o => snd o = Ok tt)
            (outcomes (quiesce (steps (happen config k <$> hs) (fresh w))))
  /\ length (outcomes (quiesce (steps (happen config k <$> hs) (fresh w))))
     = length (requests hs)
  /\ exists m',
       persisted k (world (quiesce (steps (happen config k <$> hs) (fresh w))))
       = Some m'
       /\ Serial m (requests hs) m'
       /\ (forall j, j ∉ target <$> requests hs -> m' !! j = m !! j)
       /\ (forall l1 c l2,
             requests hs = (l1 ++ c :: l2)%list ->
             target c ∉ target <$> l2 ->
             shows c m').
Proof.
  intros Hrel Hm Hids.
  pose proof (steps_serving hs [] (fresh w) Hids (fresh_serving w Hrel Hm))
    as Hserving.
  cbn [app] in Hserving.
  destruct (quiesce_steps (steps (happen config k <$> hs) (fresh w)))
    as (schedule & Hinternal & Hquiesce).
  destruct (internal_happenings schedule Hinternal) as (hs' & -> & Hnone).
  pose proof (steps_serving hs' _ _ ltac:(rewrite Hnone, app_nil_r; exact Hids)
                Hserving) as Hend.
  rewrite Hnone, app_nil_r, <- Hquiesce in Hend.
  pose proof (quiesce_idle _ (serving_invariant _ _ _ _ _ Hserving)) as Hidle.
  split; [ exact Hidle | ].
  destruct Hend as [_ (done & current & waiting & Hcalled & Hq & Hok & Hlen & Hrun)].
  destruct Hidle as (_ & Hqueue & Hrunning & _).
  rewrite Hqueue in Hq. apply fmap_nil_atomic_save in Hq. subst waiting.
  rewrite Hrunning in Hrun. destruct Hrun as (-> & _ & m' & Hm' & Hser).
  cbn in Hcalled. rewrite app_nil_r in Hcalled. subst done.
  split; [ exact Hok | ]. split; [ exact Hlen | ].
  exists m'. split; [ exact Hm' | ]. split; [ exact Hser | ].
  split; [ apply (Serial_off _ _ Hser) | ].
  intros l1 c l2 Heq Hlast. apply (Serial_last _ _ Hser l1 c l2 Heq Hlast).
Qed.

End ServingRequests.

Lemma atomic_requests_are_serial_witness :
  idle (quiesce (steps (happen DEFAULT_CONCURRENCY_CONFIG PromptStore
                          <$> [Called (SaveRequest new_prompt); Elapsed 3;
                               Called (DeleteRequest "p1"); Resumed 0;
                               Called (SaveRequest edited_prompt); WorkerResumed])
                       (fresh example_world)))
  /\ Forall (fun o => snd o = Ok tt)
            (outcomes
               (quiesce (steps (happen DEFAULT_CONCURRENCY_CONFIG PromptStore
                                  <$> [Called (SaveRequest new_prompt); Elapsed 3;
                                       Called (DeleteRequest "p1"); Resumed 0;
                                       Called (SaveRequest edited_prompt);
                                       WorkerResumed])
                               (fresh example_world))))
  /\ length (outcomes
               (quiesce (steps (happen DEFAULT_CONCURRENCY_CONFIG PromptStore
                                  <$> [Called (SaveRequest new_prompt); Elapsed 3;
                                       Called (DeleteRequest "p1"); Resumed 0;
                                       Called (SaveRequest edited_prompt);
                                       WorkerResumed])
                               (fresh example_world))))
     = length (requests [Called (SaveRequest new_prompt); Elapsed 3;
                         Called (DeleteRequest "p1"); Resumed 0;
                         Called (SaveRequest edited_prompt); WorkerResumed])
  /\ exists m',
       persisted PromptStore
         (world (quiesce (steps (happen DEFAULT_CONCURRENCY_CONFIG PromptStore
                                   <$> [Called (SaveRequest new_prompt); Elapsed 3;
                                        Called (DeleteRequest "p1"); Resumed 0;
                                        Called (SaveRequest edited_prompt);
                                        WorkerResumed])
                                (fresh example_world))))
       = Some m'
       /\ Serial {[ "p1" := example_prompt ]}
                 (requests [Called (SaveRequest new_prompt); Elapsed 3;
                            Called (DeleteRequest "p1"); Resumed 0;
                            Called (SaveRequest edited_prompt); WorkerResumed])
                 m'
       /\ (forall j,
             j ∉ target <$> requests [Called (SaveRequest new_prompt); Elapsed 3;
                                      Called (DeleteRequest "p1"); Resumed 0;
                                      Called (SaveRequest edited_prompt);
                                      WorkerResumed] ->
             m' !! j = ({[ "p1" := example_prompt ]} : gmap string Entity) !! j)
       /\ (forall l1 c l2,
             requests [Called (SaveRequest new_prompt); Elapsed 3;
                       Called (DeleteRequest "p1"); Resumed 0;
                       Called (SaveRequest edited_prompt); WorkerResumed]
             = (l1 ++ c :: l2)%list ->
             target c ∉ target <$> l2 ->
             shows c m').
Proof.
  apply (atomic_requests_are_serial DEFAULT_CONCURRENCY_CONFIG PromptStore
           {[ "p1" := example_prompt ]}).
  - reflexivity.
  - reflexivity.
  - reflexivity.
  - reflexivity.
  - repeat constructor.
Defined.

(** ** When the storage is down *)

Section Down.

Import ChromeStorageService ConcurrencyService Facade.

Lemma take_lastError_failing w msg rest :
  lastError w = Some msg :: rest ->
  take_lastError w = (set_lastError rest w, Some (mkError LastErrorObject msg)).
Proof. intros H. unfold take_lastError. rewrite H. reflexivity. Qed.

Lemma run_readMap_failing k w msg rest :
  lastError w = Some msg :: rest ->
  run (readMap k) w = (set_lastError rest w, Throw (mkError LastErrorObject msg)).
Proof.
  intros H. unfold readMap.
  rewrite run_bind, run_storage_get_any, (take_lastError_failing w msg rest H).
  cbn [fst snd runtime_lastError]. apply run_throw.
Qed.

Lemma run_save_pass_failing k input i w msg rest :
  lastError w = Some msg :: rest ->
  run (save_pass k input i) w
  = (sleep 20 (set_lastError rest w),
     Ok (Continue (mkError LastErrorObject msg))).
Proof.
  intros H. unfold save_pass. erewrite run_try_throw; [ apply run_backoff | ].
  apply run_bind_throw. unfold save_steps. apply run_bind_throw.
  rewrite run_await. apply run_readMap_failing, H.
Qed.

Lemma run_delete_pass_failing k i w msg rest :
  lastError w = Some msg :: rest ->
  run (delete_pass k i) w
  = (sleep 20 (set_lastError rest w),
     Ok (Continue (mkError LastErrorObject msg))).
Proof.
  intros H. unfold delete_pass. erewrite run_try_throw; [ apply run_backoff | ].
  apply run_bind_throw. rewrite run_await. apply run_readMap_failing, H.
Qed.

Lemma run_requested_failing k c w msg rest :
  with_id c -> lastError w = Some msg :: rest ->
  run (requested k c) w
  = (set_lastError rest w, Throw (mkError LastErrorObject msg)).
Proof.
  intros Hc H. destruct c as [input|i]; cbn in *.
  - unfold saveAtomic_operation.
    erewrite run_bind_ok by (apply run_id_or_makeId; exact Hc).
    apply run_bind_throw. unfold save_steps. apply run_bind_throw.
    rewrite run_await. apply run_readMap_failing, H.
  - unfold deleteAtomic_operation. apply run_bind_throw.
    rewrite run_await. apply run_readMap_failing, H.
Qed.

(** What [lastErr.message ? lastErr.message : String(lastErr)] and
    [lastError?.message || 'Unknown error'] make of the message of
    [chrome.runtime.lastError]. *)
Lemma describe_lastError msg :
  describe (Some (mkError LastErrorObject msg))
  = if truthy_string msg then msg else "[object Object]".
Proof. unfold describe. cbn. destruct (truthy_string msg); reflexivity. Qed.

Lemma cause_lastError msg :
  cause (Some (mkError LastErrorObject msg))
  = if truthy_string msg then msg else "Unknown error".
Proof. reflexivity. Qed.

Lemma lastError_after_failure config maxRetries attempt_no e w :
  lastError (after_failure config maxRetries attempt_no e w) = lastError w.
Proof.
  unfold after_failure.
  destruct (logOperations config), (attempt_no <? maxRetries); reflexivity.
Qed.

Lemma run_executeWithRetry_down config k c w a b c0 rest :
  with_id c -> lastError w = Some a :: Some b :: Some c0 :: rest ->
  exists w',
    run (executeWithRetry config (requested k c) 3) w
    = (w', Throw (new_Error ("Operation failed after 3 attempts: "
                             +:+ (if truthy_string c0 then c0
                                  else "Unknown error"))))
    /\ storage w' = storage w.
Proof.
  intros Hc H. unfold executeWithRetry. rewrite run_bind. unfold Date_now.
  rewrite run_gets. cbn [fst snd]. change (Z.to_nat 3) with 3%nat.
  rewrite run_retry_loop_S, (run_requested_failing k c w a _ Hc H).
  cbn [fst snd].
  set (w1 := after_failure config 3 1 _ _).
  assert (H1 : lastError w1 = Some b :: Some c0 :: rest)
    by (unfold w1; rewrite lastError_after_failure; reflexivity).
  assert (S1 : storage w1 = storage w)
    by (unfold w1; rewrite storage_after_failure; reflexivity).
  rewrite run_retry_loop_S, (run_requested_failing k c w1 b _ Hc H1).
  cbn [fst snd].
  set (w2 := after_failure config 3 (1 + 1) _ _).
  assert (H2 : lastError w2 = Some c0 :: rest)
    by (unfold w2; rewrite lastError_after_failure; reflexivity).
  assert (S2 : storage w2 = storage w1)
    by (unfold w2; rewrite storage_after_failure; reflexivity).
  rewrite run_retry_loop_S, (run_requested_failing k c w2 c0 _ Hc H2).
  cbn [fst snd].
  set (w3 := after_failure config 3 (1 + 1 + 1) _ _).
  assert (S3 : storage w3 = storage w2)
    by (unfold w3; rewrite storage_after_failure; reflexivity).
  rewrite run_retry_loop_O. eexists. split; [ reflexivity | ].
  rewrite storage_recorded. congruence.
Qed.

(** X25: when the storage is down.  If the next three storage calls fail,
    [savePrompt] and [deletePrompt] (and their context twins) make their
    three passes and reject with "save... failed after retries: " and
    "delete... failed after retries: " followed by the message of the last
    [chrome.runtime.lastError], or by "[object Object]" when that message
    is empty; with a concurrency service of three attempts the atomic
    methods reject with "Operation failed after 3 attempts: " followed by
    that message, or by "Unknown error" when it is empty.  The storage is
    as it was. *)
Theorem storage_down this k input i a b c rest (el : EventLoop unit) config :
  idle el -> lastError (world el) = Some a :: Some b :: Some c :: rest ->
  truthy_string (id input) = true ->
  concurrencyService this = Some config -> maxRetries config = 3 ->
  snd (run (saveRecord k input) (world el))
  = Throw (new_Error ("save" +:+ singular k +:+ " failed after retries: "
                      +:+ (if truthy_string c then c else "[object Object]")))
  /\ storage (fst (run (saveRecord k input) (world el))) = storage (world el)
  /\ timers (fst (run (saveRecord k input) (world el)))
     = (timers (world el) ++ [20; 20; 20])%list
  /\ snd (run (deleteRecord k i) (world el))
     = Throw (new_Error ("delete" +:+ singular k +:+ " failed after retries: "
                         +:+ (if truthy_string c then c else "[object Object]")))
  /\ storage (fst (run (deleteRecord k i) (world el))) = storage (world el)
  /\ snd (saveAtomic this k input el)
     = Some (Throw (new_Error ("Operation failed after 3 attempts: "
                               +:+ (if truthy_string c then c
                                    else "Unknown error"))))
  /\ storage (world (fst (saveAtomic this k input el))) = storage (world el)
  /\ snd (deleteAtomic this k i el)
     = Some (Throw (new_Error ("Operation failed after 3 attempts: "
                               +:+ (if truthy_string c then c
                                    else "Unknown error"))))
  /\ storage (world (fst (deleteAtomic this k i el))) = storage (world el).
Proof.
  intros Hidle H Hid Hsvc Hmax.
  assert (Hsave :
    run (saveRecord k input) (world el)
    = (sleep 20 (set_lastError rest
         (sleep 20 (set_lastError (Some c :: rest)
            (sleep 20 (set_lastError (Some b :: Some c :: rest) (world el)))))),
       Throw (new_Error ("save" +:+ singular k +:+ " failed after retries: "
                         +:+ describe (Some (mkError LastErrorObject c)))))).
  { unfold saveRecord.
    erewrite run_bind_ok by (apply run_id_or_makeId; exact Hid).
    cbn [save_loop].
    erewrite run_bind_ok by (apply run_save_pass_failing; exact H).
    cbn beta iota.
    erewrite run_bind_ok by (apply run_save_pass_failing; reflexivity).
    cbn beta iota.
    erewrite run_bind_ok by (apply run_save_pass_failing; reflexivity).
    cbn beta iota. apply run_throw. }
  assert (Hdelete :
    run (deleteRecord k i) (world el)
    = (sleep 20 (set_lastError rest
         (sleep 20 (set_lastError (Some c :: rest)
            (sleep 20 (set_lastError (Some b :: Some c :: rest) (world el)))))),
       Throw (new_Error ("delete" +:+ singular k +:+ " failed after retries: "
                         +:+ describe (Some (mkError LastErrorObject c)))))).
  { unfold deleteRecord. cbn [delete_loop].
    erewrite run_bind_ok by (apply run_delete_pass_failing; exact H).
    cbn beta iota.
    erewrite run_bind_ok by (apply run_delete_pass_failing; reflexivity).
    cbn beta iota.
    erewrite run_bind_ok by (apply run_delete_pass_failing; reflexivity).
    cbn beta iota. apply run_throw. }
  rewrite Hsave, Hdelete, describe_lastError. cbn [fst snd].
  split; [ reflexivity | ]. split; [ reflexivity | ].
  split; [ cbn; rewrite <- !app_assoc; reflexivity | ].
  split; [ reflexivity | ]. split; [ reflexivity | ].
  assert (Hatomic : forall r : Request,
    with_id r ->
    snd (executeAtomicWithRetry config (requested k r) (maxRetries config) el)
    = Some (Throw (new_Error ("Operation failed after 3 attempts: "
                              +:+ (if truthy_string c then c
                                   else "Unknown error"))))
    /\ storage (world (fst (executeAtomicWithRetry config (requested k r)
                              (maxRetries config) el)))
       = storage (world el)).
  { intros r Hr. unfold executeAtomicWithRetry.
    rewrite executeAtomic_idle by exact Hidle. rewrite Hmax.
    destruct (run_executeWithRetry_down config k r
                (fst (generateOperationId (world el))) a b c rest Hr)
      as (w' & Hrun & Hs).
    { unfold generateOperationId. destruct (random (world el)); exact H. }
    rewrite Hrun. cbn [fst snd world set_world].
    split; [ reflexivity | ].
    rewrite storage_recorded, Hs. apply storage_generated. }
  unfold saveAtomic, deleteAtomic. rewrite Hsvc.
  destruct (Hatomic (SaveRequest input) Hid) as [H1 H2].
  destruct (Hatomic (DeleteRequest i) I) as [H3 H4].
  auto.
Qed.

End Down.

Lemma storage_down_witness :
  snd (run (ChromeStorageService.saveRecord PromptStore edited_prompt)
           (world (fresh (T:=unit) down_world)))
  = Throw (new_Error ("save" +:+ ChromeStorageService.singular PromptStore
                      +:+ " failed after retries: "
                      +:+ (if truthy_string "" then "" else "[object Object]")))
  /\ storage (fst (run (ChromeStorageService.saveRecord PromptStore edited_prompt)
                       (world (fresh (T:=unit) down_world))))
     = storage (world (fresh (T:=unit) down_world))
  /\ timers (fst (run (ChromeStorageService.saveRecord PromptStore edited_prompt)
                      (world (fresh (T:=unit) down_world))))
     = (timers (world (fresh (T:=unit) down_world)) ++ [20; 20; 20])%list
  /\ snd (run (ChromeStorageService.deleteRecord PromptStore "p1")
              (world (fresh (T:=unit) down_world)))
     = Throw (new_Error ("delete" +:+ ChromeStorageService.singular PromptStore
                         +:+ " failed after retries: "
                         +:+ (if truthy_string "" then "" else "[object Object]")))
  /\ storage (fst (run (ChromeStorageService.deleteRecord PromptStore "p1")
                       (world (fresh (T:=unit) down_world))))
     = storage (world (fresh (T:=unit) down_world))
  /\ snd (Facade.saveAtomic (Facade.mkService (Some DEFAULT_CONCURRENCY_CONFIG))
            PromptStore edited_prompt (fresh down_world))
     = Some (Throw (new_Error ("Operation failed after 3 attempts: "
                               +:+ (if truthy_string "" then ""
                                    else "Unknown error"))))
  /\ storage (world (fst (Facade.saveAtomic
                            (Facade.mkService (Some DEFAULT_CONCURRENCY_CONFIG))
                            PromptStore edited_prompt (fresh down_world))))
     = storage (world (fresh (T:=unit) down_world))
  /\ snd (Facade.deleteAtomic (Facade.mkService (Some DEFAULT_CONCURRENCY_CONFIG))
            PromptStore "p1" (fresh down_world))
     = Some (Throw (new_Error ("Operation failed after 3 attempts: "
                               +:+ (if truthy_string "" then ""
                                    else "Unknown error"))))
  /\ storage (world (fst (Facade.deleteAtomic
                            (Facade.mkService (Some DEFAULT_CONCURRENCY_CONFIG))
                            PromptStore "p1" (fresh down_world))))
     = storage (world (fresh (T:=unit) down_world)).
Proof.
  apply (storage_down (Facade.mkService (Some DEFAULT_CONCURRENCY_CONFIG))
           PromptStore edited_prompt "p1" "disk full" "disk full" "" []
           (fresh down_world) DEFAULT_CONCURRENCY_CONFIG).
  - repeat split.
  - reflexivity.
  - reflexivity.
  - reflexivity.
  - reflexivity.
Defined.

(** ** Saving a record that has no id *)

Section WithoutId.

Import ChromeStorageService.

Lemma run_makeId_seeded w suffix rest :
  random w = suffix :: rest ->
  run makeId w = (set_random rest w, Ok (toString36 (clock w) +:+ "-" +:+ suffix)).
Proof.
  intros H. unfold makeId, Date_now, Math_random_suffix.
  rewrite run_bind, run_gets. cbn [fst snd].
  rewrite run_bind, run_act, H. cbn [fst snd]. apply run_ret.
Qed.

Lemma truthy_generated (a b : string) : truthy_string (a +:+ "-" +:+ b) = true.
Proof. destruct a; reflexivity. Qed.

(** X26: a record that comes without an id is saved under the id that
    [makeId] makes of the time, in base 36, and of a random suffix; the
    record that is stored carries that id, which is not empty. *)
Theorem save_without_id k input m w suffix rest :
  reliable w -> persisted k w = Some m ->
  id input = "" -> random w = suffix :: rest ->
  run (saveRecord k input) w
  = (store k (<[toString36 (clock w) +:+ "-" +:+ suffix :=
                  saved m input (toString36 (clock w) +:+ "-" +:+ suffix)
                        (clock w)]> m)
           (set_random rest w),
     Ok tt)
  /\ id (saved m input (toString36 (clock w) +:+ "-" +:+ suffix) (clock w))
     = toString36 (clock w) +:+ "-" +:+ suffix
  /\ truthy_string (toString36 (clock w) +:+ "-" +:+ suffix) = true.
Proof.
  intros Hrel Hm Hid Hrandom.
  split; [ | split; [ reflexivity | apply truthy_generated ] ].
  unfold saveRecord, id_or_makeId. rewrite Hid. cbn [truthy_string].
  erewrite run_bind_ok by (apply run_makeId_seeded; exact Hrandom).
  cbn [save_loop].
  erewrite run_bind_ok; cycle 1.
  { apply (run_save_pass k input _ m (set_random rest w)); assumption. }
  cbn beta iota. rewrite run_ret, assigned_ne; [ reflexivity | ].
  apply inherited_not_proto, hyphenated_ordinary, hyphenated_app.
Qed.

End WithoutId.

Lemma save_without_id_witness :
  run (ChromeStorageService.saveRecord PromptStore anonymous_prompt) seeded_world
  = (store PromptStore
       (<["2s-k3x9qa" :=
            saved {[ "p1" := example_prompt ]} anonymous_prompt "2s-k3x9qa" 100]>
          {[ "p1" := example_prompt ]})
       (set_random [] seeded_world),
     Ok tt)
  /\ id (saved {[ "p1" := example_prompt ]} anonymous_prompt "2s-k3x9qa" 100)
     = "2s-k3x9qa"
  /\ truthy_string "2s-k3x9qa" = true.
Proof.
  apply (save_without_id PromptStore anonymous_prompt {[ "p1" := example_prompt ]}
           seeded_world "k3x9qa" []).
  - reflexivity.
  - reflexivity.
  - reflexivity.
  - reflexivity.
Defined.
